(** * A shallow embedding of the CSP solver of [csp_solver.py]

    The class [CSP] holds the variable names, the static domains, the
    constraint tables and two counters.  Its methods are embedded below,
    method by method and under the names of the source:

    - Python dictionaries keep insertion order and the solver iterates over
      them, so a dictionary is an association list ([dict]) read by
      [dict_get] (first binding of a key) and written by [dict_set] (in
      place when the key is bound, at the end otherwise);
    - a [KeyError] is an outcome of its own ([Raise]); loops whose
      termination is not structural take fuel and answer [OutOfFuel] when it
      runs out, and the termination theorems show that the fuel the
      methods pass is always enough;
    - the methods that only read [self] ([get_all_arcs], [revise],
      [inference], ...) are functions of the object; [backtrack] and
      [backtracking_search], which write the counters, return the object
      they leave behind;
    - [inference] and [backtrack] also return the list of the calls they
      made, in order: a ghost trace used to state what holds of every call;
    - variable names are strings, as the instance builders of the source
      have them, and values are of any type with a decidable equality;
    - the instance builders and the printer follow the class in modules of
      their own; opening and reading a file is left out, so they start from
      the list of the stripped lines of the file, and what is printed is the
      list of the lines passed to [print]. *)

From Stdlib Require Import ZArith Lia Sorted.
From stdpp Require Import base decidable option list strings pretty.

Set Warnings "-clear-no-such-hyp".

Local Open Scope Z_scope.
Local Open Scope nat_scope.

(** ** Names, dictionaries and outcomes *)

(** Variable names are Python strings. *)
Abbreviation name := string.

(** [bool(s)] of a Python string: only the empty string is falsy. *)
Definition truthy (s : name) : bool :=
match s with
| EmptyString => false
| String _ _ => true
end.

Abbreviation dict A := (list (name * A)).

Section Dict.
Context {A : Type}.

(** [d[k]], [None] standing for the [KeyError]. *)
Fixpoint dict_get (k : name) (d : dict A) : option A :=
  match d with
  | [] => None
  | (k', v) :: d' => if decide (k = k') then Some v else dict_get k d'
  end.

(** [d[k] = v]. *)
Fixpoint dict_set (k : name) (v : A) (d : dict A) : dict A :=
  match d with
  | [] => [(k, v)]
  | (k', v') :: d' =>
      if decide (k = k') then (k, v) :: d' else (k', v') :: dict_set k v d'
  end.

(** Iterating over a dictionary yields its keys. *)
Definition dict_keys (d : dict A) : list name := d.*1.

Definition dict_values (d : dict A) : list A := d.*2.
End Dict.

Inductive exn : Type :=
| KeyError (k : name).

Inductive outcome (A : Type) : Type :=
| Ret (x : A)
| Raise (e : exn)
| OutOfFuel.
Arguments Ret {A} x.
Arguments Raise {A} e.
Arguments OutOfFuel {A}.

#[global] Instance outcome_bind : MBind outcome := λ A B f m,
match m with
| Ret x => f x
| Raise e => Raise e
| OutOfFuel => OutOfFuel
end.

(** [d[k]] as a step of a method. *)
Definition subscript {A} (d : dict A) (k : name) : outcome A :=
match dict_get k d with
| Some v => Ret v
| None => Raise (KeyError k)
end.

(** ** The solver *)

Section Solver.
Context {V : Type} `{EqDecision V}.

(** An arc [(i, j)]. *)
Abbreviation arc := (name * name)%type.

(** The working state: the candidate values left for every variable. *)
Abbreviation assignment := (list (name * list V)).

Record CSP : Type := mkCSP {
  variables : list name;
  domains : dict (list V);
  constraints : dict (dict (list (V * V)));
  backtrack_count : Z;
  backtrack_failure_count : Z
}.

(** The calls whose arguments the trace records. *)
Inductive call : Type :=
  | CallBacktrack (a : assignment)
  | CallInference (a : assignment) (queue : list arc)
  | CallRevise (a : assignment) (i j : name).

Definition call_assignment (e : call) : assignment :=
  match e with
  | CallBacktrack a => a
  | CallInference a _ => a
  | CallRevise a _ _ => a
  end.

(** [itertools.product(a, b)], read once by its consumers. *)
Definition get_all_possible_pairs {X Y} (a : list X) (b : list Y) : list (X * Y) :=
  x ← a; y ← b; [(x, y)].

Definition get_all_arcs (c : CSP) : list arc :=
  i ← dict_keys (constraints c);
  j ← dict_keys (default [] (dict_get i (constraints c)));
  [(i, j)].

Definition get_all_neighboring_arcs (c : CSP) (var : name) : outcome (list arc) :=
  row ← subscript (constraints c) var;
  Ret ((λ i, (i, var)) <$> dict_keys row).

(** [l.remove(x)]: the first element equal to [x] goes. *)
Fixpoint py_remove (x : V) (l : list V) : list V :=
  match l with
  | [] => []
  | y :: l' => if decide (x = y) then l' else y :: py_remove x l'
  end.

(** [any(pair in constraints for pair in pairs)] for the pairs of [x]
    with the values of [legal_values_j]. *)
Definition supported (tbl : list (V * V)) (x : V) (legal_values_j : list V) : bool :=
  existsb (λ pair, bool_decide (pair ∈ tbl)) (get_all_possible_pairs [x] legal_values_j).

(** The [for x in legal_values_i] loop of [revise].  A Python list
    iterator is an index into the list, and the body removes from the very
    list it iterates over: [idx] is that index and [legal_values_i] the
    list as it stands.  When [i] and [j] are the same variable,
    [legal_values_j] is the same list object ([same] is set) and follows
    the removals; otherwise it is [other] throughout.  [None] is fuel
    exhaustion. *)
Fixpoint revise_loop (fuel : nat) (tbl : list (V * V)) (same : bool) (other : list V)
    (idx : nat) (legal_values_i : list V) (revised : bool) : option (bool * list V) :=
  match legal_values_i !! idx with
  | None => Some (revised, legal_values_i)
  | Some x =>
      match fuel with
      | O => None
      | S fuel' =>
          let legal_values_j := if same then legal_values_i else other in
          if supported tbl x legal_values_j then
            revise_loop fuel' tbl same other (S idx) legal_values_i revised
          else
            let legal_values_i' := py_remove x legal_values_i in
            match legal_values_i' with
            | [] => Some (true, legal_values_i')
            | _ :: _ => revise_loop fuel' tbl same other (S idx) legal_values_i' true
            end
      end
  end.

(** [revise(assignment, i, j)]: the flag and the assignment as the call
    leaves it (the list of [i] is mutated in place). *)
Definition revise (c : CSP) (a : assignment) (i j : name) : outcome (bool * assignment) :=
  row ← subscript (constraints c) i;
  tbl ← subscript row j;
  legal_values_i ← subscript a i;
  legal_values_j ← subscript a j;
  match revise_loop (length legal_values_i) tbl (bool_decide (i = j)) legal_values_j
          0 legal_values_i false with
  | Some (revised, legal_values_i') => Ret (revised, dict_set i legal_values_i' a)
  | None => OutOfFuel
  end.

(** The [for x_k, _ in self.get_all_neighboring_arcs(x_i)] loop of
    [inference]: [(x_k, x_i)] joins the queue unless [x_k] is [x_j] or the
    arc is already waiting. *)
Fixpoint enqueue_neighbours (arcs : list arc) (x_i x_j : name) (queue : list arc)
    : list arc :=
  match arcs with
  | [] => queue
  | (x_k, _) :: arcs' =>
      if decide (x_k = x_j) then enqueue_neighbours arcs' x_i x_j queue
      else if decide ((x_k, x_i) ∈ queue) then enqueue_neighbours arcs' x_i x_j queue
      else enqueue_neighbours arcs' x_i x_j (queue ++ [(x_k, x_i)])
  end.

(** The [while queue] loop of [inference].  Note [d_i]: it is read from
    [self.domains], the static domains, not from [assignment]. *)
Fixpoint inference_loop (fuel : nat) (c : CSP) (a : assignment) (queue : list arc)
    : outcome (bool * assignment) * list call :=
  match queue with
  | [] => (Ret (true, a), [])
  | (x_i, x_j) :: queue =>
      match fuel with
      | O => (OutOfFuel, [])
      | S fuel' =>
          match revise c a x_i x_j with
          | Ret (true, a') =>
              match subscript (domains c) x_i with
              | Ret [] => (Ret (false, a'), [CallRevise a x_i x_j])
              | Ret (_ :: _) =>
                  match get_all_neighboring_arcs c x_i with
                  | Ret arcs =>
                      let '(r, t) :=
                        inference_loop fuel' c a' (enqueue_neighbours arcs x_i x_j queue) in
                      (r, CallRevise a x_i x_j :: t)
                  | Raise e => (Raise e, [CallRevise a x_i x_j])
                  | OutOfFuel => (OutOfFuel, [CallRevise a x_i x_j])
                  end
              | Raise e => (Raise e, [CallRevise a x_i x_j])
              | OutOfFuel => (OutOfFuel, [CallRevise a x_i x_j])
              end
          | Ret (false, a') =>
              let '(r, t) := inference_loop fuel' c a' queue in
              (r, CallRevise a x_i x_j :: t)
          | Raise e => (Raise e, [CallRevise a x_i x_j])
          | OutOfFuel => (OutOfFuel, [CallRevise a x_i x_j])
          end
      end
  end.

(** The number of values left in an assignment, over all variables. *)
Definition total_size (a : assignment) : nat := sum_list (length <$> dict_values a).

(** Fuel that the loop of [inference] never exhausts: every turn either
    leaves the assignment alone and shortens the queue, or removes a value
    and adds at most one arc per constraint table. *)
Definition inference_fuel (c : CSP) (a : assignment) (queue : list arc) : nat :=
  total_size a * S (length (get_all_arcs c)) + length queue.

(** [inference(assignment, queue)]: the flag, and the assignment as the
    call leaves it. *)
Definition inference (c : CSP) (a : assignment) (queue : list arc)
    : outcome (bool * assignment) * list call :=
  let '(r, t) := inference_loop (inference_fuel c a queue) c a queue in
  (r, CallInference a queue :: t).

(** [min(l, key=key)] of a non-empty list whose head is [best]: the first
    element of least key. *)
Fixpoint py_min (key : name → nat) (best : name) (l : list name) : name :=
  match l with
  | [] => best
  | x :: l' => if decide (key x < key best) then py_min key x l' else py_min key best l'
  end.

Definition select_unassigned_variable (a : assignment) : option name :=
  let unassigned := (filter (λ item, 1 < length item.2) a).*1 in
  match unassigned with
  | [] => None
  | x :: l => Some (py_min (λ key, length (default [] (dict_get key a))) x l)
  end.

Definition incr_backtrack_count (c : CSP) : CSP :=
  mkCSP (variables c) (domains c) (constraints c)
    (backtrack_count c + 1)%Z (backtrack_failure_count c).

Definition incr_backtrack_failure_count (c : CSP) : CSP :=
  mkCSP (variables c) (domains c) (constraints c)
    (backtrack_count c) (backtrack_failure_count c + 1)%Z.

(** What [backtrack] hands back: the result ([None] is Python's [None]),
    the object with its counters, and the calls made. *)
Abbreviation run A := (outcome A * CSP * list call)%type.

(** The [for value in assignment[variable]] loop of [backtrack], over the
    values still to try; [rec] is the recursive call.  Every turn works on
    a copy of [a] with fresh lists, so [a] itself stays as it is.  A result
    is passed up when it is truthy: not [None], and not an empty
    dictionary. *)
Fixpoint for_value (rec : CSP → assignment → run (option assignment))
    (a : assignment) (variable : name) (values : list V) (c : CSP)
    : run (option assignment) :=
  match values with
  | [] => (Ret None, incr_backtrack_failure_count c, [])
  | value :: values' =>
      let copy := dict_set variable [value] a in
      match get_all_neighboring_arcs c variable with
      | Ret neighbours =>
          match inference c copy neighbours with
          | (Ret (true, copy'), t1) =>
              match rec c copy' with
              | (Ret (Some ((_ :: _) as result)), c', t2) =>
                  (Ret (Some result), c', t1 ++ t2)
              | (Ret _, c', t2) =>
                  let '(r, c'', t3) := for_value rec a variable values' c' in
                  (r, c'', t1 ++ t2 ++ t3)
              | (Raise e, c', t2) => (Raise e, c', t1 ++ t2)
              | (OutOfFuel, c', t2) => (OutOfFuel, c', t1 ++ t2)
              end
          | (Ret (false, _), t1) =>
              let '(r, c', t3) := for_value rec a variable values' c in
              (r, c', t1 ++ t3)
          | (Raise e, t1) => (Raise e, c, t1)
          | (OutOfFuel, t1) => (OutOfFuel, c, t1)
          end
      | Raise e => (Raise e, c, [])
      | OutOfFuel => (OutOfFuel, c, [])
      end
  end.

(** [if not variable]: [None] and the empty name are both falsy. *)
Definition truthy_variable (variable : option name) : option name :=
  match variable with
  | Some v => if truthy v then Some v else None
  | None => None
  end.

(** [backtrack(assignment)]; [fuel] bounds the depth of the recursion. *)
Fixpoint backtrack (fuel : nat) (c : CSP) (a : assignment) : run (option assignment) :=
  match fuel with
  | O => (OutOfFuel, c, [CallBacktrack a])
  | S fuel' =>
      let c := incr_backtrack_count c in
      match truthy_variable (select_unassigned_variable a) with
      | None =>
          if existsb (λ values, bool_decide (values = [])) (dict_values a)
          then (Ret None, incr_backtrack_failure_count c, [CallBacktrack a])
          else (Ret (Some a), c, [CallBacktrack a])
      | Some variable =>
          match subscript a variable with
          | Ret values =>
              let '(r, c', t) := for_value (backtrack fuel') a variable values c in
              (r, c', CallBacktrack a :: t)
          | Raise e => (Raise e, c, [CallBacktrack a])
          | OutOfFuel => (OutOfFuel, c, [CallBacktrack a])
          end
      end
  end.

(** Every level of the recursion decides one more variable, so the depth
    stays below the number of values left. *)
Definition backtrack_fuel (a : assignment) : nat := S (total_size a).

(** [backtracking_search()].  [copy.deepcopy(self.domains)] shares no list
    with the object, so the assignment is the static domains as a value and
    the removals of [revise] stay in it.  The flag of the first [inference]
    is dropped, as in the source. *)
Definition backtracking_search (c : CSP) : run (option assignment) :=
  let assignment := domains c in
  match inference c assignment (get_all_arcs c) with
  | (Ret (_, assignment'), t1) =>
      let '(r, c', t2) := backtrack (backtrack_fuel assignment') c assignment' in
      (r, c', t1 ++ t2)
  | (Raise e, t1) => (Raise e, c, t1)
  | (OutOfFuel, t1) => (OutOfFuel, c, t1)
  end.

(** *** Building a graph *)

Definition empty_csp : CSP := mkCSP [] [] [] 0 0.

Definition add_variable (c : CSP) (name : name) (domain : list V) : CSP :=
  mkCSP (variables c ++ [name]) (dict_set name domain (domains c))
    (dict_set name [] (constraints c))
    (backtrack_count c) (backtrack_failure_count c).

Definition add_constraint_one_way (c : CSP) (i j : name) (filter_function : V → V → bool)
    : outcome CSP :=
  row ← subscript (constraints c) i;
  pairs ← match dict_get j row with
          | Some pairs => Ret pairs
          | None =>
              d_i ← subscript (domains c) i;
              d_j ← subscript (domains c) j;
              Ret (get_all_possible_pairs d_i d_j)
          end;
  let pairs' := List.filter (λ value_pair, filter_function value_pair.1 value_pair.2) pairs in
  Ret (mkCSP (variables c) (domains c)
         (dict_set i (dict_set j pairs' row) (constraints c))
         (backtrack_count c) (backtrack_failure_count c)).

Definition add_all_different_constraint (c : CSP) (vars : list name) : outcome CSP :=
  foldl (λ (r : outcome CSP) '(i, j),
           c ← r;
           if decide (i ≠ j)
           then add_constraint_one_way c i j (λ x y, bool_decide (x ≠ y))
           else Ret c)
    (Ret c) (get_all_possible_pairs vars vars).

(** *** Notions the statements use *)

(** An association list stands for a Python dictionary when its keys are
    distinct. *)
Definition is_dict {A} (d : dict A) : Prop := NoDup (dict_keys d).

(** The table stored for the ordered pair [(i, j)], if there is one. *)
Definition table (c : CSP) (i j : name) : option (list (V * V)) :=
  dict_get i (constraints c) ≫= dict_get j.

(** How many times [x] occurs in [l]. *)
Definition occurrences (x : V) (l : list V) : nat := length (filter (x =.) l).

(** [cur] is the working domain of [j] as it stood when [revise] checked
    [x] on its way from the list [l] of [i] to the list [l']: the list of
    [j] the call started with when [j] is another variable ([same] unset),
    and otherwise the list of [i] itself at that moment, between [l] and
    [l'] and holding [x]. *)
Definition at_check (same : bool) (other l l' : list V) (x : V) (cur : list V) : Prop :=
  if same then l' `sublist_of` cur ∧ cur `sublist_of` l ∧ x ∈ cur else cur = other.

(** [a'] has the variables of [a], in the same order, and the working
    domain of each is a subsequence of the one [a] gives it. *)
Definition shrinks (a' a : assignment) : Prop :=
  Forall2 (λ e' e, e'.1 = e.1 ∧ e'.2 `sublist_of` e.2) a' a.

(** Every call of the trace [t] works on [a] or on less. *)
Definition within (a : assignment) (t : list call) : Prop :=
  Forall (λ e, shrinks (call_assignment e) a) t.

(** The call [e'] works on what the call [e] worked on, or on less. *)
Definition narrows (e e' : call) : Prop :=
  shrinks (call_assignment e') (call_assignment e).

(** The object [c'] holds the graph of [c]: the same variables, static
    domains and constraint tables. *)
Definition same_graph (c c' : CSP) : Prop :=
  variables c' = variables c ∧ domains c' = domains c ∧ constraints c' = constraints c.

(** The object [c] with its two counters advanced by [n] and [m]. *)
Definition bump (n m : Z) (c : CSP) : CSP :=
  mkCSP (variables c) (domains c) (constraints c)
    (backtrack_count c + n)%Z (backtrack_failure_count c + m)%Z.

(** The run [r] with the counters of the object it leaves advanced. *)
Definition bump_run {A} (n m : Z) (r : run A) : run A := (r.1.1, bump n m r.1.2, r.2).

(** [c'] is [c] with its counters advanced, by nothing or more. *)
Definition advanced (c c' : CSP) : Prop :=
  same_graph c c'
  ∧ (backtrack_count c ≤ backtrack_count c')%Z
  ∧ (backtrack_failure_count c ≤ backtrack_failure_count c')%Z.

(** Whenever a table is stored for [(i, j)], one is stored for [(j, i)]. *)
Definition mirrored_arcs (c : CSP) : Prop :=
  Forall (λ ij, (ij.2, ij.1) ∈ get_all_arcs c) (get_all_arcs c).

(** [l] holds exactly the pairs [(k, v)] for which a table from [k] to [v]
    is stored. *)
Definition arcs_into (c : CSP) (v : name) (l : list arc) : Prop :=
  ∀ k v', (k, v') ∈ l ↔ v' = v ∧ is_Some (table c k v).

(** [l] holds exactly the pairs [(k, v)] for which a table from [v] to [k]
    is stored. *)
Definition arcs_out_of (c : CSP) (v : name) (l : list arc) : Prop :=
  ∀ k v', (k, v') ∈ l ↔ v' = v ∧ is_Some (table c v k).

(** The tables of the two directions hold the same pairs, swapped. *)
Definition mirrored (c : CSP) : Prop :=
  ∀ i j tbl, table c i j = Some tbl →
    ∃ tbl', table c j i = Some tbl' ∧ ∀ x y, (x, y) ∈ tbl ↔ (y, x) ∈ tbl'.

(** [s] gives every variable one value of its static domain, and every
    stored table holds the pair of values of its two variables. *)
Definition satisfies (c : CSP) (s : dict V) : Prop :=
  dict_keys s = dict_keys (domains c)
  ∧ (∀ v x, dict_get v s = Some x → ∃ d, dict_get v (domains c) = Some d ∧ x ∈ d)
  ∧ (∀ i j tbl x y, table c i j = Some tbl →
       dict_get i s = Some x → dict_get j s = Some y → (x, y) ∈ tbl).

(** The assignment [a] still holds the value [s] gives to each variable. *)
Definition contains (a : assignment) (s : dict V) : Prop :=
  ∀ v x, dict_get v s = Some x → ∃ l, dict_get v a = Some l ∧ x ∈ l.

(** Every value left to [i] has a partner left to [j] under every stored
    table [(i, j)]. *)
Definition arc_consistent (c : CSP) (a : assignment) : Prop :=
  ∀ i j tbl li lj x, table c i j = Some tbl →
    dict_get i a = Some li → dict_get j a = Some lj → x ∈ li →
    ∃ y, y ∈ lj ∧ (x, y) ∈ tbl.

(** Every variable is left with exactly one value. *)
Definition solved (s : assignment) : Prop := Forall (λ e, length e.2 = 1) s.

(** The result of a solve is the failure value or a solved assignment of
    the variables of the graph. *)
Definition solved_or_failure (c : CSP) (r : outcome (option assignment)) : Prop :=
  r = Ret None
  ∨ ∃ s, r = Ret (Some s) ∧ solved s ∧ dict_keys s = dict_keys (domains c).

(** Every variable has its row of tables, and wherever a table is stored
    for [(i, j)] both are variables of the graph and a table is stored for
    [(j, i)] too: what [add_variable] and two-way calls of
    [add_constraint_one_way] build. *)
Definition two_way (c : CSP) : Prop :=
  Forall (λ v, v ∈ dict_keys (constraints c)) (dict_keys (domains c))
  ∧ Forall (λ ij, ij.1 ∈ dict_keys (domains c) ∧ ij.2 ∈ dict_keys (domains c)
                  ∧ (ij.2, ij.1) ∈ get_all_arcs c) (get_all_arcs c).

(** A run that did not raise and, if it returned an assignment, returned
    a solved one. *)
Definition fine {X} (r : outcome (option assignment) * X) : Prop :=
  match r.1 with
  | Ret (Some s) => solved s
  | Raise _ => False
  | _ => True
  end.

(** No variable has a falsy name. *)
Definition names_truthy (c : CSP) : Prop :=
  Forall (λ v, truthy v = true) (dict_keys (domains c)).

(** A two-way graph without falsy names that [s] satisfies. *)
Definition solvable_by (c : CSP) (s : dict V) : Prop :=
  two_way c ∧ names_truthy c ∧ satisfies c s.

(** *** Notions for the builders *)

(** The pairs that [add_constraint_one_way(i, j, ...)] filters: the table
    stored for [(i, j)], and when there is none all the pairs of the two
    static domains. *)
Definition pairs_to_filter (c : CSP) (i j : name) : option (list (V * V)) :=
  match table c i j with
  | Some pairs => Some pairs
  | None =>
      d_i ← dict_get i (domains c);
      d_j ← dict_get j (domains c);
      Some (get_all_possible_pairs d_i d_j)
  end.

(** [add_variable] was called for [v]: it has a static domain and a row of
    tables. *)
Definition registered (c : CSP) (v : name) : Prop :=
  v ∈ dict_keys (domains c) ∧ v ∈ dict_keys (constraints c).

(** What the builders keep: the static domains form a dictionary, no
    variable has a falsy name, tables are stored both ways between variables
    of the graph, and the two tables of a pair hold the same pairs, swapped. *)
Definition well_built (c : CSP) : Prop :=
  is_dict (domains c) ∧ names_truthy c ∧ two_way c ∧ mirrored c.

(** How many calls of [backtrack] the trace [t] records. *)
Definition backtrack_calls (t : list call) : Z :=
  Z.of_nat (length (List.filter (λ e, if e is CallBacktrack _ then true else false) t)).

(** The counters of [c'] are those of [c] moved on by a run that made the
    calls of [t] and ended with [o]: one visit counted for every call of
    [backtrack], at most one failure for every visit, at least one failure
    when the run failed and not as many failures as visits when it
    succeeded. *)
Definition tallied {A} (c : CSP) (o : outcome (option A)) (c' : CSP) (t : list call) : Prop :=
  (backtrack_count c' = backtrack_count c + backtrack_calls t
   ∧ backtrack_failure_count c ≤ backtrack_failure_count c'
   ∧ backtrack_failure_count c' ≤ backtrack_failure_count c + backtrack_calls t
   ∧ (o = Ret None → backtrack_failure_count c < backtrack_failure_count c')
   ∧ (∀ s, o = Ret (Some s) →
        backtrack_failure_count c' < backtrack_failure_count c + backtrack_calls t))%Z.

(** No two values in a row of [l] are both rejected by [keep]. *)
Fixpoint spaced (keep : V → bool) (l : list V) : Prop :=
  match l with
  | x :: l' =>
      match l' with
      | y :: _ => (keep x = true ∨ keep y = true) ∧ spaced keep l'
      | [] => True
      end
  | [] => True
  end.

(** The arc [(i, j)] is consistent in [a]: every value left to [i] has a
    partner left to [j] in the table of [(i, j)], when there is one. *)
Definition consistent_arc (c : CSP) (a : assignment) (i j : name) : Prop :=
  ∀ tbl li lj, table c i j = Some tbl →
    dict_get i a = Some li → dict_get j a = Some lj →
    ∀ x, x ∈ li → supported tbl x lj = true.

(** Some variable of [a] has no value left. *)
Definition dead (a : assignment) : Prop := ∃ v, dict_get v a = Some [].

(** A graph on which the loop of [revise] never meets two values in a row
    without a partner, as long as the other variable has a value left: no
    variable has a table with itself, and whatever is left of two static
    domains, the values of the one without a partner in the other never
    come two in a row. *)
Definition gentle (c : CSP) : Prop :=
  ∀ i j tbl d_i d_j, table c i j = Some tbl →
    dict_get i (domains c) = Some d_i → dict_get j (domains c) = Some d_j →
    i ≠ j
    ∧ ∀ li lj, li `sublist_of` d_i → lj `sublist_of` d_j → lj ≠ [] →
        spaced (λ x, supported tbl x lj) li.

(** Every arc that has a table is waiting in [queue] or consistent in [a],
    unless [a] is dead. *)
Definition propagated (c : CSP) (a : assignment) (queue : list arc) : Prop :=
  dead a ∨ ∀ i j, is_Some (table c i j) → (i, j) ∈ queue ∨ consistent_arc c a i j.

(** Wherever [s] gives one value to each of two variables that have a
    table, the table holds the pair. *)
Definition picks_legal_pairs (c : CSP) (s : assignment) : Prop :=
  ∀ i j tbl x y, table c i j = Some tbl →
    dict_get i s = Some [x] → dict_get j s = Some [y] → (x, y) ∈ tbl.

(** What is left in [s] is part of the static domains, no variable is
    without a value, and every arc is consistent. *)
Definition settled (c : CSP) (s : assignment) : Prop :=
  shrinks s (domains c) ∧ ¬ dead s ∧ ∀ i j, consistent_arc c s i j.

(** Every value that [a0] holds for a variable, [a] holds for it too. *)
Definition part_of (a0 a : assignment) : Prop :=
  dict_keys a0 = dict_keys a
  ∧ ∀ v l0 x, dict_get v a0 = Some l0 → x ∈ l0 → ∃ l, dict_get v a = Some l ∧ x ∈ l.

(** The value each variable is left with in a solved assignment. *)
Definition chosen (s : assignment) : dict V :=
  e ← s; if e.2 is [x] then [(e.1, x)] else [].

(** A graph of all-different constraints: static domains without repeated
    values, no table from a variable to itself, and every table holds the
    pairs of different values of the two static domains. *)
Definition difference_graph (c : CSP) : Prop :=
  Forall (λ e, NoDup e.2) (domains c)
  ∧ ∀ i j tbl, table c i j = Some tbl →
      i ≠ j
      ∧ ∃ d_i d_j, dict_get i (domains c) = Some d_i ∧ dict_get j (domains c) = Some d_j
                   ∧ ∀ x y, (x, y) ∈ tbl ↔ x ∈ d_i ∧ y ∈ d_j ∧ x ≠ y.

(** The table of an all-different constraint between [i] and [j]: the
    pairs of different values of the two static domains, in the order of
    [get_all_possible_pairs]. *)
Definition full_table (c : CSP) (i j : name) : option (list (V * V)) :=
  d_i ← dict_get i (domains c);
  d_j ← dict_get j (domains c);
  Some (List.filter (λ p, bool_decide (p.1 ≠ p.2)) (get_all_possible_pairs d_i d_j)).

(** The tables of [c] are those of all-different constraints, stored for
    the ordered pairs that [linked] accepts and for no other. *)
Definition linked_by (c : CSP) (linked : name → name → bool) : Prop :=
  ∀ i j, table c i j = if linked i j then full_table c i j else None.

(** [i] and [j] are different names of one list of [groups]. *)
Definition share_group (groups : list (list name)) (i j : name) : bool :=
  bool_decide (i ≠ j ∧ Exists (λ g, i ∈ g ∧ j ∈ g) groups).

(** The filter of an all-different constraint. *)
Definition unequal (x y : V) : bool := bool_decide (x ≠ y).

End Solver.

Arguments CSP V : clear implicits.
Arguments call V : clear implicits.

Abbreviation arc := (name * name)%type.
Abbreviation assignment V := (list (name * list V)).
Abbreviation run V A := (outcome A * CSP V * list (call V))%type.

(** ** Small graphs *)

Module Graphs.
Local Open Scope string_scope.
Local Open Scope Z_scope.

(** [add_constraint_one_way] both ways, as the instance builders call it. *)
Definition add_constraint (c : CSP Z) (i j : name) (f : Z → Z → bool) : outcome (CSP Z) :=
  c ← add_constraint_one_way c i j f;
  add_constraint_one_way c j i (λ x y, f y x).

Definition two_variables (d_a d_b : list Z) : CSP Z :=
  add_variable (add_variable empty_csp "a" d_a) "b" d_b.

(** [a] in [1, 2], [b] in [5, 6], and [a == b]: no solution. *)
Definition equal_apart : CSP Z :=
  mkCSP ["a"; "b"] [("a", [1; 2]); ("b", [5; 6])]
    [("a", [("b", [])]); ("b", [("a", [])])] 0 0.

(** [a] in [1, 2, 3], [b] in [3], and [a == b]: one solution. *)
Definition equal_three : CSP Z :=
  mkCSP ["a"; "b"] [("a", [1; 2; 3]); ("b", [3])]
    [("a", [("b", [(3, 3)])]); ("b", [("a", [(3, 3)])])] 0 0.

(** [a] and [b] both in [1], and [a != b]: no solution. *)
Definition both_one : CSP Z :=
  mkCSP ["a"; "b"] [("a", [1]); ("b", [1])]
    [("a", [("b", [])]); ("b", [("a", [])])] 0 0.

(** [a] in [1], [b] in [2], and [a != b]: solved as it stands. *)
Definition one_and_two : CSP Z :=
  mkCSP ["a"; "b"] [("a", [1]); ("b", [2])]
    [("a", [("b", [(1, 2)])]); ("b", [("a", [(2, 1)])])] 0 0.

(** [a] in [1, 2, 3], [b] in [1, 2], and [a != b]. *)
Definition different : CSP Z :=
  mkCSP ["a"; "b"] [("a", [1; 2; 3]); ("b", [1; 2])]
    [("a", [("b", [(1, 2); (2, 1); (3, 1); (3, 2)])]);
     ("b", [("a", [(1, 2); (1, 3); (2, 1); (2, 3)])])] 0 0.

(** [a != b], added from [a] to [b] only. *)
Definition one_way : CSP Z :=
  mkCSP ["a"; "b"] [("a", [1; 2]); ("b", [1])]
    [("a", [("b", [(2, 1)])]); ("b", [])] 0 0.

(** [a != b] and [a != c], both added from [a] only. *)
Definition one_way_three : CSP Z :=
  mkCSP ["a"; "b"; "c"] [("a", [1; 2]); ("b", [1]); ("c", [1])]
    [("a", [("b", [(2, 1)]); ("c", [(2, 1)])]); ("b", []); ("c", [])] 0 0.

(** A single variable, named by the empty string. *)
Definition nameless : CSP Z :=
  mkCSP [EmptyString] [(EmptyString, [1; 2])] [(EmptyString, [])] 0 0.

Definition differ (x y : Z) : bool := negb (x =? y).
End Graphs.

(** ** The instance builders *)

(** [create_map_coloring_csp()]: values are the names of the colours. *)
Module Map_coloring.
Local Open Scope string_scope.

Definition states : list name := ["WA"; "NT"; "Q"; "NSW"; "V"; "SA"; "T"].

Definition edges : dict (list name) :=
  [("SA", ["WA"; "NT"; "Q"; "NSW"; "V"]); ("NT", ["WA"; "Q"]); ("NSW", ["Q"; "V"])].

Definition colors : list string := ["red"; "green"; "blue"].

Definition create_map_coloring_csp : outcome (CSP string) :=
  let csp := foldl (λ csp state, add_variable csp state colors) empty_csp states in
  foldl (λ r '(state, other_states),
           foldl (λ (r : outcome (CSP string)) other_state,
                    csp ← r;
                    csp ← add_constraint_one_way csp state other_state
                            (λ i j, bool_decide (i ≠ j));
                    add_constraint_one_way csp other_state state
                      (λ i j, bool_decide (i ≠ j)))
             r other_states)
    (Ret csp) edges.

(** The ordered pairs of neighbouring states. *)
Definition adjacent (i j : name) : bool :=
  bool_decide (Exists (λ e, (i = e.1 ∧ j ∈ e.2) ∨ (j = e.1 ∧ i ∈ e.2)) edges).
End Map_coloring.

(** [create_sudoku_csp(filename)], from the list [board] of the stripped
    lines of the file on: opening and reading the file is left out.  Values
    are strings of one character, a character being one of Rocq's, that is
    a byte. *)
Module Sudoku.
Local Open Scope string_scope.

(** The exception of [board[row][col]] on a board with too few lines or
    too short a line. *)
Inductive index_error : Type := IndexError.

(** ['%d-%d' % (row, col)]. *)
Definition cell_name (row col : nat) : name := pretty row +:+ "-" +:+ pretty col.

(** [list(map(str, range(1, 10)))]. *)
Definition digits : list string := pretty <$> seq 1 9.

(** [board[row][col]]. *)
Definition board_at (board : list string) (row col : nat) : index_error + string :=
  match board !! row with
  | Some line =>
      match String.get col line with
      | Some ch => inr (String ch EmptyString)
      | None => inl IndexError
      end
  | None => inl IndexError
  end.

(** The body of the first two loops: one variable for the cell, with all
    digits for a ['0'] and the given character otherwise.  The source reads
    [board[row][col]] for the test and again for the domain; the board
    does not change in between, so it is read once here. *)
Definition add_cell (board : list string) (r : index_error + CSP string) (row col : nat)
    : index_error + CSP string :=
  match r with
  | inr csp =>
      match board_at board row col with
      | inr ch =>
          inr (add_variable csp (cell_name row col)
                 (if decide (ch = "0") then digits else [ch]))
      | inl e => inl e
      end
  | inl e => inl e
  end.

(** The cells of a box. *)
Definition box_cells (box_row box_col : nat) : list name :=
  row ← seq (box_row * 3) 3; col ← seq (box_col * 3) 3; [cell_name row col].

Definition create_sudoku_csp (board : list string) : index_error + outcome (CSP string) :=
  let r := foldl (λ r row, foldl (λ r col, add_cell board r row col) r (seq 0 9))
             (inr empty_csp) (seq 0 9) in
  match r with
  | inr csp =>
      let r := foldl (λ (r : outcome (CSP string)) row,
                        csp ← r;
                        add_all_different_constraint csp
                          ((λ col, cell_name row col) <$> seq 0 9))
                 (Ret csp) (seq 0 9) in
      let r := foldl (λ (r : outcome (CSP string)) col,
                        csp ← r;
                        add_all_different_constraint csp
                          ((λ row, cell_name row col) <$> seq 0 9))
                 r (seq 0 9) in
      inr (foldl (λ r box_row,
                    foldl (λ (r : outcome (CSP string)) box_col,
                             csp ← r;
                             add_all_different_constraint csp (box_cells box_row box_col))
                      r (seq 0 3))
             r (seq 0 3))
  | inl e => inl e
  end.

(** *** Notions for the statements *)

(** A board to try the statements on. *)
Definition puzzle : list string :=
  ["530070000"; "600195000"; "098000060"; "800060003"; "400803001";
   "700020006"; "060000280"; "000419005"; "000080079"].

(** The board has nine lines of nine characters, or more. *)
Definition readable (board : list string) : Prop :=
  (9 ≤ length board)%nat ∧ Forall (λ line, (9 ≤ String.length line)%nat) (take 9 board).

(** The cells, row by row. *)
Definition cells : list (nat * nat) := row ← seq 0 9; col ← seq 0 9; [(row, col)].

(** The values a cell may take: all digits for a ['0'], the given character
    otherwise. *)
Definition cell_domain (board : list string) (row col : nat) : list string :=
  match board_at board row col with
  | inr ch => if decide (ch = "0") then digits else [ch]
  | inl _ => []
  end.

(** The rows, the columns and the boxes, in the order of the loops. *)
Definition groups : list (list name) :=
  ((λ row, (λ col, cell_name row col) <$> seq 0 9) <$> seq 0 9)
  ++ ((λ col, (λ row, cell_name row col) <$> seq 0 9) <$> seq 0 9)
  ++ (box_row ← seq 0 3; box_col ← seq 0 3; [box_cells box_row box_col]).

(** [sol] fills the board: a value of its domain for every cell, and
    different values for two cells of one row, column or box. *)
Definition fills (board : list string) (sol : dict string) : Prop :=
  dict_keys sol = (λ rc, cell_name rc.1 rc.2) <$> cells
  ∧ (∀ row col x, (row, col) ∈ cells → dict_get (cell_name row col) sol = Some x →
       x ∈ cell_domain board row col)
  ∧ (∀ i j x y, share_group groups i j = true →
       dict_get i sol = Some x → dict_get j sol = Some y → x ≠ y).
End Sudoku.

(** [format_board(board)] and [print_sudoku_solution(file, solution)], the
    latter from the stripped lines of the file on; what it prints is the
    list of the lines passed to [print]. *)
Module Printing.
Import Sudoku.
Local Open Scope string_scope.

(** What a board holds for a cell: the string [" "] for an empty cell of
    the puzzle, a list of strings otherwise. *)
Inductive entry : Type :=
  | Text (s : string)
  | Items (l : list string).

(** The exceptions of the two functions: [KeyError], [IndexError], and the
    [TypeError] of subscripting [None]. *)
Inductive error : Type :=
  | Key_error (k : name)
  | Index_error
  | Type_error.

(** [x[0]]. *)
Definition first_item (x : entry) : error + string :=
  match x with
  | Text EmptyString => inl Index_error
  | Text (String ch _) => inr (String ch EmptyString)
  | Items [] => inl Index_error
  | Items (item :: _) => inr item
  end.

(** [board[k][0]]; [board] is [None] when it is the result of a search
    that failed. *)
Definition item_at (board : option (dict entry)) (k : name) : error + string :=
  match board with
  | None => inl Type_error
  | Some d =>
      match dict_get k d with
      | Some x => first_item x
      | None => inl (Key_error k)
      end
  end.

(** The inner loop of [format_board]: the line of [row]. *)
Definition format_line (board : option (dict entry)) (row : nat) : error + string :=
  foldl (λ r col,
           match r with
           | inr line =>
               match item_at board (cell_name row col) with
               | inr item =>
                   let line := line +:+ (item +:+ " ") in
                   inr (if decide (col = 2 ∨ col = 5) then line +:+ "| " else line)
               | inl e => inl e
               end
           | inl e => inl e
           end)
    (inr EmptyString) (seq 0 9).

Definition format_board (board : option (dict entry)) : error + list string :=
  foldl (λ (r : error + list string) row,
           match r with
           | inr lines =>
               match format_line board row with
               | inr line =>
                   let lines := (lines ++ [line])%list in
                   inr (if decide (row = 2 ∨ row = 5)
                        then (lines ++ ["------+-------+------"])%list
                        else lines)
               | inl e => inl e
               end
           | inl e => inl e
           end)
    (inr []) (seq 0 9).





(** What [base] holds for a cell. *)
Definition base_entry (board : list string) (row col : nat) : entry :=
  match board_at board row col with
  | inr ch => if decide (ch = "0") then Text " " else Items [ch]
  | inl _ => Text EmptyString
  end.


End Printing.

(** * Properties *)

Section Dict_facts.
Context {A : Type}.
Implicit Types (d : dict A) (k : name) (v : A).

Lemma dict_get_is_Some d k : is_Some (dict_get k d) ↔ k ∈ dict_keys d.
Proof.
  unfold dict_keys. induction d as [|[k' v'] d IH]; simpl.
  - split; [intros [? ?]; done | intros ?%elem_of_nil; done].
  - case_decide; subst.
    + split; [intros _; left | eauto].
    + rewrite IH, elem_of_cons. naive_solver.
Qed.

Lemma dict_get_elem d k v : is_dict d → (k, v) ∈ d → dict_get k d = Some v.
Proof.
  unfold is_dict, dict_keys. induction d as [|[k' v'] d IH]; simpl.
  - intros _ ?%elem_of_nil. done.
  - intros [Hk Hd]%NoDup_cons [?|Hin]%elem_of_cons; simplify_eq.
    + by rewrite decide_True.
    + rewrite decide_False; [auto|]. intros ->. apply Hk.
      apply list_elem_of_fmap. by exists (k', v).
Qed.

Lemma dict_keys_set d k v : k ∈ dict_keys d → dict_keys (dict_set k v d) = dict_keys d.
Proof.
  unfold dict_keys. induction d as [|[k' v'] d IH]; simpl.
  - intros ?%elem_of_nil. done.
  - case_decide; subst; simpl; [done|].
    intros [?|?]%elem_of_cons; [done|]. f_equal. auto.
Qed.

Lemma dict_get_set d k k' v :
  dict_get k' (dict_set k v d) = if decide (k' = k) then Some v else dict_get k' d.
Proof.
  induction d as [|[k0 v0] d IH]; simpl.
  - repeat case_decide; congruence.
  - destruct (decide (k = k0)), (decide (k' = k)), (decide (k' = k0));
      simpl; rewrite ?decide_True, ?decide_False by congruence; congruence.
Qed.

Lemma dict_set_get d k v : dict_get k d = Some v → dict_set k v d = d.
Proof.
  induction d as [|[k' v'] d IH]; simpl; [done|].
  case_decide; intros ?; simplify_eq; [done|]. f_equal. auto.
Qed.
End Dict_facts.

Section Revise_facts.
Context {V : Type} `{EqDecision V}.
Implicit Types (x y : V) (l : list V) (tbl : list (V * V)) (a : list (name * list V)).

Lemma py_remove_sublist x l : py_remove x l `sublist_of` l.
Proof.
  induction l as [|y l IH]; simpl; [done|].
  case_decide; [by apply sublist_cons | by apply sublist_skip].
Qed.

Lemma py_remove_length x l : x ∈ l → S (length (py_remove x l)) = length l.
Proof.
  induction l as [|y l IH]; simpl; [intros ?%elem_of_nil; done|].
  case_decide; [done|]. intros [?|?]%elem_of_cons; [done|]. simpl. auto.
Qed.

Lemma occurrences_cons x y l :
  occurrences x (y :: l) = (if decide (x = y) then 1 else 0) + occurrences x l.
Proof. unfold occurrences. rewrite filter_cons. by case_decide. Qed.

Lemma occurrences_py_remove_ne x y l : x ≠ y → occurrences y (py_remove x l) = occurrences y l.
Proof.
  intros Hne. induction l as [|z l IH]; simpl; [done|].
  case_decide; subst.
  - rewrite occurrences_cons, decide_False by done. done.
  - rewrite !occurrences_cons, IH. done.
Qed.

Lemma occurrences_sublist x l1 l2 : l1 `sublist_of` l2 → occurrences x l1 ≤ occurrences x l2.
Proof.
  induction 1; [done| |]; rewrite ?occurrences_cons; lia.
Qed.

Lemma supported_true tbl x l : supported tbl x l = true ↔ ∃ y, y ∈ l ∧ (x, y) ∈ tbl.
Proof.
  unfold supported, get_all_possible_pairs. rewrite existsb_exists. split.
  - intros ([x' y] & Hin%list_elem_of_In & Hd%bool_decide_eq_true).
    apply list_elem_of_bind in Hin as (x0 & Hin & ->%list_elem_of_singleton).
    apply list_elem_of_bind in Hin as (y0 & ?%list_elem_of_singleton & ?).
    simplify_eq. eauto.
  - intros (y & Hy & Hxy). exists (x, y). split; [|by apply bool_decide_eq_true].
    apply list_elem_of_In, list_elem_of_bind. exists x. split; [|by left].
    apply list_elem_of_bind. exists y. split; [by left | done].
Qed.

Lemma supported_false tbl x l : supported tbl x l = false ↔ ∀ y, y ∈ l → (x, y) ∉ tbl.
Proof.
  rewrite <-not_true_iff_false, supported_true. naive_solver.
Qed.

(** What one run of the loop of [revise] does to the list of [i]. *)
Lemma revise_loop_spec n tbl same other idx l revised b l' :
  revise_loop n tbl same other idx l revised = Some (b, l') →
  l' `sublist_of` l
  ∧ (b = false → l' = l ∧ revised = false)
  ∧ (b = true → revised = false → length l' < length l)
  ∧ (∀ x, occurrences x l' < occurrences x l →
       ∃ cur, at_check same other l l' x cur ∧ supported tbl x cur = false).
Proof.
  revert idx l revised.
  induction n as [|n IH]; intros idx l revised; simpl;
    destruct (l !! idx) as [x|] eqn:Hx.
  - done.
  - intros ?; simplify_eq. split_and!; [done|done|congruence|lia].
  - destruct (supported tbl x (if same then l else other)) eqn:Hsup; [by apply IH|].
    assert (x ∈ l) as Hin by (by eapply list_elem_of_lookup_2).
    pose proof (py_remove_sublist x l) as Hsub.
    pose proof (py_remove_length x l Hin) as Hlen.
    assert (∀ y l', l' `sublist_of` py_remove x l →
      occurrences y (py_remove x l) < occurrences y l →
      ∃ cur, at_check same other l l' y cur ∧ supported tbl y cur = false) as Hhere.
    { intros y l0 Hl0 Hy. destruct (decide (x = y)) as [<-|Hne].
      - exists (if same then l else other). split; [|done]. unfold at_check.
        destruct same; [|done]. split_and!; [by etrans|done|done].
      - rewrite occurrences_py_remove_ne in Hy by done. lia. }
    destruct (py_remove x l) as [|z l1] eqn:Hrem.
    + intros ?; simplify_eq. split_and!; [done|done|simpl in *; lia|].
      intros y Hy. by apply Hhere.
    + intros (Hs & Hf & Ht & Hocc)%IH. split_and!.
      * by etrans.
      * intros ->. by destruct Hf.
      * intros _ _. apply sublist_length in Hs. simpl in *. lia.
      * intros y Hy.
        destruct (decide (occurrences y l' < occurrences y (z :: l1))) as [Hlt|Hge].
        -- destruct (Hocc y Hlt) as (cur & Hcur & ?). exists cur. split; [|done].
           unfold at_check in *. destruct same; [|done].
           destruct Hcur as (? & ? & ?). split_and!; [done | by etrans | done].
        -- apply Hhere; [done|lia].
  - intros ?; simplify_eq. split_and!; [done|done|congruence|lia].
Qed.

(** The fuel [revise] passes is enough. *)
Lemma revise_loop_fuel n tbl same other idx l revised :
  length l - idx ≤ n → is_Some (revise_loop n tbl same other idx l revised).
Proof.
  revert idx l revised.
  induction n as [|n IH]; intros idx l revised Hn; simpl;
    destruct (l !! idx) as [x|] eqn:Hx; try done.
  - apply lookup_lt_Some in Hx. lia.
  - assert (x ∈ l) as Hin by (by eapply list_elem_of_lookup_2).
    pose proof (py_remove_length x l Hin) as Hlen.
    apply lookup_lt_Some in Hx.
    destruct (supported _ _ _); [apply IH; lia|].
    destruct (py_remove x l) eqn:Hrem; [done|]. apply IH. simpl in *. lia.
Qed.

(** The successful runs of [revise], taken apart. *)
Lemma revise_Ret c a i j b a' :
  revise c a i j = Ret (b, a') ↔
  ∃ tbl li lj li',
    table c i j = Some tbl ∧ dict_get i a = Some li ∧ dict_get j a = Some lj
    ∧ revise_loop (length li) tbl (bool_decide (i = j)) lj 0 li false = Some (b, li')
    ∧ a' = dict_set i li' a.
Proof.
  unfold revise, table, subscript.
  destruct (dict_get i (constraints c)) as [row|]; simpl; [|naive_solver].
  destruct (dict_get j row) as [tbl|]; simpl; [|naive_solver].
  destruct (dict_get i a) as [li|]; simpl; [|naive_solver].
  destruct (dict_get j a) as [lj|]; simpl; [|naive_solver].
  split.
  - destruct (revise_loop _ _ _ _ _ _ _) as [[b0 li']|] eqn:Hloop;
      intros ?; simplify_eq. eauto 10.
  - intros (tbl0 & li0 & lj0 & li' & ? & ? & ? & Hloop & ->); simplify_eq.
    by rewrite Hloop.
Qed.

Lemma revise_not_OutOfFuel c a i j : revise c a i j ≠ OutOfFuel.
Proof.
  unfold revise, subscript.
  destruct (dict_get i (constraints c)) as [row|]; simpl; [|done].
  destruct (dict_get j row) as [tbl|]; simpl; [|done].
  destruct (dict_get i a) as [li|]; simpl; [|done].
  destruct (dict_get j a) as [lj|]; simpl; [|done].
  destruct (revise_loop_fuel (length li) tbl (bool_decide (i = j)) lj 0 li false)
    as [[b li'] ->]; [lia|done].
Qed.
End Revise_facts.

Section Shrinks_facts.
Context {V : Type} `{EqDecision V}.
Implicit Types (a : list (name * list V)) (l : list V).

#[global] Instance shrinks_refl : Reflexive (@shrinks V).
Proof. intros a. apply Forall2_same_length_lookup_2; [done|]. naive_solver. Qed.

#[global] Instance shrinks_trans : Transitive (@shrinks V).
Proof.
  intros a1 a2 a3 H12 H23. eapply Forall2_trans; [|done..].
  intros ??? [-> ?] [-> ?]. split; [done | by etrans].
Qed.

Lemma shrinks_keys a' a : shrinks a' a → dict_keys a' = dict_keys a.
Proof.
  unfold dict_keys. induction 1 as [|[??] [??] ?? [??]]; csimpl in *; congruence.
Qed.

Lemma shrinks_is_dict a' a : shrinks a' a → is_dict a → is_dict a'.
Proof. unfold is_dict. by intros ->%shrinks_keys. Qed.

Lemma shrinks_total_size a' a : shrinks a' a → total_size a' ≤ total_size a.
Proof.
  unfold total_size, dict_values.
  induction 1 as [|[??] [??] ?? [? ?%sublist_length]]; csimpl in *; lia.
Qed.

Lemma shrinks_dict_set a k l l' :
  dict_get k a = Some l → l' `sublist_of` l → shrinks (dict_set k l' a) a.
Proof.
  intros Hget Hsub. induction a as [|[k1 l1] a IH]; simpl in *; [done|].
  case_decide; simplify_eq.
  - constructor; [done|]. apply shrinks_refl.
  - constructor; [done|]. by apply IH.
Qed.

Lemma total_size_dict_set a k l l' :
  dict_get k a = Some l →
  total_size (dict_set k l' a) + length l = total_size a + length l'.
Proof.
  unfold total_size, dict_values.
  induction a as [|[k1 l1] a IH]; simpl; [done|].
  case_decide; intros Hget; simplify_eq; csimpl; [lia|].
  specialize (IH Hget). lia.
Qed.

Lemma within_shrinks a a' (t : list (call V)) : within a' t → shrinks a' a → within a t.
Proof.
  unfold within. intros Ht Ha. eapply Forall_impl; [done|].
  intros e He. simpl in He. by etrans.
Qed.

Lemma within_cons a e (t : list (call V)) :
  within a (e :: t) ↔ shrinks (call_assignment e) a ∧ within a t.
Proof. unfold within. by rewrite Forall_cons. Qed.

Lemma within_app a (t1 t2 : list (call V)) : within a (t1 ++ t2) ↔ within a t1 ∧ within a t2.
Proof. unfold within. by rewrite Forall_app. Qed.

Lemma within_nil a : within a ([] : list (call V)).
Proof. constructor. Qed.

Lemma revise_shrinks c a i j b a' : revise c a i j = Ret (b, a') → shrinks a' a.
Proof.
  intros (tbl & li & lj & li' & _ & Hi & _ & Hloop & ->)%revise_Ret.
  apply revise_loop_spec in Hloop as (? & _). by eapply shrinks_dict_set.
Qed.

Lemma revise_false c a i j a' : revise c a i j = Ret (false, a') → a' = a.
Proof.
  intros (tbl & li & lj & li' & _ & Hi & _ & Hloop & ->)%revise_Ret.
  apply revise_loop_spec in Hloop as (_ & Hf & _). destruct Hf as [-> _]; [done|].
  by apply dict_set_get.
Qed.

Lemma revise_true c a i j a' :
  revise c a i j = Ret (true, a') → total_size a' < total_size a.
Proof.
  intros (tbl & li & lj & li' & _ & Hi & _ & Hloop & ->)%revise_Ret.
  apply revise_loop_spec in Hloop as (_ & _ & Ht & _). specialize (Ht eq_refl eq_refl).
  pose proof (total_size_dict_set a i li li' Hi). lia.
Qed.
End Shrinks_facts.

Section Inference_facts.
Context {V : Type} `{EqDecision V}.
Implicit Types (c : CSP V) (a : list (name * list V)) (queue : list (name * name)).

(** Takes one turn of the loop of [inference] apart. *)
Ltac inference_turn n c a x_i x_j Hrev :=
  destruct (revise c a x_i x_j) as [[[] ?a]| |] eqn:Hrev; simpl;
  [ destruct (subscript (domains c) x_i) as [[|??]| |] eqn:?Hdom; simpl;
    [ | destruct (get_all_neighboring_arcs c x_i) as [?arcs| |] eqn:?Harcs; simpl;
        [ destruct (inference_loop n c _ _) as [?r ?t] eqn:?Hloop; simpl | .. ]
      | .. ]
  | destruct (inference_loop n c _ _) as [?r ?t] eqn:?Hloop; simpl
  | .. ].

Lemma inference_loop_shrinks fuel c a queue :
  within a (inference_loop fuel c a queue).2
  ∧ match (inference_loop fuel c a queue).1 with
    | Ret (_, a') => shrinks a' a
    | _ => True
    end.
Proof.
  revert a queue. induction fuel as [|n IH]; intros a [|[x_i x_j] queue]; simpl;
    try (split; [by constructor | done]).
  inference_turn n c a x_i x_j Hrev;
    try (split; [by repeat constructor | done]);
    try (apply revise_shrinks in Hrev; split; [by repeat constructor | done]).
  all: apply revise_shrinks in Hrev.
  all: match goal with H : inference_loop _ _ ?a' ?q = _ |- _ =>
         destruct (IH a' q) as [Ht Hr]; rewrite H in Ht, Hr; simpl in * end.
  all: split; [apply within_cons; split; [done | by eapply within_shrinks]|].
  all: destruct r as [[??]| |]; [by etrans|done..].
Qed.

(** The calls of one [inference] work on ever smaller domains. *)
Lemma inference_loop_descending fuel c a queue :
  StronglySorted narrows (inference_loop fuel c a queue).2.
Proof.
  revert a queue. induction fuel as [|n IH]; intros a [|[x_i x_j] queue]; simpl;
    try by constructor.
  inference_turn n c a x_i x_j Hrev; try by repeat constructor.
  all: apply revise_shrinks in Hrev.
  all: match goal with H : inference_loop ?n _ ?a' ?q = _ |- _ =>
         pose proof (IH a' q) as Hs;
         destruct (inference_loop_shrinks n c a' q) as [Ht _];
         rewrite H in Hs, Ht; simpl in * end.
  all: constructor; [done|]; by eapply (within_shrinks a).
Qed.

Lemma enqueue_neighbours_length arcs x_i x_j queue :
  length (enqueue_neighbours arcs x_i x_j queue) ≤ length queue + length arcs.
Proof.
  revert queue. induction arcs as [|[x_k ?] arcs IH]; intros queue; simpl; [lia|].
  repeat case_decide; try (etrans; [apply IH|]); rewrite ?length_app; simpl; lia.
Qed.

Lemma bind_length_elem {A B} (f : A → list B) (l : list A) x :
  x ∈ l → length (f x) ≤ length (l ≫= f).
Proof.
  induction 1; csimpl; rewrite length_app; lia.
Qed.

Lemma neighbouring_arcs_length c var arcs :
  get_all_neighboring_arcs c var = Ret arcs → length arcs ≤ length (get_all_arcs c).
Proof.
  unfold get_all_neighboring_arcs, subscript.
  destruct (dict_get var (constraints c)) as [row|] eqn:Hrow; simpl; [|done].
  intros ?; simplify_eq. rewrite length_fmap. unfold get_all_arcs.
  etrans; [|apply (bind_length_elem _ _ var)].
  - simpl. rewrite Hrow. simpl. clear. induction (dict_keys row); csimpl; lia.
  - apply dict_get_is_Some. eauto.
Qed.

(** The loop of [inference] comes to an end: fuel above [inference_fuel]
    never runs out. *)
Lemma inference_loop_terminates fuel c a queue :
  inference_fuel c a queue ≤ fuel → (inference_loop fuel c a queue).1 ≠ OutOfFuel.
Proof.
  unfold inference_fuel. revert a queue.
  induction fuel as [|n IH]; intros a [|[x_i x_j] queue]; simpl; try done; [lia|].
  intros Hfuel.
  pose proof (revise_not_OutOfFuel c a x_i x_j) as Hno.
  inference_turn n c a x_i x_j Hrev; try done.
  - apply revise_true in Hrev. apply neighbouring_arcs_length in Harcs.
    match goal with H : inference_loop n c ?a' ?q = _ |- _ =>
      pose proof (IH a' q) as Hs; rewrite H in Hs; simpl in *; apply Hs end.
    pose proof (enqueue_neighbours_length arcs x_i x_j queue). nia.
  - unfold get_all_neighboring_arcs, subscript in *.
    destruct (dict_get x_i (constraints c)); done.
  - unfold subscript in *. destruct (dict_get x_i (domains c)); done.
  - apply revise_false in Hrev as ->.
    match goal with H : inference_loop n c ?a' ?q = _ |- _ =>
      pose proof (IH a' q) as Hs; rewrite H in Hs; simpl in *; apply Hs end.
    lia.
Qed.
End Inference_facts.

Section Backtrack_facts.
Context {V : Type} `{EqDecision V}.
Implicit Types (c : CSP V) (a : list (name * list V)) (queue : list (name * name)).
Implicit Types (rec : CSP V → assignment V → run V (option (assignment V))).

Lemma inference_shrinks c a queue :
  within a (inference c a queue).2
  ∧ match (inference c a queue).1 with
    | Ret (_, a') => shrinks a' a
    | _ => True
    end.
Proof.
  unfold inference.
  destruct (inference_loop_shrinks (inference_fuel c a queue) c a queue) as [Ht Hr].
  destruct (inference_loop _ _ _ _) as [r t]; simpl in *.
  split; [|done]. by apply within_cons.
Qed.

Lemma inference_terminates c a queue : (inference c a queue).1 ≠ OutOfFuel.
Proof.
  unfold inference.
  pose proof (inference_loop_terminates (inference_fuel c a queue) c a queue) as Hr.
  destruct (inference_loop _ _ _ _) as [r t]; simpl in *. auto.
Qed.

Lemma singleton_sublist (x : V) (l : list V) : x ∈ l → [x] `sublist_of` l.
Proof.
  induction 1; [apply sublist_skip, sublist_nil_l | by apply sublist_cons].
Qed.

(** Takes one turn of the loop of [backtrack] apart. *)
Ltac for_value_turn rec variable value a c :=
  destruct (get_all_neighboring_arcs c variable) as [?neighbours| |] eqn:?Hn; simpl;
  [ destruct (inference c (dict_set variable [value] a) _)
      as [[[[] ?copy]| |] ?t1] eqn:?Hinf; simpl;
    [ destruct (rec c _) as [[[[[|??]|]| |] ?c] ?t2] eqn:?Hrec; simpl | .. ]
  | .. ].

Lemma for_value_within rec a variable values c l :
  (∀ c' a', within a' (rec c' a').2
            ∧ match (rec c' a').1.1 with Ret (Some r) => shrinks r a' | _ => True end) →
  dict_get variable a = Some l →
  Forall (.∈ l) values →
  within a (for_value rec a variable values c).2
  ∧ match (for_value rec a variable values c).1.1 with
    | Ret (Some r) => shrinks r a
    | _ => True
    end.
Proof.
  intros Hrec Hl. revert c.
  induction values as [|value values IH]; intros c Hvalues; simpl.
  { split; [apply within_nil | done]. }
  apply Forall_cons in Hvalues as [Hvalue Hvalues].
  assert (shrinks (dict_set variable [value] a) a) as Hcopy
    by (eapply shrinks_dict_set; [done | by apply singleton_sublist]).
  for_value_turn rec variable value a c;
    try (split; [apply within_nil | done]);
    match goal with H : inference c ?a0 ?q = _ |- _ =>
      destruct (inference_shrinks c a0 q) as [Ht1 Hr1]; rewrite H in Ht1, Hr1;
      simpl in Ht1, Hr1; eapply within_shrinks in Ht1; [|exact Hcopy] end;
    try (split; [done | done]);
    try match goal with H : rec ?c0 ?a0 = _ |- _ =>
      destruct (Hrec c0 a0) as [Ht2 Hr2]; rewrite H in Ht2, Hr2;
      simpl in Ht2, Hr2;
      assert (shrinks a0 a) as Hcopy' by (by etrans);
      eapply within_shrinks in Ht2; [|exact Hcopy'] end;
    try match goal with |- context [for_value rec a variable values ?c0] =>
      destruct (IH c0 Hvalues) as [Ht3 Hr3];
      destruct (for_value rec a variable values c0) as [[?r ?c] ?t3]; simpl in * end;
    rewrite ?within_app; try done.
  split; [done|]. by etrans.
Qed.

(** Every call made by [backtrack] works on the assignment it was given,
    or on less; so does the solution it returns. *)
Lemma backtrack_within fuel c a :
  within a (backtrack fuel c a).2
  ∧ match (backtrack fuel c a).1.1 with Ret (Some r) => shrinks r a | _ => True end.
Proof.
  revert c a. induction fuel as [|n IH]; intros c a; simpl.
  { split; [|done]. apply within_cons. split; [done | apply within_nil]. }
  destruct (truthy_variable _) as [variable|].
  - unfold subscript. destruct (dict_get variable a) as [l|] eqn:Hl; simpl.
    + destruct (for_value_within (backtrack n) a variable l
                  (incr_backtrack_count c) l (λ c' a', IH c' a') Hl) as [Ht Hr].
      { by apply Forall_forall. }
      destruct (for_value _ _ _ _ _) as [[r c'] t]; simpl in *.
      split; [|done]. by apply within_cons.
    + split; [|done]. apply within_cons. split; [done | apply within_nil].
  - destruct (existsb _ _); simpl;
      (split; [|done]); apply within_cons; (split; [done | apply within_nil]).
Qed.

Lemma py_min_elem (key : name → nat) best (l : list name) : py_min key best l ∈ best :: l.
Proof.
  revert best. induction l as [|x l IH]; intros best; simpl; [by left|].
  case_decide.
  - right. apply IH.
  - specialize (IH best). apply elem_of_cons in IH as [->|?]; [by left|].
    by do 2 right.
Qed.

Lemma select_Some a v :
  select_unassigned_variable a = Some v → ∃ l, (v, l) ∈ a ∧ 1 < length l.
Proof.
  unfold select_unassigned_variable.
  destruct ((filter _ a).*1) as [|x l] eqn:Hf; [done|].
  intros ?; simplify_eq.
  pose proof (py_min_elem (λ key, length (default [] (dict_get key a))) x l) as Hin.
  rewrite <-Hf in Hin.
  apply list_elem_of_fmap in Hin as ([v l'] & -> & [? ?]%list_elem_of_filter).
  eauto.
Qed.

Lemma select_None a :
  select_unassigned_variable a = None → Forall (λ e, length e.2 ≤ 1) a.
Proof.
  unfold select_unassigned_variable.
  destruct ((filter _ a).*1) as [|x l] eqn:Hf; [|done].
  intros _. apply fmap_nil_inv in Hf. apply Forall_forall. intros e He.
  destruct (decide (1 < length e.2)) as [Hlt|]; [|lia].
  assert (e ∈ filter (λ item : name * list V, 1 < length item.2) a) as Hin
    by (by apply list_elem_of_filter).
  rewrite Hf in Hin. by apply elem_of_nil in Hin.
Qed.

Lemma truthy_variable_Some o v :
  truthy_variable o = Some v ↔ o = Some v ∧ truthy v = true.
Proof.
  unfold truthy_variable. destruct o as [v'|]; [|split; [done | by intros [? _]]].
  destruct (truthy v') eqn:Hv'; split.
  - intros ?; by simplify_eq.
  - intros [? _]; by simplify_eq.
  - done.
  - intros [? ?]; simplify_eq. congruence.
Qed.

Lemma get_all_neighboring_arcs_not_OutOfFuel c var :
  get_all_neighboring_arcs c var ≠ OutOfFuel.
Proof.
  unfold get_all_neighboring_arcs, subscript.
  by destruct (dict_get var (constraints c)).
Qed.

Lemma is_dict_set {A} (d : dict A) k v : k ∈ dict_keys d → is_dict d → is_dict (dict_set k v d).
Proof. unfold is_dict. intros Hk. by rewrite dict_keys_set. Qed.

Lemma for_value_terminates rec a variable values c l :
  is_dict a → dict_get variable a = Some l → 1 < length l →
  (∀ c' a', is_dict a' → total_size a' < total_size a → (rec c' a').1.1 ≠ OutOfFuel) →
  (for_value rec a variable values c).1.1 ≠ OutOfFuel.
Proof.
  intros Ha Hl Hlen Hrec. revert c.
  induction values as [|value values IH]; intros c; simpl; [done|].
  assert (variable ∈ dict_keys a) as Hvar by (apply dict_get_is_Some; eauto).
  pose proof (total_size_dict_set a variable l [value] Hl) as Hsize. simpl in Hsize.
  pose proof (get_all_neighboring_arcs_not_OutOfFuel c variable).
  for_value_turn rec variable value a c; try done;
    match goal with H : inference c ?a0 ?q = _ |- _ =>
      destruct (inference_shrinks c a0 q) as [_ Hr1];
      pose proof (inference_terminates c a0 q) as Hf1;
      rewrite H in Hr1, Hf1; simpl in Hr1, Hf1 end;
    try done;
    try match goal with H : rec ?c0 ?a0 = _ |- _ =>
      pose proof (Hrec c0 a0) as Hr2; rewrite H in Hr2; simpl in Hr2 end;
    try match goal with |- context [for_value rec a variable values ?c0] =>
      pose proof (IH c0) as Hr3;
      destruct (for_value rec a variable values c0) as [[?r ?c] ?t3]; simpl in * end;
    try done.
  apply Hr2.
  - eapply shrinks_is_dict; [done|]. by apply is_dict_set.
  - apply shrinks_total_size in Hr1. lia.
Qed.

(** The recursion of [backtrack] comes to an end: fuel above the number of
    values left never runs out. *)
Lemma backtrack_terminates fuel c a :
  is_dict a → total_size a < fuel → (backtrack fuel c a).1.1 ≠ OutOfFuel.
Proof.
  revert c a. induction fuel as [|n IH]; intros c a Ha Hfuel; simpl; [lia|].
  destruct (truthy_variable _) as [variable|] eqn:Hsel.
  - apply truthy_variable_Some in Hsel as [(l & Hin & Hlen)%select_Some _].
    apply dict_get_elem in Hin; [|done].
    unfold subscript. rewrite Hin. simpl.
    pose proof (for_value_terminates (backtrack n) a variable l
                  (incr_backtrack_count c) l Ha Hin Hlen) as Hfor.
    destruct (for_value _ _ _ _ _) as [[r c'] t]; simpl in *.
    apply Hfor. intros c0 a0 ??. apply IH; [done|lia].
  - by destruct (existsb _ _).
Qed.

(** *** The counters are written, never read *)

#[local] Arguments inference : simpl never.

Lemma incr_backtrack_count_bump n m c :
  incr_backtrack_count (bump n m c) = bump n m (incr_backtrack_count c).
Proof. unfold incr_backtrack_count, bump; simpl. f_equal; lia. Qed.

Lemma incr_backtrack_failure_count_bump n m c :
  incr_backtrack_failure_count (bump n m c) = bump n m (incr_backtrack_failure_count c).
Proof. unfold incr_backtrack_failure_count, bump; simpl. f_equal; lia. Qed.

Lemma inference_loop_bump n m fuel c a queue :
  inference_loop fuel (bump n m c) a queue = inference_loop fuel c a queue.
Proof.
  revert a queue. induction fuel as [|k IH]; intros a [|[x_i x_j] queue]; simpl; try done.
  change (revise (bump n m c) a x_i x_j) with (revise c a x_i x_j).
  change (get_all_neighboring_arcs (bump n m c) x_i) with (get_all_neighboring_arcs c x_i).
  destruct (revise c a x_i x_j) as [[[] ?]| |]; [|by rewrite IH|done..].
  destruct (subscript (domains c) x_i) as [[|??]| |]; try done.
  destruct (get_all_neighboring_arcs c x_i); [by rewrite IH|done..].
Qed.

Lemma inference_bump n m c a queue : inference (bump n m c) a queue = inference c a queue.
Proof.
  unfold inference. rewrite inference_loop_bump.
  by change (inference_fuel (bump n m c) a queue) with (inference_fuel c a queue).
Qed.

Lemma for_value_bump n m rec a variable values c :
  (∀ c' a', rec (bump n m c') a' = bump_run n m (rec c' a')) →
  for_value rec a variable values (bump n m c)
  = bump_run n m (for_value rec a variable values c).
Proof.
  intros Hrec. revert c. induction values as [|value values IH]; intros c; simpl.
  { unfold bump_run; simpl. by rewrite incr_backtrack_failure_count_bump. }
  change (get_all_neighboring_arcs (bump n m c) variable)
    with (get_all_neighboring_arcs c variable).
  destruct (get_all_neighboring_arcs c variable) as [neighbours| |]; try done.
  rewrite inference_bump.
  destruct (inference c _ _) as [[[[] copy]| |] t1]; try done.
  - rewrite Hrec.
    destruct (rec c copy) as [[[[[|??]|]| |] c'] t2]; unfold bump_run at 1; simpl;
      try done; rewrite IH;
      by destruct (for_value rec a variable values c') as [[r c''] t3].
  - rewrite IH. by destruct (for_value rec a variable values c) as [[r c''] t3].
Qed.

Lemma backtrack_bump n m fuel c a :
  backtrack fuel (bump n m c) a = bump_run n m (backtrack fuel c a).
Proof.
  revert c a. induction fuel as [|k IH]; intros c a; simpl; [done|].
  rewrite incr_backtrack_count_bump.
  destruct (truthy_variable _) as [variable|].
  - destruct (subscript a variable) as [values| |]; try done.
    rewrite for_value_bump by done.
    by destruct (for_value _ _ _ _ _) as [[r c'] t].
  - destruct (existsb _ _); [|done].
    unfold bump_run; simpl. by rewrite incr_backtrack_failure_count_bump.
Qed.

Lemma backtracking_search_bump n m c :
  backtracking_search (bump n m c) = bump_run n m (backtracking_search c).
Proof.
  unfold backtracking_search. rewrite inference_bump.
  change (get_all_arcs (bump n m c)) with (get_all_arcs c).
  change (domains (bump n m c)) with (domains c).
  destruct (inference _ _ _) as [[[b a']| |] t1]; try done.
  rewrite backtrack_bump. by destruct (backtrack _ _ _) as [[r c'] t2].
Qed.

(** *** The graph is left alone and the counters only grow *)

#[global] Instance advanced_refl : Reflexive (@advanced V).
Proof. intros c. by repeat split. Qed.

#[global] Instance advanced_trans : Transitive (@advanced V).
Proof.
  intros c1 c2 c3 ((? & ? & ?) & ? & ?) ((? & ? & ?) & ? & ?).
  repeat split; try congruence; lia.
Qed.

Lemma advanced_incr_backtrack_count c : advanced c (incr_backtrack_count c).
Proof. repeat split; simpl; lia. Qed.

Lemma advanced_incr_backtrack_failure_count c : advanced c (incr_backtrack_failure_count c).
Proof. repeat split; simpl; lia. Qed.

Lemma for_value_advanced rec a variable values c :
  (∀ c' a', advanced c' (rec c' a').1.2) →
  advanced c (for_value rec a variable values c).1.2.
Proof.
  intros Hrec. revert c. induction values as [|value values IH]; intros c; simpl.
  { apply advanced_incr_backtrack_failure_count. }
  for_value_turn rec variable value a c; try done;
    try match goal with H : rec ?c0 ?a0 = _ |- _ =>
      pose proof (Hrec c0 a0) as Hr2; rewrite H in Hr2; simpl in Hr2 end;
    try match goal with |- context [for_value rec a variable values ?c0] =>
      pose proof (IH c0) as Hr3;
      destruct (for_value rec a variable values c0) as [[?r ?c] ?t3]; simpl in * end;
    try done; by etrans.
Qed.

Lemma backtrack_advanced fuel c a : advanced c (backtrack fuel c a).1.2.
Proof.
  revert c a. induction fuel as [|k IH]; intros c a; simpl; [done|].
  pose proof (advanced_incr_backtrack_count c) as Hc.
  destruct (truthy_variable _) as [variable|].
  - destruct (subscript a variable) as [values| |]; try done.
    pose proof (for_value_advanced (backtrack k) a variable values
                  (incr_backtrack_count c) (λ c' a', IH c' a')) as Hfor.
    destruct (for_value _ _ _ _ _) as [[r c'] t]; simpl in *. by etrans.
  - destruct (existsb _ _); [|done]. simpl.
    etrans; [done|]. apply advanced_incr_backtrack_failure_count.
Qed.

Lemma backtracking_search_advanced c : advanced c (backtracking_search c).1.2.
Proof.
  unfold backtracking_search.
  destruct (inference _ _ _) as [[[b a']| |] t1]; try done.
  pose proof (backtrack_advanced (backtrack_fuel a') c a') as Hb.
  by destruct (backtrack _ _ _) as [[r c'] t2].
Qed.

(** *** On a two-way graph nothing is raised *)

Lemma elem_of_get_all_arcs c i j :
  (i, j) ∈ get_all_arcs c ↔
  ∃ row, dict_get i (constraints c) = Some row ∧ j ∈ dict_keys row.
Proof.
  unfold get_all_arcs. rewrite list_elem_of_bind. split.
  - intros (i' & Hin & Hi').
    apply list_elem_of_bind in Hin as (j' & ?%list_elem_of_singleton & Hj').
    simplify_eq. destruct (dict_get _ (constraints c)) as [row|]; simpl in *.
    + eauto.
    + by apply elem_of_nil in Hj'.
  - intros (row & Hrow & Hj). exists i. split.
    + apply list_elem_of_bind. exists j. rewrite Hrow. simpl. split; [by left | done].
    + apply dict_get_is_Some. eauto.
Qed.

Lemma table_is_Some c i j : is_Some (table c i j) ↔ (i, j) ∈ get_all_arcs c.
Proof.
  rewrite elem_of_get_all_arcs. unfold table.
  destruct (dict_get i (constraints c)) as [row|]; simpl.
  - rewrite dict_get_is_Some. split; [eauto | by intros (? & ? & ?); simplify_eq].
  - split; [by intros [? ?] | by intros (? & ? & ?)].
Qed.

Lemma revise_no_raise c a i j :
  (i, j) ∈ get_all_arcs c → i ∈ dict_keys a → j ∈ dict_keys a →
  ∃ b a', revise c a i j = Ret (b, a').
Proof.
  intros [tbl Htbl]%table_is_Some [li Hi]%dict_get_is_Some [lj Hj]%dict_get_is_Some.
  destruct (revise_loop_fuel (length li) tbl (bool_decide (i = j)) lj 0 li false)
    as [[b li'] Hloop]; [lia|].
  exists b, (dict_set i li' a). apply revise_Ret. eauto 10.
Qed.

Lemma enqueue_neighbours_Forall (P : arc → Prop) arcs x_i x_j queue :
  Forall P queue → Forall (λ kv, P (kv.1, x_i)) arcs →
  Forall P (enqueue_neighbours arcs x_i x_j queue).
Proof.
  revert queue. induction arcs as [|[x_k ?] arcs IH]; intros queue Hq Harcs; simpl; [done|].
  apply Forall_cons in Harcs as [Hk Harcs].
  repeat case_decide; apply IH; try done.
  apply Forall_app. split; [done|]. by repeat constructor.
Qed.

Lemma two_way_same_graph c c' : same_graph c c' → two_way c → two_way c'.
Proof.
  destruct c, c'. unfold same_graph, two_way, get_all_arcs. simpl.
  by intros (_ & -> & ->).
Qed.

Lemma names_truthy_same_graph c c' : same_graph c c' → names_truthy c → names_truthy c'.
Proof. unfold names_truthy. by intros (_ & -> & _). Qed.

Lemma neighbouring_arcs_two_way c var :
  two_way c → var ∈ dict_keys (domains c) →
  ∃ arcs, get_all_neighboring_arcs c var = Ret arcs
          ∧ Forall (λ kv, (kv.1, var) ∈ get_all_arcs c) arcs
          ∧ Forall (.∈ get_all_arcs c) arcs.
Proof.
  intros [Hrows Hmirror] Hvar.
  rewrite Forall_forall in Hrows. apply Hrows, dict_get_is_Some in Hvar as [row Hrow].
  unfold get_all_neighboring_arcs, subscript. rewrite Hrow. simpl.
  eexists. split; [done|].
  assert (∀ k, k ∈ dict_keys row → (k, var) ∈ get_all_arcs c) as Hk.
  { intros k Hk. rewrite Forall_forall in Hmirror.
    apply (Hmirror (var, k)), elem_of_get_all_arcs. eauto. }
  split; apply Forall_fmap, Forall_forall; intros k ?; simpl; auto.
Qed.

Lemma inference_loop_no_raise fuel c a queue e :
  two_way c → dict_keys a = dict_keys (domains c) →
  Forall (.∈ get_all_arcs c) queue →
  (inference_loop fuel c a queue).1 ≠ Raise e.
Proof.
  intros Hc. revert a queue.
  induction fuel as [|n IH]; intros a [|[x_i x_j] queue] Ha Hq; simpl; try done.
  apply Forall_cons in Hq as [Harc Hq].
  pose proof Hc as [_ Hmirror]. rewrite Forall_forall in Hmirror.
  destruct (Hmirror _ Harc) as (Hi & Hj & _). simpl in Hi, Hj.
  destruct (revise_no_raise c a x_i x_j) as (b & a' & Hrev); [by rewrite ?Ha..|].
  rewrite Hrev. pose proof (revise_shrinks _ _ _ _ _ _ Hrev) as Hkeys%shrinks_keys.
  destruct b.
  - apply dict_get_is_Some in Hi as [d_i Hd]. unfold subscript. rewrite Hd.
    destruct d_i; [done|].
    destruct (neighbouring_arcs_two_way c x_i Hc) as (arcs & -> & Harcs & _).
    { apply dict_get_is_Some. eauto. }
    specialize (IH a' (enqueue_neighbours arcs x_i x_j queue)).
    destruct (inference_loop n c a' _) as [r t]; simpl in *. apply IH; [congruence|].
    by apply enqueue_neighbours_Forall.
  - specialize (IH a' queue).
    destruct (inference_loop n c a' _) as [r t]; simpl in *. apply IH; [congruence|done].
Qed.

(** On a two-way graph [inference] returns, whatever the arcs of the
    graph it is given. *)
Lemma inference_returns c a queue :
  two_way c → dict_keys a = dict_keys (domains c) →
  Forall (.∈ get_all_arcs c) queue →
  ∃ b a', (inference c a queue).1 = Ret (b, a') ∧ shrinks a' a.
Proof.
  intros Hc Ha Hq.
  pose proof (inference_terminates c a queue) as Hterm.
  destruct (inference_shrinks c a queue) as [_ Hshr].
  unfold inference in *.
  pose proof (λ e, inference_loop_no_raise (inference_fuel c a queue) c a queue e Hc Ha Hq)
    as Hraise.
  destruct (inference_loop _ _ _ _) as [[[b a']|e|] t]; simpl in *.
  - eauto.
  - by destruct (Hraise e).
  - done.
Qed.

Lemma advanced_same_graph c c' : advanced c c' → same_graph c c'.
Proof. by intros [? _]. Qed.

Lemma for_value_fine rec a variable values c :
  (∀ c' a', advanced c' (rec c' a').1.2) →
  (∀ c' a', two_way c' → names_truthy c' → dict_keys a' = dict_keys (domains c') →
            fine (rec c' a').1) →
  two_way c → names_truthy c → dict_keys a = dict_keys (domains c) →
  variable ∈ dict_keys a →
  fine (for_value rec a variable values c).1.
Proof.
  intros Hadv Hrec. revert c.
  induction values as [|value values IH]; intros c Hc Hnames Ha Hvar; simpl; [done|].
  destruct (neighbouring_arcs_two_way c variable Hc) as (arcs & -> & _ & Harcs);
    [by rewrite <-Ha|].
  destruct (inference_returns c (dict_set variable [value] a) arcs)
    as (b & copy & Hinf & Hcopy%shrinks_keys); [done|by rewrite dict_keys_set|done|].
  rewrite dict_keys_set in Hcopy by done.
  destruct (inference c _ _) as [r1 t1]; simpl in Hinf; subst r1.
  destruct b.
  - specialize (Hadv c copy). specialize (Hrec c copy Hc Hnames ltac:(congruence)).
    destruct (rec c copy) as [[[[[|??]|]| |] c'] t2]; simpl in *; try done.
    + apply advanced_same_graph in Hadv. destruct Hadv as (? & Hd & ?).
      specialize (IH c'). destruct (for_value rec a variable values c') as [[r c''] t3].
      apply IH; [by eapply two_way_same_graph | by eapply names_truthy_same_graph
                | congruence | done].
    + apply advanced_same_graph in Hadv. destruct Hadv as (? & Hd & ?).
      specialize (IH c'). destruct (for_value rec a variable values c') as [[r c''] t3].
      apply IH; [by eapply two_way_same_graph | by eapply names_truthy_same_graph
                | congruence | done].
  - specialize (IH c Hc Hnames Ha Hvar).
    by destruct (for_value rec a variable values c) as [[r c''] t3].
Qed.

(** When no variable is left to choose and no domain is empty, the
    assignment is solved. *)
Lemma leaf_solved c a :
  names_truthy c → dict_keys a = dict_keys (domains c) →
  truthy_variable (select_unassigned_variable a) = None →
  existsb (λ values, bool_decide (values = [])) (dict_values a) = false →
  solved a.
Proof.
  intros Hnames Ha Hsel Hempty.
  assert (select_unassigned_variable a = None) as Hnone.
  { destruct (select_unassigned_variable a) as [v|] eqn:Hv; [|done].
    apply select_Some in Hv as (l & Hin & _).
    assert (v ∈ dict_keys a) as Hk by (apply list_elem_of_fmap; by exists (v, l)).
    rewrite Ha in Hk. unfold names_truthy in Hnames. rewrite Forall_forall in Hnames.
    simpl in Hsel. by rewrite (Hnames v Hk) in Hsel. }
  apply select_None in Hnone. unfold solved.
  rewrite Forall_forall in Hnone |- *. intros [k l] Hin. specialize (Hnone _ Hin).
  simpl in *. destruct l as [|x l]; [|simpl in *; lia].
  assert (existsb (λ values, bool_decide (values = [])) (dict_values a) = true) as Htrue.
  { apply existsb_exists. exists []. split; [|done].
    apply list_elem_of_In, list_elem_of_fmap. by exists (k, []). }
  congruence.
Qed.

Lemma backtrack_fine fuel c a :
  two_way c → names_truthy c → dict_keys a = dict_keys (domains c) →
  fine (backtrack fuel c a).1.
Proof.
  revert c a. induction fuel as [|n IH]; intros c a Hc Hnames Ha; simpl; [done|].
  destruct (truthy_variable _) as [variable|] eqn:Hsel.
  - apply truthy_variable_Some in Hsel as [(l & Hin & Hlen)%select_Some _].
    assert (variable ∈ dict_keys a) as Hk
      by (apply list_elem_of_fmap; by exists (variable, l)).
    pose proof Hk as [values Hvalues]%dict_get_is_Some.
    unfold subscript. rewrite Hvalues. simpl.
    pose proof (for_value_fine (backtrack n) a variable values (incr_backtrack_count c)
                  (λ c' a', backtrack_advanced n c' a') IH) as Hfor.
    destruct (for_value _ _ _ _ _) as [[r c'] t]. by apply Hfor.
  - destruct (existsb _ _) eqn:Hempty; [done|]. unfold fine. simpl.
    by eapply leaf_solved.
Qed.
End Backtrack_facts.

Section Completeness_facts.
Context {V : Type} `{EqDecision V}.
Implicit Types (c : CSP V) (a : assignment V) (queue : list arc) (s : dict V).
Implicit Types (rec : CSP V → assignment V → run V (option (assignment V))).

Lemma occurrences_pos (x : V) (l : list V) : x ∈ l ↔ 0 < occurrences x l.
Proof.
  induction l as [|y l IH].
  { split; [by intros ?%elem_of_nil | unfold occurrences; simpl; lia]. }
  rewrite elem_of_cons, occurrences_cons, IH. case_decide; split.
  - lia.
  - intros _. by left.
  - intros [?|?]; [done|lia].
  - intros ?. right. lia.
Qed.

(** A value with a partner throughout stays in the list of [i]. *)
Lemma revise_loop_keeps n tbl same other idx (l : list V) revised b l' x0 :
  revise_loop n tbl same other idx l revised = Some (b, l') →
  x0 ∈ l →
  (if same then (x0, x0) ∈ tbl else supported tbl x0 other = true) →
  x0 ∈ l'.
Proof.
  intros (_ & _ & _ & Hocc)%revise_loop_spec Hin Hsup.
  apply occurrences_pos. apply occurrences_pos in Hin.
  destruct (decide (occurrences x0 l' < occurrences x0 l)) as [Hlt|]; [|lia].
  destruct (Hocc x0 Hlt) as (cur & Hcur & Hno). exfalso.
  unfold at_check in Hcur. destruct same.
  - destruct Hcur as (_ & _ & Hx0). rewrite supported_false in Hno. by apply (Hno x0).
  - subst. congruence.
Qed.

Lemma satisfies_lookup c s v :
  satisfies c s → v ∈ dict_keys (domains c) →
  ∃ x d, dict_get v s = Some x ∧ dict_get v (domains c) = Some d ∧ x ∈ d.
Proof.
  intros (Hkeys & Hdom & _) Hv. rewrite <-Hkeys in Hv.
  apply dict_get_is_Some in Hv as [x Hx]. destruct (Hdom v x Hx) as (d & ? & ?). eauto.
Qed.

Lemma revise_keeps c a i j b a' s :
  satisfies c s → dict_keys a = dict_keys (domains c) → contains a s →
  revise c a i j = Ret (b, a') → contains a' s.
Proof.
  intros Hs Hkeys Ha (tbl & li & lj & li' & Htbl & Hi & Hj & Hloop & ->)%revise_Ret v x Hv.
  rewrite dict_get_set. destruct (decide (v = i)) as [->|]; [|by apply Ha].
  destruct (Ha i x Hv) as (l & Hl & Hx). simplify_eq.
  eexists. split; [done|]. eapply revise_loop_keeps; [done..|].
  destruct (decide (i = j)) as [->|Hne].
  - rewrite bool_decide_eq_true_2 by done. destruct Hs as (_ & _ & Htables). eauto.
  - rewrite bool_decide_eq_false_2 by done.
    destruct (satisfies_lookup c s j Hs) as (y & _ & Hy & _).
    { rewrite <-Hkeys. apply dict_get_is_Some. eauto. }
    destruct (Ha j y Hy) as (l & ? & ?). simplify_eq.
    apply supported_true. exists y. split; [done|].
    destruct Hs as (_ & _ & Htables). eauto.
Qed.

Lemma inference_loop_keeps fuel c a queue s :
  satisfies c s → dict_keys a = dict_keys (domains c) → contains a s →
  match (inference_loop fuel c a queue).1 with
  | Ret (b, a') => b = true ∧ contains a' s
  | _ => True
  end.
Proof.
  intros Hs. revert a queue.
  induction fuel as [|n IH]; intros a [|[x_i x_j] queue] Hkeys Ha; simpl; try done.
  destruct (revise c a x_i x_j) as [[b a']| |] eqn:Hrev; [|done..].
  pose proof (revise_keeps _ _ _ _ _ _ _ Hs Hkeys Ha Hrev) as Ha'.
  pose proof (revise_shrinks _ _ _ _ _ _ Hrev) as Hkeys'%shrinks_keys.
  destruct b.
  - apply revise_Ret in Hrev as (_ & li & _ & _ & _ & Hi & _).
    destruct (satisfies_lookup c s x_i Hs) as (x & d & _ & Hd & Hx).
    { rewrite <-Hkeys. apply dict_get_is_Some. eauto. }
    unfold subscript. rewrite Hd. destruct d as [|??]; [by apply elem_of_nil in Hx|].
    destruct (get_all_neighboring_arcs c x_i) as [arcs| |]; [|done..].
    specialize (IH a' (enqueue_neighbours arcs x_i x_j queue)).
    destruct (inference_loop n c a' _) as [r t]. apply IH; [congruence|done].
  - specialize (IH a' queue).
    destruct (inference_loop n c a' _) as [r t]. apply IH; [congruence|done].
Qed.

Lemma inference_keeps c a queue s b a' :
  satisfies c s → dict_keys a = dict_keys (domains c) → contains a s →
  (inference c a queue).1 = Ret (b, a') → b = true ∧ contains a' s.
Proof.
  intros Hs Hkeys Ha. unfold inference.
  pose proof (inference_loop_keeps (inference_fuel c a queue) c a queue s Hs Hkeys Ha) as Hk.
  destruct (inference_loop _ _ _ _) as [r t]; simpl in *. intros ->. done.
Qed.

Lemma satisfies_same_graph c c' s : same_graph c c' → satisfies c s → satisfies c' s.
Proof.
  destruct c, c'. unfold same_graph, satisfies, table. simpl. by intros (_ & -> & ->).
Qed.

Lemma solvable_by_advanced c c' s : advanced c c' → solvable_by c s → solvable_by c' s.
Proof.
  intros [Hsame _] (? & ? & ?). split_and!;
    eauto using two_way_same_graph, names_truthy_same_graph, satisfies_same_graph.
Qed.

Lemma contains_dict_set a s variable x0 :
  contains a s → dict_get variable s = Some x0 → contains (dict_set variable [x0] a) s.
Proof.
  intros Ha Hx0 v x Hv. rewrite dict_get_set. case_decide; [|by apply Ha].
  simplify_eq. eexists. split; [done | by left].
Qed.

Lemma shrinks_nonempty a' a variable : shrinks a' a → variable ∈ dict_keys a → a' ≠ [].
Proof. intros <-%shrinks_keys Hin ->. by apply elem_of_nil in Hin. Qed.

Lemma for_value_finds rec a variable values c s l x0 :
  (∀ c' a', advanced c' (rec c' a').1.2) →
  (∀ c' a', solvable_by c' s → dict_keys a' = dict_keys (domains c') → is_dict a' →
            total_size a' < total_size a →
            fine (rec c' a').1 ∧ (rec c' a').1.1 ≠ OutOfFuel
            ∧ match (rec c' a').1.1 with Ret (Some r) => shrinks r a' | _ => True end
            ∧ (contains a' s → ∃ r, (rec c' a').1.1 = Ret (Some r))) →
  solvable_by c s → dict_keys a = dict_keys (domains c) → is_dict a → contains a s →
  dict_get variable a = Some l → 1 < length l →
  dict_get variable s = Some x0 → x0 ∈ values →
  ∃ r, (for_value rec a variable values c).1.1 = Ret (Some r).
Proof.
  intros Hadv Hrec Hc Hkeys Hdict Ha Hl Hlen Hx0. revert c Hc Hkeys.
  assert (variable ∈ dict_keys a) as Hvar by (apply dict_get_is_Some; eauto).
  induction values as [|value values IH]; intros c Hc Hkeys Hin; simpl;
    [by apply elem_of_nil in Hin|].
  pose proof Hc as (Htwo & Hnames & Hs).
  destruct (neighbouring_arcs_two_way c variable Htwo) as (arcs & -> & _ & Harcs);
    [by rewrite <-Hkeys|].
  pose proof (total_size_dict_set a variable l [value] Hl) as Hsize. simpl in Hsize.
  destruct (inference_returns c (dict_set variable [value] a) arcs)
    as (b & copy & Hinf & Hcopy); [done|by rewrite dict_keys_set|done|].
  pose proof (shrinks_keys _ _ Hcopy) as Hcopykeys. rewrite dict_keys_set in Hcopykeys by done.
  pose proof (shrinks_total_size _ _ Hcopy) as Hcopysize.
  assert (is_dict copy) as Hcopydict
    by (eapply shrinks_is_dict; [done | by apply is_dict_set]).
  assert (dict_keys (dict_set variable [value] a) = dict_keys (domains c)) as Hsetkeys
    by (by rewrite dict_keys_set).
  pose proof (λ Hcont : contains (dict_set variable [value] a) s,
                inference_keeps c _ arcs s b copy Hs Hsetkeys Hcont Hinf) as Hkeep.
  destruct (inference c _ _) as [r1 t1]; simpl in Hinf; subst r1.
  assert (∀ c', advanced c c' → x0 ∈ values →
    ∃ r, (for_value rec a variable values c').1.1 = Ret (Some r)) as Hnext.
  { intros c' Hc' ?. pose proof Hc' as [(_ & Hd & _) _].
    apply IH; [by eapply solvable_by_advanced | congruence | done]. }
  destruct b.
  - specialize (Hadv c copy).
    destruct (Hrec c copy Hc ltac:(congruence) Hcopydict ltac:(lia))
      as (Hfine & Hfuel & Hres & Hfind).
    destruct (rec c copy) as [[[[[|??]|]| |] c'] t2] eqn:Hr; simpl in *; try done.
    + destruct (decide (value = x0)) as [->|Hne].
      * exfalso. eapply (shrinks_nonempty [] copy variable); [done|congruence|done].
      * apply elem_of_cons in Hin as [?|Hin]; [congruence|].
        destruct (Hnext c' Hadv Hin) as [r Hr3].
        destruct (for_value rec a variable values c') as [[r3 c''] t3]. simpl in *. eauto.
    + eauto.
    + destruct (decide (value = x0)) as [->|Hne].
      * destruct Hfind as [r ?]; [|done].
        apply Hkeep. by apply contains_dict_set.
      * apply elem_of_cons in Hin as [?|Hin]; [congruence|].
        destruct (Hnext c' Hadv Hin) as [r Hr3].
        destruct (for_value rec a variable values c') as [[r3 c''] t3]. simpl in *. eauto.
  - destruct (decide (value = x0)) as [->|Hne].
    + destruct Hkeep as [? _]; [by apply contains_dict_set | done].
    + apply elem_of_cons in Hin as [?|Hin]; [congruence|].
      destruct (Hnext c ltac:(done) Hin) as [r Hr3].
      destruct (for_value rec a variable values c) as [[r3 c''] t3]. simpl in *. eauto.
Qed.

(** From an assignment that still holds a solution, [backtrack] returns an
    assignment. *)
Lemma backtrack_finds fuel c a s :
  solvable_by c s → dict_keys a = dict_keys (domains c) → is_dict a →
  contains a s → total_size a < fuel →
  ∃ r, (backtrack fuel c a).1.1 = Ret (Some r).
Proof.
  revert c a. induction fuel as [|n IH]; intros c a Hc Hkeys Hdict Ha Hfuel; simpl; [lia|].
  pose proof Hc as (Htwo & Hnames & Hs).
  destruct (truthy_variable _) as [variable|] eqn:Hsel.
  - apply truthy_variable_Some in Hsel as [(l & Hin & Hlen)%select_Some _].
    apply dict_get_elem in Hin; [|done].
    assert (variable ∈ dict_keys (domains c)) as Hvar
      by (rewrite <-Hkeys; apply dict_get_is_Some; eauto).
    destruct (satisfies_lookup c s variable Hs Hvar) as (x0 & _ & Hx0 & _).
    destruct (Ha variable x0 Hx0) as (l' & ? & Hx0l). simplify_eq.
    unfold subscript. rewrite Hin. simpl.
    destruct (for_value_finds (backtrack n) a variable l (incr_backtrack_count c) s l x0)
      as [r Hr]; try done.
    + intros. apply backtrack_advanced.
    + intros c' a' Hc' Hkeys' Hdict' Hsize'. pose proof Hc' as (? & ? & ?). split_and!.
      * by apply backtrack_fine.
      * apply backtrack_terminates; [done|lia].
      * apply backtrack_within.
      * intros ?. apply IH; [done..|lia].
    + destruct (for_value _ _ _ _ _) as [[r0 c'] t]. simpl in *. eauto.
  - destruct (existsb _ _) eqn:Hempty; [|simpl; eauto].
    exfalso. apply existsb_exists in Hempty as (l & Hl%list_elem_of_In & ->%bool_decide_eq_true).
    apply list_elem_of_fmap in Hl as ([v l] & ? & Hvl). simpl in *. subst l.
    assert (v ∈ dict_keys (domains c)) as Hv
      by (rewrite <-Hkeys; apply list_elem_of_fmap; by exists (v, [])).
    destruct (satisfies_lookup c s v Hs Hv) as (x & _ & Hx & _).
    destruct (Ha v x Hx) as (l' & Hl' & Hxl').
    rewrite (dict_get_elem a v [] Hdict Hvl) in Hl'. simplify_eq.
    by apply elem_of_nil in Hxl'.
Qed.

(** The half of the completeness claim that the code keeps: on a two-way
    graph without falsy names, if some assignment satisfies every table then
    [backtracking_search()] does not return the failure value. *)
Lemma search_finds_a_result_when_solvable c s :
  solvable_by c s → is_dict (domains c) →
  ∃ r, (backtracking_search c).1.1 = Ret (Some r).
Proof.
  intros Hc Hdict. pose proof Hc as (Htwo & Hnames & Hs). unfold backtracking_search.
  destruct (inference_returns c (domains c) (get_all_arcs c) Htwo eq_refl)
    as (b & a' & Hinf & Hshr); [by apply Forall_forall|].
  assert (contains (domains c) s) as Hcont by (by destruct Hs as (_ & ? & _)).
  destruct (inference_keeps c (domains c) (get_all_arcs c) s b a' Hs eq_refl Hcont Hinf)
    as [_ Ha'].
  destruct (inference _ _ _) as [r1 t1]; cbn [fst snd] in *; subst r1.
  destruct (backtrack_finds (backtrack_fuel a') c a' s) as [r Hr]; try done.
  - by apply shrinks_keys.
  - by eapply shrinks_is_dict.
  - unfold backtrack_fuel. lia.
  - destruct (backtrack _ _ _) as [[r0 c'] t2]. cbn [fst snd] in *. eauto.
Qed.
End Completeness_facts.

(** * The claims *)

Section Claims.
Context {V : Type} `{EqDecision V}.
Implicit Types (c : CSP V) (a : assignment V) (queue : list arc).

(** C7.  [revise(assignment, i, j)] takes a value [x] out of the working
    domain of [i] only when, at the moment [x] was checked, no value [y]
    of the working domain of [j] as it stood ([cur]) made [(x, y)] a pair
    of the table stored for [(i, j)]; a value that still has a partner in
    the working domain of [j] keeps all its occurrences.  Nothing else
    in the assignment changes. *)
Theorem revise_removes_only_unsupported c a i j revised a' :
  revise c a i j = Ret (revised, a') →
  ∃ tbl li lj li' lj',
    table c i j = Some tbl ∧ dict_get i a = Some li ∧ dict_get j a = Some lj
    ∧ a' = dict_set i li' a ∧ dict_get i a' = Some li' ∧ dict_get j a' = Some lj'
    ∧ li' `sublist_of` li
    ∧ (∀ x, occurrences x li' < occurrences x li →
         ∃ cur, at_check (bool_decide (i = j)) lj li li' x cur
                ∧ ∀ y, y ∈ cur → (x, y) ∉ tbl)
    ∧ (∀ x y, y ∈ lj' → (x, y) ∈ tbl → occurrences x li' = occurrences x li).
Proof.
  intros (tbl & li & lj & li' & Htbl & Hi & Hj & Hloop & ->)%revise_Ret.
  apply revise_loop_spec in Hloop as (Hsub & _ & _ & Hocc).
  assert (dict_get i (dict_set i li' a) = Some li') as Hi'
    by (by rewrite dict_get_set, decide_True).
  assert (dict_get j (dict_set i li' a) = Some (if decide (i = j) then li' else lj)) as Hj'.
  { rewrite dict_get_set. destruct (decide (i = j)) as [->|Hne].
    - by rewrite decide_True.
    - by rewrite decide_False by congruence. }
  assert (∀ x, occurrences x li' < occurrences x li →
    ∃ cur, at_check (bool_decide (i = j)) lj li li' x cur
           ∧ ∀ y, y ∈ cur → (x, y) ∉ tbl) as Hremoved.
  { intros x Hx. destruct (Hocc x Hx) as (cur & Hcur & Hsup).
    exists cur. by rewrite supported_false in Hsup. }
  exists tbl, li, lj, li', (if decide (i = j) then li' else lj).
  split_and!; try done.
  intros x y Hy Hxy. pose proof (occurrences_sublist x _ _ Hsub) as Hle.
  destruct (decide (occurrences x li' < occurrences x li)) as [Hlt|]; [|lia].
  destruct (Hremoved x Hlt) as (cur & Hcur & Hno). exfalso. apply (Hno y); [|done].
  unfold at_check in Hcur. destruct (decide (i = j)) as [->|Hne].
  - rewrite bool_decide_eq_true_2 in Hcur by done.
    destruct Hcur as [Hcur _]. by eapply elem_of_sublist.
  - rewrite bool_decide_eq_false_2 in Hcur by done. congruence.
Qed.

(** C8.  Every assignment handed to [backtrack], [inference] or [revise]
    during [backtracking_search()] gives every variable a subsequence of
    its static domain; the calls made inside one [backtrack] or one
    [inference] work on the assignment that call was given or on less,
    those of one [inference] on ever less; and what [revise], [inference]
    and [backtrack] hand back has only lost values. *)
Theorem working_domains_only_shrink c a queue fuel i j :
  within (domains c) (backtracking_search c).2
  ∧ within a (backtrack fuel c a).2
  ∧ within a (inference c a queue).2
  ∧ StronglySorted narrows (inference c a queue).2
  ∧ match (backtrack fuel c a).1.1 with Ret (Some s) => shrinks s a | _ => True end
  ∧ match (inference c a queue).1 with Ret (_, a') => shrinks a' a | _ => True end
  ∧ match revise c a i j with Ret (_, a') => shrinks a' a | _ => True end.
Proof.
  split_and!.
  - unfold backtracking_search.
    destruct (inference_shrinks c (domains c) (get_all_arcs c)) as [Ht1 Hr1].
    destruct (inference _ _ _) as [[[b a']| |] t1]; cbn [fst snd] in *; try done.
    destruct (backtrack_within (backtrack_fuel a') c a') as [Ht2 _].
    destruct (backtrack _ _ _) as [[r c'] t2]; cbn [fst snd] in *.
    apply within_app. split; [done|]. by eapply within_shrinks.
  - apply backtrack_within.
  - apply inference_shrinks.
  - unfold inference.
    pose proof (inference_loop_descending (inference_fuel c a queue) c a queue) as Hs.
    pose proof (inference_loop_shrinks (inference_fuel c a queue) c a queue) as [Ht _].
    destruct (inference_loop _ _ _ _) as [r t]; simpl in *. by constructor.
  - apply backtrack_within.
  - apply inference_shrinks.
  - destruct (revise c a i j) as [[b a']| |] eqn:Hrev; [|done..].
    by eapply revise_shrinks.
Qed.

(** C9.  The loops come to an end.  The loop of [inference] runs out of no
    fuel above [inference_fuel], whatever the graph, the assignment and the
    queue, and so [inference] returns or raises; the recursion of
    [backtrack] runs out of no fuel above [backtrack_fuel], and so
    [backtracking_search()] returns or raises. *)
Theorem search_terminates c a queue fuel_i fuel_b :
  is_dict a → is_dict (domains c) →
  inference_fuel c a queue ≤ fuel_i → backtrack_fuel a ≤ fuel_b →
  (inference_loop fuel_i c a queue).1 ≠ OutOfFuel
  ∧ (inference c a queue).1 ≠ OutOfFuel
  ∧ (backtrack fuel_b c a).1.1 ≠ OutOfFuel
  ∧ (backtracking_search c).1.1 ≠ OutOfFuel.
Proof.
  intros Ha Hd Hi Hb. split_and!.
  - by apply inference_loop_terminates.
  - apply inference_terminates.
  - apply backtrack_terminates; [done|]. unfold backtrack_fuel in Hb. lia.
  - unfold backtracking_search.
    pose proof (inference_terminates c (domains c) (get_all_arcs c)) as Hterm.
    destruct (inference_shrinks c (domains c) (get_all_arcs c)) as [_ Hshr].
    destruct (inference _ _ _) as [[[b a']| |] t1]; cbn [fst snd] in *; try done.
    pose proof (backtrack_terminates (backtrack_fuel a') c a') as Hbt.
    destruct (backtrack _ _ _) as [[r c'] t2]; cbn [fst snd] in *.
    apply Hbt; [by eapply shrinks_is_dict | unfold backtrack_fuel; lia].
Qed.

Lemma same_graph_bump c c' :
  same_graph c c' →
  c' = bump (backtrack_count c' - backtrack_count c)
         (backtrack_failure_count c' - backtrack_failure_count c) c.
Proof.
  destruct c, c'. unfold same_graph, bump. simpl. intros (-> & -> & ->). f_equal; lia.
Qed.

(** C10.  A solve leaves the variables, the static domains and the
    constraint tables of the object as they were and moves its two counters
    forward only; [backtrack] does the same at every depth.  The counters
    are never read and never reset: started on an object whose counters
    are [n] and [m] further, a solve does the same and ends [n] and [m]
    further, so a second solve on the same object adds to the counts of the
    first what the first added.  ([inference], [revise],
    [select_unassigned_variable] and the arc queries hand no object back:
    they write none of its fields.) *)
Theorem solve_writes_only_the_counters c fuel a n m :
  advanced c (backtracking_search c).1.2
  ∧ advanced c (backtrack fuel c a).1.2
  ∧ backtracking_search (bump n m c) = bump_run n m (backtracking_search c)
  ∧ backtrack fuel (bump n m c) a = bump_run n m (backtrack fuel c a)
  ∧ (let c1 := (backtracking_search c).1.2 in
     let c2 := (backtracking_search c1).1.2 in
     (backtracking_search c1).1.1 = (backtracking_search c).1.1
     ∧ backtrack_count c2 - backtrack_count c1 = backtrack_count c1 - backtrack_count c
     ∧ backtrack_failure_count c2 - backtrack_failure_count c1
       = backtrack_failure_count c1 - backtrack_failure_count c)%Z.
Proof.
  split; [|split; [|split; [|split]]].
  - apply backtracking_search_advanced.
  - apply backtrack_advanced.
  - apply backtracking_search_bump.
  - apply backtrack_bump.
  - pose proof (backtracking_search_advanced c) as [Hsame _].
    apply same_graph_bump in Hsame.
    destruct (backtracking_search c) as [[r c1] t] eqn:Hbs. cbn [fst snd] in *.
    assert (backtracking_search c1
            = bump_run (backtrack_count c1 - backtrack_count c)
                (backtrack_failure_count c1 - backtrack_failure_count c) (r, c1, t)) as ->.
    { rewrite <-Hbs, <-backtracking_search_bump. by rewrite <-Hsame. }
    unfold bump_run. simpl. split_and!; [done|lia|lia].
Qed.

(** C6, as amended.  On a graph whose tables are stored both ways between
    variables of the graph, none of which has a falsy name,
    [backtracking_search()] returns, and what it returns is either the
    failure value or an assignment that gives every variable of the graph
    exactly one value: never one with a variable left with several values
    or with none.  The two are told apart by the result alone. *)
Theorem search_returns_solved_or_failure c :
  two_way c → names_truthy c → is_dict (domains c) →
  solved_or_failure c (backtracking_search c).1.1.
Proof.
  intros Hc Hnames Hd. unfold backtracking_search.
  destruct (inference_returns c (domains c) (get_all_arcs c) Hc eq_refl)
    as (b & a' & Hinf & Hshr); [by apply Forall_forall|].
  destruct (inference _ _ _) as [r1 t1]; cbn [fst snd] in *; subst r1.
  pose proof (shrinks_keys _ _ Hshr) as Hkeys.
  pose proof (backtrack_fine (backtrack_fuel a') c a' Hc Hnames Hkeys) as Hfine.
  pose proof (backtrack_terminates (backtrack_fuel a') c a') as Hterm.
  destruct (backtrack_within (backtrack_fuel a') c a') as [_ Hres].
  destruct (backtrack _ _ _) as [[r c'] t2]; cbn [fst snd] in *.
  unfold fine in Hfine. simpl in Hfine. unfold solved_or_failure.
  destruct r as [[s|]|e|].
  - right. exists s. split_and!; [done|done|]. apply shrinks_keys in Hres. congruence.
  - by left.
  - done.
  - destruct Hterm; [by eapply shrinks_is_dict | unfold backtrack_fuel; lia | done].
Qed.

Lemma neighbouring_arcs_out_of c v row :
  dict_get v (constraints c) = Some row →
  get_all_neighboring_arcs c v = Ret ((λ k, (k, v)) <$> dict_keys row)
  ∧ arcs_out_of c v ((λ k, (k, v)) <$> dict_keys row).
Proof.
  intros Hrow. unfold get_all_neighboring_arcs, subscript. rewrite Hrow. split; [done|].
  intros k v'. rewrite list_elem_of_fmap. unfold table. rewrite Hrow. simpl.
  rewrite dict_get_is_Some. split.
  - by intros (k' & ? & ?); simplify_eq.
  - intros [-> ?]. by exists k.
Qed.

(** C5, as amended.  For a variable [v] of the graph,
    [get_all_neighboring_arcs(v)] returns [(k, v)] for every key [k] of
    [constraints[v]], in their order: the pairs [(k, v)] for which a table
    from [v] to [k] is stored.  On a graph that stores a table for
    [(j, i)] whenever it stores one for [(i, j)], these are exactly the
    pairs [(k, v)] for which a table from [k] to [v] is stored. *)
Theorem neighbouring_arcs_on_mirrored_graph c v :
  v ∈ dict_keys (constraints c) → mirrored_arcs c →
  ∃ row l,
    dict_get v (constraints c) = Some row
    ∧ get_all_neighboring_arcs c v = Ret l
    ∧ l = (λ k, (k, v)) <$> dict_keys row
    ∧ arcs_out_of c v l
    ∧ arcs_into c v l.
Proof.
  intros [row Hrow]%dict_get_is_Some Hmirror.
  destruct (neighbouring_arcs_out_of c v row Hrow) as [Hret Hout].
  exists row, ((λ k, (k, v)) <$> dict_keys row). split_and!; try done.
  intros k v'. rewrite (Hout k v'), !table_is_Some.
  unfold mirrored_arcs in Hmirror. rewrite Forall_forall in Hmirror.
  split; intros [-> Harc]; (split; [done|]); apply (Hmirror _ Harc).
Qed.
End Claims.

(** * The claims on the small graphs *)

Section On_graphs.
Import Graphs.
Local Open Scope string_scope.
Local Open Scope Z_scope.

(** The small graphs are what the methods of the class build. *)
Lemma graphs_built :
  add_constraint (two_variables [1; 2] [5; 6]) "a" "b" Z.eqb = Ret equal_apart
  ∧ add_constraint (two_variables [1; 2; 3] [3]) "a" "b" Z.eqb = Ret equal_three
  ∧ add_constraint (two_variables [1] [1]) "a" "b" differ = Ret both_one
  ∧ add_constraint (two_variables [1] [2]) "a" "b" differ = Ret one_and_two
  ∧ add_all_different_constraint (two_variables [1; 2; 3] [1; 2]) ["a"; "b"] = Ret different
  ∧ add_constraint_one_way (two_variables [1; 2] [1]) "a" "b" differ = Ret one_way
  ∧ (c ← add_constraint_one_way (add_variable (two_variables [1; 2] [1]) "c" [1])
           "a" "b" differ;
     add_constraint_one_way c "a" "c" differ) = Ret one_way_three
  ∧ add_variable empty_csp EmptyString [1; 2] = nameless.
Proof. by split_and!. Qed.

(** Three solves that go as they should: one without a guess and without
    a failed branch, one that fails, and one that tries [b = 1] first, as
    [b] has fewer values left than [a]. *)
Lemma solves_as_expected :
  (backtracking_search one_and_two).1
  = (Ret (Some [("a", [1]); ("b", [2])]), bump 1 0 one_and_two)
  ∧ (backtracking_search both_one).1 = (Ret None, bump 1 1 both_one)
  ∧ (backtracking_search different).1
    = (Ret (Some [("a", [2]); ("b", [1])]), bump 3 0 different).
Proof. by split_and!. Qed.

Lemma equal_apart_mirrored : mirrored equal_apart ∧ two_way equal_apart.
Proof.
  split.
  - intros i j tbl. unfold table. simpl.
    repeat (case_decide; simpl; try done); intros ?; simplify_eq;
      (eexists; split; [done|]); intros x y; split; by intros ?%elem_of_nil.
  - unfold two_way. apply (bool_decide_unpack _). by vm_compute.
Qed.

Lemma equal_apart_unsolvable s : ¬ satisfies equal_apart s.
Proof.
  intros (Hkeys & _ & Htables).
  assert (is_Some (dict_get "a" s)) as [x Hx]
    by (apply dict_get_is_Some; rewrite Hkeys; by left).
  assert (is_Some (dict_get "b" s)) as [y Hy]
    by (apply dict_get_is_Some; rewrite Hkeys; right; by left).
  by eapply elem_of_nil, (Htables "a" "b" []).
Qed.

(** C1, where it fails.  On the graph of [a] in [1, 2] and [b] in [5, 6]
    with [a == b] stored both ways, no assignment satisfies the
    constraint, and [backtracking_search()] returns an assignment, not
    the failure value. *)
Theorem search_accepts_unsolvable_graph :
  mirrored equal_apart
  ∧ (∀ s, ¬ satisfies equal_apart s)
  ∧ (backtracking_search equal_apart).1.1 = Ret (Some [("a", [2]); ("b", [6])]).
Proof.
  split_and!; [apply equal_apart_mirrored | apply equal_apart_unsolvable | done].
Qed.

(** C2, where it fails.  On the same graph the assignment returned gives
    [a] the value [2] and [b] the value [6], and [(2, 6)] is not in the
    table stored for [(a, b)]. *)
Theorem search_returns_illegal_pair :
  ∃ s tbl,
    (backtracking_search equal_apart).1.1 = Ret (Some s)
    ∧ dict_get "a" s = Some [2] ∧ dict_get "b" s = Some [6]
    ∧ table equal_apart "a" "b" = Some tbl
    ∧ (2, 6) ∉ tbl.
Proof.
  exists [("a", [2]); ("b", [6])], []. split_and!; try done. apply not_elem_of_nil.
Qed.

(** C3, where it fails.  On the graph of [a] in [1, 2, 3] and [b] in [3]
    with [a == b], [inference] over all arcs returns with [2] still in
    the working domain of [a], though no value left to [b] pairs with
    it. *)
Theorem inference_leaves_unsupported_value :
  (inference equal_three (domains equal_three) (get_all_arcs equal_three)).1
  = Ret (true, [("a", [2; 3]); ("b", [3])])
  ∧ ¬ arc_consistent equal_three [("a", [2; 3]); ("b", [3])].
Proof.
  split; [done|]. intros Hac.
  destruct (Hac "a" "b" [(3, 3)] [2; 3] [3] 2) as (y & _ & Hy); try done; [by left|].
  by apply list_elem_of_singleton in Hy.
Qed.

(** C4, where it fails.  On the graph of [a] and [b] both in [1] with
    [a != b], revising [(a, b)] empties the working domain of [a], and
    [inference] goes on and returns true, both working domains empty. *)
Theorem inference_true_with_empty_domain :
  revise both_one (domains both_one) "a" "b" = Ret (true, [("a", []); ("b", [1])])
  ∧ (inference both_one (domains both_one) (get_all_arcs both_one)).1
    = Ret (true, [("a", []); ("b", [])]).
Proof. done. Qed.

(** C5, as stated, fails.  With [a != b] added from [a] to [b] only, a
    table is stored from [a] to [b], yet [get_all_neighboring_arcs(b)]
    is empty; and [get_all_neighboring_arcs(a)] holds [(b, a)], for which
    no table is stored. *)
Lemma neighbouring_arcs_one_way :
  get_all_neighboring_arcs one_way "b" = Ret []
  ∧ get_all_neighboring_arcs one_way "a" = Ret [("b", "a")]
  ∧ table one_way "a" "b" = Some [(2, 1)]
  ∧ table one_way "b" "a" = None
  ∧ ¬ arcs_into one_way "b" []
  ∧ ¬ arcs_into one_way "a" [("b", "a")].
Proof.
  split_and!; try done.
  - intros Hinto. eapply elem_of_nil, (Hinto "a" "b"). by split.
  - intros Hinto. destruct (proj1 (Hinto "b" "a")) as [_ [? ?]]; [by left|done].
Qed.

Lemma neighbouring_arcs_on_mirrored_graph_witness :
  ∃ row l,
    dict_get "a" (constraints different) = Some row
    ∧ get_all_neighboring_arcs different "a" = Ret l
    ∧ l = (λ k, (k, "a")) <$> dict_keys row
    ∧ arcs_out_of different "a" l
    ∧ arcs_into different "a" l.
Proof.
  apply (neighbouring_arcs_on_mirrored_graph different "a").
  - apply (bool_decide_unpack _). by vm_compute.
  - unfold mirrored_arcs. apply (bool_decide_unpack _). by vm_compute.
Defined.

(** C6, as stated, fails.  With [a != b] and [a != c] both added from [a]
    only, [backtracking_search()] returns nothing: the first [inference]
    queues [(c, a)], and [revise] raises [KeyError] looking for its
    table. *)
Lemma search_raises_on_one_way_graph :
  (backtracking_search one_way_three).1.1 = Raise (KeyError "a")
  ∧ ¬ solved_or_failure one_way_three (backtracking_search one_way_three).1.1.
Proof.
  split; [done|]. intros [?|(s & ? & _)]; done.
Qed.

(** A variable named by the empty string is taken for no variable at all
    by [if not variable], and the assignment goes back as it is. *)
Lemma search_on_nameless_variable :
  (backtracking_search nameless).1.1 = Ret (Some [(EmptyString, [1; 2])]).
Proof. done. Qed.

Lemma search_returns_solved_or_failure_witness :
  solved_or_failure different (backtracking_search different).1.1.
Proof.
  apply (search_returns_solved_or_failure different).
  - unfold two_way. apply (bool_decide_unpack _). by vm_compute.
  - unfold names_truthy. apply (bool_decide_unpack _). by vm_compute.
  - unfold is_dict. apply (bool_decide_unpack _). by vm_compute.
Defined.

Lemma revise_removes_only_unsupported_witness :
  ∃ tbl li lj li' lj',
    table equal_three "a" "b" = Some tbl
    ∧ dict_get "a" (domains equal_three) = Some li
    ∧ dict_get "b" (domains equal_three) = Some lj
    ∧ [("a", [2; 3]); ("b", [3])] = dict_set "a" li' (domains equal_three)
    ∧ dict_get "a" [("a", [2; 3]); ("b", [3])] = Some li'
    ∧ dict_get "b" [("a", [2; 3]); ("b", [3])] = Some lj'
    ∧ li' `sublist_of` li
    ∧ (∀ x, (occurrences x li' < occurrences x li)%nat →
         ∃ cur, at_check (bool_decide ("a" = "b")) lj li li' x cur
                ∧ ∀ y, y ∈ cur → (x, y) ∉ tbl)
    ∧ (∀ x y, y ∈ lj' → (x, y) ∈ tbl → occurrences x li' = occurrences x li).
Proof.
  apply (revise_removes_only_unsupported equal_three (domains equal_three) "a" "b" true).
  reflexivity.
Defined.

Lemma search_terminates_witness :
  (inference_loop 17 different (domains different) (get_all_arcs different)).1 ≠ OutOfFuel
  ∧ (inference different (domains different) (get_all_arcs different)).1 ≠ OutOfFuel
  ∧ (backtrack 6 different (domains different)).1.1 ≠ OutOfFuel
  ∧ (backtracking_search different).1.1 ≠ OutOfFuel.
Proof.
  apply (search_terminates different (domains different) (get_all_arcs different) 17 6).
  - unfold is_dict. apply (bool_decide_unpack _). by vm_compute.
  - unfold is_dict. apply (bool_decide_unpack _). by vm_compute.
  - vm_compute. lia.
  - vm_compute. lia.
Defined.
End On_graphs.


(** * Further properties *)

(** ** Building a graph *)

Section Building_facts.
Context {V : Type} `{EqDecision V}.
Implicit Types (c : CSP V) (i j : name) (f g : V → V → bool).

Lemma elem_of_get_all_possible_pairs {X Y} (a : list X) (b : list Y) x y :
  (x, y) ∈ get_all_possible_pairs a b ↔ x ∈ a ∧ y ∈ b.
Proof.
  unfold get_all_possible_pairs. rewrite list_elem_of_bind. split.
  - intros (x' & Hin & ?). apply list_elem_of_bind in Hin as (y' & Hin & ?).
    apply list_elem_of_singleton in Hin. by simplify_eq.
  - intros [? ?]. exists x. split; [|done]. apply list_elem_of_bind.
    exists y. split; [by left | done].
Qed.

Lemma table_None_row c i j row :
  dict_get i (constraints c) = Some row → table c i j = dict_get j row.
Proof. unfold table. by intros ->. Qed.

(** The three ways a call of [add_constraint_one_way] can go. *)
Lemma add_constraint_one_way_cases c i j f :
  match dict_get i (constraints c) with
  | None => add_constraint_one_way c i j f = Raise (KeyError i)
  | Some row =>
      match pairs_to_filter c i j with
      | Some base =>
          add_constraint_one_way c i j f
          = Ret (mkCSP (variables c) (domains c)
                   (dict_set i
                      (dict_set j (List.filter (λ p, f p.1 p.2) base) row)
                      (constraints c))
                   (backtrack_count c) (backtrack_failure_count c))
      | None =>
          add_constraint_one_way c i j f
          = Raise (KeyError (if dict_get i (domains c) is Some _ then j else i))
      end
  end.
Proof.
  unfold add_constraint_one_way, pairs_to_filter, subscript.
  destruct (dict_get i (constraints c)) as [row|] eqn:Hrow; simpl; [|done].
  rewrite (table_None_row c i j row Hrow).
  destruct (dict_get j row) as [pairs|]; simpl; [done|].
  destruct (dict_get i (domains c)) as [d_i|]; simpl; [|done].
  by destruct (dict_get j (domains c)) as [d_j|].
Qed.

Lemma dict_set_set {A} (d : dict A) k v v' : dict_set k v (dict_set k v' d) = dict_set k v d.
Proof.
  induction d as [|[k0 v0] d IH]; simpl.
  - by rewrite decide_True.
  - case_decide; simpl; [by rewrite decide_True|]. rewrite decide_False by done.
    by rewrite IH.
Qed.

Lemma table_dict_set c i (row : dict (list (V * V))) vs n m i' j' :
  table (mkCSP vs (domains c) (dict_set i row (constraints c)) n m) i' j'
  = if decide (i' = i) then dict_get j' row else table c i' j'.
Proof. unfold table. simpl. rewrite dict_get_set. by case_decide. Qed.

Lemma filter_filter_and {A} (p q : A → bool) (l : list A) :
  List.filter q (List.filter p l) = List.filter (λ x, p x && q x) l.
Proof.
  induction l as [|x l IH]; simpl; [done|].
  destruct (p x); simpl; [destruct (q x); by rewrite IH | done].
Qed.

(** X1.  A call [add_constraint_one_way(i, j, f)] that returns leaves for
    [(i, j)] the pairs it had to filter (the table stored before, or all
    pairs of the two static domains) that [f] accepts, in their order; the
    table of every other ordered pair, that of [(j, i)] among them, is what
    it was, and so are the variables, the static domains, the variables that
    have a row, and the counters. *)
Theorem add_constraint_one_way_effect c i j f c' :
  add_constraint_one_way c i j f = Ret c' →
  ∃ base,
    pairs_to_filter c i j = Some base
    ∧ table c' i j = Some (List.filter (λ p, f p.1 p.2) base)
    ∧ (∀ tbl x y, table c' i j = Some tbl →
         (x, y) ∈ tbl ↔ (x, y) ∈ base ∧ f x y = true)
    ∧ (∀ i' j', (i', j') ≠ (i, j) → table c' i' j' = table c i' j')
    ∧ variables c' = variables c ∧ domains c' = domains c
    ∧ dict_keys (constraints c') = dict_keys (constraints c)
    ∧ backtrack_count c' = backtrack_count c
    ∧ backtrack_failure_count c' = backtrack_failure_count c.
Proof.
  pose proof (add_constraint_one_way_cases c i j f) as Hcases.
  destruct (dict_get i (constraints c)) as [row|] eqn:Hrow; [|congruence].
  destruct (pairs_to_filter c i j) as [base|]; [|congruence].
  rewrite Hcases. intros ?; simplify_eq. exists base.
  assert (table (mkCSP (variables c) (domains c)
            (dict_set i (dict_set j (List.filter (λ p, f p.1 p.2) base) row) (constraints c))
            (backtrack_count c) (backtrack_failure_count c)) i j
          = Some (List.filter (λ p, f p.1 p.2) base)) as Htbl.
  { rewrite table_dict_set, decide_True by done. by rewrite dict_get_set, decide_True. }
  split_and!; try done.
  - intros tbl x y. rewrite Htbl. intros ?; simplify_eq.
    by rewrite list_elem_of_In, filter_In, <-list_elem_of_In.
  - intros i' j' Hne. rewrite table_dict_set. case_decide as Hi; [|done]. subst i'.
    rewrite dict_get_set, decide_False by congruence. by rewrite (table_None_row c i j' row).
  - simpl. apply dict_keys_set, dict_get_is_Some. eauto.
Qed.

(** X2.  [add_constraint_one_way(i, j, f)] raises exactly when [i] has no
    row of tables, or no table is stored yet for [(i, j)] and [i] or [j] has
    no static domain; what it raises is a [KeyError], for [i] in the first
    case and when [i] has no domain, for [j] otherwise.  The filter has no
    say in it. *)
Theorem add_constraint_one_way_raises c i j f e :
  add_constraint_one_way c i j f = Raise e ↔
  ((i ∉ dict_keys (constraints c)) ∧ e = KeyError i)
  ∨ ((i ∈ dict_keys (constraints c)) ∧ table c i j = None
     ∧ (((i ∉ dict_keys (domains c)) ∧ e = KeyError i)
        ∨ ((i ∈ dict_keys (domains c)) ∧ (j ∉ dict_keys (domains c)) ∧ e = KeyError j))).
Proof.
  pose proof (add_constraint_one_way_cases c i j f) as Hcases.
  rewrite <-!dict_get_is_Some. unfold pairs_to_filter in Hcases.
  destruct (dict_get i (constraints c)) as [row|] eqn:Hrow.
  - destruct (table c i j) as [tbl|] eqn:Htbl.
    { rewrite Hcases. split; [done|]. intros [[Hno _]|(_ & ? & _)]; [|done].
      destruct Hno. eauto. }
    destruct (dict_get i (domains c)) as [d_i|] eqn:Hi; simpl in Hcases.
    + destruct (dict_get j (domains c)) as [d_j|] eqn:Hj; simpl in Hcases; rewrite Hcases.
      * split; [done|]. intros [[Hno _]|(_ & _ & [[Hno _]|(_ & Hno & _)])];
          destruct Hno; eauto.
      * split.
        -- intros ?; simplify_eq. right. split_and!; [eauto|done|].
           right. split_and!; [eauto| |done]. by intros [? ?].
        -- intros [[Hno _]|(_ & _ & [[Hno _]|(_ & _ & ->)])]; [destruct Hno; eauto..|done].
    + rewrite Hcases. split.
      * intros ?; simplify_eq. right. split_and!; [eauto|done|].
        left. split; [|done]. by intros [? ?].
      * intros [[Hno _]|(_ & _ & [[_ ->]|([? ?] & _)])]; [destruct Hno; eauto|done|done].
  - rewrite Hcases. split.
    + intros ?; simplify_eq. left. split; [|done]. by intros [? ?].
    + intros [[_ ->]|([? ?] & _)]; done.
Qed.

(** Two calls of [add_constraint_one_way] on one ordered pair. *)
Lemma add_constraint_one_way_twice_cases c i j f g :
  match dict_get i (constraints c) with
  | None =>
      (add_constraint_one_way c i j f ≫= λ c1, add_constraint_one_way c1 i j g)
      = Raise (KeyError i)
  | Some row =>
      match pairs_to_filter c i j with
      | Some base =>
          (add_constraint_one_way c i j f ≫= λ c1, add_constraint_one_way c1 i j g)
          = Ret (mkCSP (variables c) (domains c)
                   (dict_set i
                      (dict_set j (List.filter (λ p, f p.1 p.2 && g p.1 p.2) base) row)
                      (constraints c))
                   (backtrack_count c) (backtrack_failure_count c))
      | None =>
          (add_constraint_one_way c i j f ≫= λ c1, add_constraint_one_way c1 i j g)
          = Raise (KeyError (if dict_get i (domains c) is Some _ then j else i))
      end
  end.
Proof.
  pose proof (add_constraint_one_way_cases c i j f) as Hf.
  destruct (dict_get i (constraints c)) as [row|] eqn:Hrow; [|by rewrite Hf].
  destruct (pairs_to_filter c i j) as [base|]; [|by rewrite Hf].
  rewrite Hf. simpl.
  match goal with |- add_constraint_one_way ?c1 i j g = _ =>
    pose proof (add_constraint_one_way_cases c1 i j g) as Hg;
    unfold pairs_to_filter in Hg; rewrite table_dict_set, decide_True in Hg by done;
    simpl in Hg; rewrite !dict_get_set, !decide_True in Hg by done; rewrite Hg end.
  by rewrite !dict_set_set, filter_filter_and.
Qed.

(** X3.  Constraints on one ordered pair add up, in any order: filtering
    [(i, j)] by [f] and then by [g] gives what filtering by [g] and then by
    [f] gives, graph or [KeyError]; and filtering by [f] twice gives what
    filtering by [f] once gives. *)
Theorem add_constraint_one_way_twice c i j f g :
  (add_constraint_one_way c i j f ≫= λ c1, add_constraint_one_way c1 i j g)
  = (add_constraint_one_way c i j g ≫= λ c1, add_constraint_one_way c1 i j f)
  ∧ (add_constraint_one_way c i j f ≫= λ c1, add_constraint_one_way c1 i j f)
    = add_constraint_one_way c i j f.
Proof.
  pose proof (add_constraint_one_way_twice_cases c i j f g) as Hfg.
  pose proof (add_constraint_one_way_twice_cases c i j g f) as Hgf.
  pose proof (add_constraint_one_way_twice_cases c i j f f) as Hff.
  pose proof (add_constraint_one_way_cases c i j f) as Hf.
  destruct (dict_get i (constraints c)) as [row|]; [|by rewrite Hfg, Hgf, Hff, Hf].
  destruct (pairs_to_filter c i j) as [base|]; [|by rewrite Hfg, Hgf, Hff, Hf].
  rewrite Hfg, Hgf, Hff, Hf. split; do 4 f_equal; apply filter_ext; intros [x y]; simpl.
  - apply andb_comm.
  - by destruct (f x y).
Qed.

(** The tables of a graph after [add_constraint_one_way(i, j, f)]. *)
Lemma add_constraint_one_way_tables c i j f c' :
  add_constraint_one_way c i j f = Ret c' →
  variables c' = variables c ∧ domains c' = domains c
  ∧ dict_keys (constraints c') = dict_keys (constraints c)
  ∧ ∀ i' j', table c' i' j'
             = if decide ((i', j') = (i, j))
               then List.filter (λ p, f p.1 p.2) <$> pairs_to_filter c i j
               else table c i' j'.
Proof.
  pose proof (add_constraint_one_way_cases c i j f) as Hcases.
  destruct (dict_get i (constraints c)) as [row|] eqn:Hrow; [|congruence].
  destruct (pairs_to_filter c i j) as [base|]; [|congruence].
  rewrite Hcases. intros ?; simplify_eq. split_and!; try done.
  - simpl. apply dict_keys_set, dict_get_is_Some. eauto.
  - intros i' j'. rewrite table_dict_set. case_decide as Hi.
    + subst i'. rewrite dict_get_set. case_decide as Hj.
      * subst j'. by rewrite decide_True.
      * rewrite decide_False by congruence. by rewrite (table_None_row c i j' row).
    + by rewrite decide_False by congruence.
Qed.

Lemma two_way_alt c :
  two_way c ↔
  (∀ v, v ∈ dict_keys (domains c) → v ∈ dict_keys (constraints c))
  ∧ (∀ i j, is_Some (table c i j) →
       i ∈ dict_keys (domains c) ∧ j ∈ dict_keys (domains c) ∧ is_Some (table c j i)).
Proof.
  unfold two_way. rewrite !Forall_forall. split; intros [Hrows Harcs]; (split; [done|]).
  - intros i j Hij%table_is_Some. destruct (Harcs _ Hij) as (? & ? & ?). simpl in *.
    by rewrite table_is_Some.
  - intros [i j] Hij%table_is_Some. destruct (Harcs _ _ Hij) as (? & ? & ?). simpl.
    by rewrite <-table_is_Some.
Qed.

Lemma pairs_to_filter_mirror c i j b1 b2 :
  mirrored c → pairs_to_filter c i j = Some b1 → pairs_to_filter c j i = Some b2 →
  ∀ x y, (x, y) ∈ b1 ↔ (y, x) ∈ b2.
Proof.
  intros Hm. unfold pairs_to_filter.
  destruct (table c i j) as [t|] eqn:Hij.
  - destruct (Hm i j t Hij) as (t' & -> & Ht). intros ??; by simplify_eq.
  - destruct (table c j i) as [t'|] eqn:Hji.
    { destruct (Hm j i t' Hji) as (? & ? & _). congruence. }
    destruct (dict_get i (domains c)) as [d_i|]; simpl; [|done].
    destruct (dict_get j (domains c)) as [d_j|]; simpl; [|done].
    intros ?? x y; simplify_eq. rewrite !elem_of_get_all_possible_pairs. tauto.
Qed.

Lemma pairs_to_filter_is_Some c i j :
  is_Some (pairs_to_filter c i j) ↔
  is_Some (table c i j) ∨ (i ∈ dict_keys (domains c) ∧ j ∈ dict_keys (domains c)).
Proof.
  unfold pairs_to_filter. rewrite <-!dict_get_is_Some.
  destruct (table c i j); [by split; eauto|].
  destruct (dict_get i (domains c)); simpl; [|split; [by intros [??]|]].
  - destruct (dict_get j (domains c)); simpl; [by split; eauto|].
    split; [by intros [??]|]. intros [[??]|[_ [??]]]; done.
  - intros [[??]|[[??] _]]; done.
Qed.

Lemma elem_of_filter_pairs f (l : list (V * V)) x y :
  (x, y) ∈ List.filter (λ p, f p.1 p.2) l ↔ (x, y) ∈ l ∧ f x y = true.
Proof. by rewrite list_elem_of_In, filter_In, <-list_elem_of_In. Qed.

(** Tables filtered again, both ways and by filters that agree when pair
    and arguments are swapped, out of a well-built graph. *)
Lemma refiltered_well_built c c' (touched : name → name → Prop)
    `{∀ i j, Decision (touched i j)} (filt : name → name → V → V → bool) :
  (∀ i j x y, touched i j → filt i j x y = filt j i y x) →
  (∀ i j, touched i j → touched j i) →
  (∀ i j, touched i j → i ∈ dict_keys (domains c) ∧ j ∈ dict_keys (domains c)) →
  domains c' = domains c →
  dict_keys (constraints c') = dict_keys (constraints c) →
  (∀ i j, table c' i j
          = if decide (touched i j)
            then List.filter (λ p, filt i j p.1 p.2) <$> pairs_to_filter c i j
            else table c i j) →
  well_built c → well_built c'.
Proof.
  intros Hfilt Hsym Hreg Hd Hk Htbl (Hdict & Hnames & Htwo & Hm).
  apply two_way_alt in Htwo as [Hrows Harcs].
  assert (∀ i j, touched i j → ∃ b1 b2,
    pairs_to_filter c i j = Some b1 ∧ pairs_to_filter c j i = Some b2
    ∧ table c' i j = Some (List.filter (λ p, filt i j p.1 p.2) b1)
    ∧ table c' j i = Some (List.filter (λ p, filt j i p.1 p.2) b2)) as Hboth.
  { intros i j Hij. destruct (Hreg i j Hij) as [Hi Hj].
    destruct (proj2 (pairs_to_filter_is_Some c i j)) as [b1 Hb1]; [by right|].
    destruct (proj2 (pairs_to_filter_is_Some c j i)) as [b2 Hb2]; [by right|].
    exists b1, b2. rewrite !Htbl, !decide_True, Hb1, Hb2 by auto. done. }
  assert (∀ i j, ¬ touched i j → table c' i j = table c i j ∧ table c' j i = table c j i)
    as Hnone.
  { intros i j Hij. rewrite !Htbl, !decide_False; [done| |done]. intros ?. auto. }
  split_and!.
  - by rewrite Hd.
  - unfold names_truthy. by rewrite Hd.
  - apply two_way_alt. rewrite Hd, Hk. split; [done|]. intros i j Hij.
    destruct (decide (touched i j)) as [Ht|Hnt].
    + destruct (Hreg i j Ht), (Hboth i j Ht) as (b1 & b2 & _ & _ & _ & ->). eauto.
    + destruct (Hnone i j Hnt) as [Hij' ->]. rewrite Hij' in Hij. by apply Harcs.
  - intros i j tbl Hij. destruct (decide (touched i j)) as [Ht|Hnt].
    + destruct (Hboth i j Ht) as (b1 & b2 & Hb1 & Hb2 & Hij' & ->).
      eexists. split; [done|]. intros x y. simplify_eq.
      rewrite !elem_of_filter_pairs, (pairs_to_filter_mirror c i j b1 b2 Hm Hb1 Hb2 x y).
      by rewrite (Hfilt i j x y Ht).
    + destruct (Hnone i j Hnt) as [Hij' ->]. rewrite Hij' in Hij. by apply Hm.
Qed.

(** X4.  A constraint added both ways, as the instance builders add it,
    keeps a graph well built: from a graph whose static domains form a
    dictionary without falsy names and whose tables are stored both ways and
    mirrored, [add_constraint_one_way(i, j, f)] followed by
    [add_constraint_one_way(j, i, f')], [f'] being [f] with its arguments
    swapped, gives such a graph again, in which the tables of [(i, j)] and
    [(j, i)] hold the pairs they had to filter that [f] accepts. *)
Theorem constraint_both_ways_well_built c i j f c1 c2 :
  i ≠ j → well_built c →
  add_constraint_one_way c i j f = Ret c1 →
  add_constraint_one_way c1 j i (λ y x, f x y) = Ret c2 →
  well_built c2
  ∧ table c2 i j = List.filter (λ p, f p.1 p.2) <$> pairs_to_filter c i j
  ∧ table c2 j i = List.filter (λ p, f p.2 p.1) <$> pairs_to_filter c j i
  ∧ is_Some (table c2 i j) ∧ is_Some (table c2 j i).
Proof.
  intros Hne Hc H1 H2.
  apply add_constraint_one_way_tables in H1 as (_ & Hd1 & Hk1 & Ht1).
  pose proof H2 as Hret.
  apply add_constraint_one_way_tables in H2 as (_ & Hd2 & Hk2 & Ht2).
  assert (pairs_to_filter c1 j i = pairs_to_filter c j i) as Hsame.
  { unfold pairs_to_filter. rewrite Ht1, decide_False, Hd1 by congruence. done. }
  assert (table c2 i j = List.filter (λ p, f p.1 p.2) <$> pairs_to_filter c i j) as Hij.
  { rewrite Ht2, decide_False, Ht1, decide_True by congruence. done. }
  assert (table c2 j i = List.filter (λ p, f p.2 p.1) <$> pairs_to_filter c j i) as Hji.
  { rewrite Ht2, decide_True, Hsame by congruence. done. }
  assert (is_Some (table c2 j i)) as Hsji.
  { pose proof (add_constraint_one_way_cases c1 j i (λ y x, f x y)) as Hcases.
    rewrite Hji. rewrite <-Hsame.
    destruct (dict_get j (constraints c1)); [|congruence].
    destruct (pairs_to_filter c1 j i); [by eexists | congruence]. }
  assert (is_Some (table c2 i j)) as Hsij.
  { pose proof Hc as (_ & _ & [_ Harcs]%two_way_alt & _).
    rewrite Hji in Hsji. rewrite Hij.
    destruct (pairs_to_filter c j i) as [b|] eqn:Hb; [|by destruct Hsji].
    assert (is_Some (pairs_to_filter c j i)) as Hs by eauto.
    apply pairs_to_filter_is_Some in Hs.
    assert (is_Some (pairs_to_filter c i j)) as [b' ->]; [|by eexists].
    apply pairs_to_filter_is_Some. destruct Hs as [Hs|[? ?]]; [|by right].
    left. by apply Harcs. }
  split_and!; try done.
  apply (refiltered_well_built c c2 (λ a b, (a, b) = (i, j) ∨ (a, b) = (j, i))
           (λ a b x y, if decide ((a, b) = (i, j)) then f x y else f y x)).
  - intros a b x y [?|?]; simplify_eq.
    + by rewrite decide_True, decide_False by congruence.
    + by rewrite decide_False, decide_True by congruence.
  - intros a b [?|?]; simplify_eq; auto.
  - assert (i ∈ dict_keys (domains c) ∧ j ∈ dict_keys (domains c)) as [? ?].
    { pose proof Hc as (_ & _ & [_ Harcs]%two_way_alt & _).
      rewrite Hij in Hsij. destruct (pairs_to_filter c i j) eqn:Hb; [|by destruct Hsij].
      assert (is_Some (pairs_to_filter c i j)) as [Hs|?]%pairs_to_filter_is_Some by eauto;
        [|done].
      by destruct (Harcs i j Hs) as (? & ? & _). }
    intros a b [?|?]; by simplify_eq.
  - congruence.
  - congruence.
  - intros a b. destruct (decide ((a, b) = (i, j))) as [?|Hn1]; simplify_eq.
    { by rewrite decide_True, Hij by auto. }
    destruct (decide ((a, b) = (j, i))) as [?|Hn2]; simplify_eq.
    { by rewrite decide_True, Hji by auto. }
    rewrite decide_False by (by intros [?|?]).
    by rewrite Ht2, decide_False, Ht1, decide_False.
  - done.
Qed.

Lemma dict_keys_set_fresh {A} (d : dict A) k v :
  k ∉ dict_keys d → dict_keys (dict_set k v d) = dict_keys d ++ [k].
Proof.
  unfold dict_keys. induction d as [|[k' v'] d IH]; csimpl; [done|].
  intros [? ?]%not_elem_of_cons. rewrite decide_False by done. csimpl. by rewrite IH.
Qed.

Lemma table_add_variable c n (d : list V) i j :
  table (add_variable c n d) i j = if decide (i = n) then None else table c i j.
Proof. unfold table, add_variable. simpl. rewrite dict_get_set. by case_decide. Qed.

(** X5.  [add_variable(name, domain)] never fails.  Afterwards [name] has
    the static domain [domain] and no table going out of it, every other
    variable has the domain and the outgoing tables it had (those toward
    [name] among them), and [name] is appended to [variables].  When [name]
    was a variable already, nothing tells: its domain is replaced, its
    outgoing tables are dropped while the tables toward it stay, and
    [variables] lists it once more although the dictionaries hold it
    once. *)
Theorem add_variable_effect c n (d : list V) :
  dict_get n (domains (add_variable c n d)) = Some d
  ∧ dict_get n (constraints (add_variable c n d)) = Some []
  ∧ (∀ j, table (add_variable c n d) n j = None)
  ∧ (∀ k, k ≠ n → dict_get k (domains (add_variable c n d)) = dict_get k (domains c))
  ∧ (∀ i j, i ≠ n → table (add_variable c n d) i j = table c i j)
  ∧ variables (add_variable c n d) = variables c ++ [n]
  ∧ dict_keys (domains (add_variable c n d))
    = (if decide (n ∈ dict_keys (domains c)) then dict_keys (domains c)
       else dict_keys (domains c) ++ [n])
  ∧ dict_keys (constraints (add_variable c n d))
    = (if decide (n ∈ dict_keys (constraints c)) then dict_keys (constraints c)
       else dict_keys (constraints c) ++ [n])
  ∧ backtrack_count (add_variable c n d) = backtrack_count c
  ∧ backtrack_failure_count (add_variable c n d) = backtrack_failure_count c.
Proof.
  split_and!; try done.
  - simpl. by rewrite dict_get_set, decide_True.
  - simpl. by rewrite dict_get_set, decide_True.
  - intros j. by rewrite table_add_variable, decide_True.
  - intros k Hk. simpl. by rewrite dict_get_set, decide_False.
  - intros i j Hi. by rewrite table_add_variable, decide_False.
  - simpl. case_decide; [by apply dict_keys_set | by apply dict_keys_set_fresh].
  - simpl. case_decide; [by apply dict_keys_set | by apply dict_keys_set_fresh].
Qed.

(** A new variable in a well-built graph. *)
Lemma add_variable_built c n (d : list V) :
  well_built c → n ∉ dict_keys (domains c) → truthy n = true →
  well_built (add_variable c n d)
  ∧ (∀ i j, table (add_variable c n d) i j = table c i j)
  ∧ registered (add_variable c n d) n.
Proof.
  intros (Hdict & Hnames & Htwo & Hm) Hfresh Htruthy.
  pose proof Htwo as [Hrows Harcs]%two_way_alt.
  assert (∀ j, table c n j = None) as Hnone.
  { intros j. apply eq_None_not_Some. intros Hs. by destruct (Harcs n j Hs) as (? & _). }
  assert (∀ i j, table (add_variable c n d) i j = table c i j) as Htbl.
  { intros i j. rewrite table_add_variable. case_decide; [by subst|done]. }
  assert (dict_keys (domains (add_variable c n d)) = dict_keys (domains c) ++ [n]) as Hkeys
    by (by apply dict_keys_set_fresh).
  assert (n ∈ dict_keys (constraints (add_variable c n d))) as Hrow.
  { apply dict_get_is_Some. simpl. rewrite dict_get_set, decide_True by done. eauto. }
  split_and!; [|done|split; [rewrite Hkeys; apply elem_of_app; right; by left | done]].
  split_and!.
  - unfold is_dict. rewrite Hkeys. apply NoDup_app. split_and!; [done| |apply NoDup_singleton].
    intros x ? ->%list_elem_of_singleton. done.
  - unfold names_truthy. rewrite Hkeys. apply Forall_app. split; [done|].
    by apply Forall_singleton.
  - apply two_way_alt. rewrite Hkeys. split.
    + intros v [Hv| ->%list_elem_of_singleton]%elem_of_app; [|done].
      apply dict_get_is_Some. simpl. rewrite dict_get_set. case_decide; [eauto|].
      by apply dict_get_is_Some, Hrows.
    + intros i j. rewrite !Htbl. intros (? & ? & ?)%Harcs.
      split_and!; [apply elem_of_app; by left..|done].
  - intros i j tbl. rewrite !Htbl. apply Hm.
Qed.

(** X6.  A new variable with a truthy name keeps a graph well built, and
    the new graph has the tables of the old. *)
Theorem add_variable_well_built c n (d : list V) :
  well_built c → n ∉ dict_keys (domains c) → truthy n = true →
  well_built (add_variable c n d)
  ∧ (∀ i j, table (add_variable c n d) i j = table c i j)
  ∧ registered (add_variable c n d) n.
Proof. apply add_variable_built. Qed.

Lemma registered_same c c' v :
  domains c' = domains c → dict_keys (constraints c') = dict_keys (constraints c) →
  registered c' v ↔ registered c v.
Proof. unfold registered. by intros -> ->. Qed.

Lemma add_constraint_one_way_registered c i j f :
  registered c i → registered c j → ∃ c', add_constraint_one_way c i j f = Ret c'.
Proof.
  intros [Hi Hi'] [Hj _].
  pose proof (add_constraint_one_way_cases c i j f) as Hcases.
  apply dict_get_is_Some in Hi' as [row Hrow]. rewrite Hrow in Hcases.
  destruct (proj2 (pairs_to_filter_is_Some c i j)) as [base Hbase]; [by right|].
  rewrite Hbase in Hcases. eauto.
Qed.

(** The loop of [add_all_different_constraint], over any list of pairs. *)
Lemma all_different_loop (ps : list (name * name)) c :
  (∀ i j, (i, j) ∈ ps → i ≠ j → registered c i ∧ registered c j) →
  ∃ c',
    foldl (λ (r : outcome (CSP V)) '(i, j),
             c ← r;
             if decide (i ≠ j)
             then add_constraint_one_way c i j (λ x y, bool_decide (x ≠ y))
             else Ret c) (Ret c) ps = Ret c'
    ∧ variables c' = variables c ∧ domains c' = domains c
    ∧ dict_keys (constraints c') = dict_keys (constraints c)
    ∧ ∀ i j, table c' i j
             = if decide ((i, j) ∈ ps ∧ i ≠ j)
               then List.filter (λ p, unequal p.1 p.2) <$> pairs_to_filter c i j
               else table c i j.
Proof.
  revert c. induction ps as [|[i0 j0] ps IH]; intros c Hreg.
  { exists c. by split_and!. }
  simpl. destruct (decide (i0 ≠ j0)) as [Hne|Heq].
  - destruct (Hreg i0 j0) as [Hi0 Hj0]; [by left|done|].
    destruct (add_constraint_one_way_registered c i0 j0 (λ x y, bool_decide (x ≠ y)) Hi0 Hj0)
      as [c1 Hc1].
    rewrite Hc1. apply add_constraint_one_way_tables in Hc1 as (Hv1 & Hd1 & Hk1 & Ht1).
    destruct (IH c1) as (c' & Hfold & Hv & Hd & Hk & Ht).
    { intros i j ??. rewrite !(registered_same c c1) by done. apply Hreg; [by right|done]. }
    exists c'. split_and!; try congruence. intros i j. rewrite Ht.
    assert (pairs_to_filter c1 i j
            = if decide ((i, j) = (i0, j0))
              then List.filter (λ p, unequal p.1 p.2) <$> pairs_to_filter c i j
              else pairs_to_filter c i j) as Hbase.
    { unfold pairs_to_filter at 1. rewrite Ht1, Hd1. case_decide; [|done].
      simplify_eq. destruct (proj2 (pairs_to_filter_is_Some c i0 j0)) as [base0 ->]; [|done].
      right. split; [apply Hi0 | apply Hj0]. }
    destruct (decide ((i, j) = (i0, j0))) as [?|Hn]; simplify_eq.
    + rewrite (decide_True (P := (i0, j0) ∈ (i0, j0) :: ps ∧ i0 ≠ j0))
        by (split; [by left|done]).
      case_decide.
      * rewrite Hbase. destruct (pairs_to_filter c i0 j0) as [base|]; [|done]. simpl.
        f_equal. rewrite filter_filter_and. apply filter_ext. intros [x y]; simpl.
        by destruct (unequal x y).
      * by rewrite Ht1, decide_True.
    + simpl in Hbase. rewrite Hbase, Ht1, (decide_False (P := (i, j) = (i0, j0))) by done.
      destruct (decide ((i, j) ∈ ps ∧ i ≠ j)) as [[? ?]|Hno].
      * rewrite decide_True; [done|]. split; [by right|done].
      * rewrite decide_False; [done|]. intros [[?|?]%elem_of_cons ?]; [done|]. by apply Hno.
  - apply dec_stable in Heq. subst j0.
    destruct (IH c) as (c' & Hfold & Hv & Hd & Hk & Ht).
    { intros i j ??. apply Hreg; [by right|done]. }
    exists c'. split_and!; try done. intros i j. rewrite Ht.
    destruct (decide ((i, j) ∈ ps ∧ i ≠ j)) as [[? ?]|Hno].
    + rewrite decide_True; [done|]. split; [by right|done].
    + rewrite decide_False; [done|]. intros [[?|?]%elem_of_cons ?]; [by simplify_eq|].
      by apply Hno.
Qed.

(** X7.  [add_all_different_constraint(variables)] returns when every
    variable of the list is registered, and also when the list has no two
    different names.  The table of every ordered pair of different names of
    the list is then what it had to filter (the table stored before, or all
    pairs of the two static domains) without the pairs of equal values;
    every other table, the static domains and the variables are what they
    were.  A name listed twice changes nothing. *)
Theorem add_all_different_constraint_effect c vars :
  Forall (registered c) vars ∨ (∀ i j, i ∈ vars → j ∈ vars → i = j) →
  ∃ c',
    add_all_different_constraint c vars = Ret c'
    ∧ variables c' = variables c ∧ domains c' = domains c
    ∧ dict_keys (constraints c') = dict_keys (constraints c)
    ∧ ∀ i j, table c' i j
             = if decide (i ∈ vars ∧ j ∈ vars ∧ i ≠ j)
               then List.filter (λ p, unequal p.1 p.2) <$> pairs_to_filter c i j
               else table c i j.
Proof.
  intros Hvars. unfold add_all_different_constraint.
  destruct (all_different_loop (get_all_possible_pairs vars vars) c)
    as (c' & Hfold & Hv & Hd & Hk & Ht).
  { intros i j [Hi Hj]%elem_of_get_all_possible_pairs Hne.
    destruct Hvars as [Hreg|Hsame]; [|by destruct Hne; apply Hsame].
    rewrite Forall_forall in Hreg. auto. }
  exists c'. split_and!; try done. intros i j. rewrite Ht.
  destruct (decide (i ∈ vars ∧ j ∈ vars ∧ i ≠ j)) as [(? & ? & ?)|Hno].
  - rewrite decide_True; [done|]. by rewrite elem_of_get_all_possible_pairs.
  - rewrite decide_False; [done|]. rewrite elem_of_get_all_possible_pairs.
    intros [[? ?] ?]. by apply Hno.
Qed.

(** X8.  [add_all_different_constraint] over registered variables keeps a
    graph well built, and then stores a table for every ordered pair of
    different names of the list. *)
Theorem add_all_different_constraint_well_built c vars c' :
  well_built c → Forall (registered c) vars →
  add_all_different_constraint c vars = Ret c' →
  well_built c'
  ∧ ∀ i j, i ∈ vars → j ∈ vars → i ≠ j → is_Some (table c' i j).
Proof.
  intros Hc Hreg Hret. pose proof Hreg as Hreg'. rewrite Forall_forall in Hreg'.
  unfold add_all_different_constraint in Hret.
  destruct (all_different_loop (get_all_possible_pairs vars vars) c)
    as (c0 & Hfold & Hv & Hd & Hk & Ht).
  { intros i j [Hi Hj]%elem_of_get_all_possible_pairs _. auto. }
  rewrite Hfold in Hret. simplify_eq.
  assert (∀ i j, table c' i j
                 = if decide (i ∈ vars ∧ j ∈ vars ∧ i ≠ j)
                   then List.filter (λ p, unequal p.1 p.2) <$> pairs_to_filter c i j
                   else table c i j) as Ht'.
  { intros i j. rewrite Ht.
    destruct (decide (i ∈ vars ∧ j ∈ vars ∧ i ≠ j)) as [(? & ? & ?)|Hno].
    - rewrite decide_True; [done|]. by rewrite elem_of_get_all_possible_pairs.
    - rewrite decide_False; [done|]. rewrite elem_of_get_all_possible_pairs.
      intros [[? ?] ?]. by apply Hno. }
  split.
  - apply (refiltered_well_built c c' (λ i j, i ∈ vars ∧ j ∈ vars ∧ i ≠ j)
             (λ _ _, unequal)); try done.
    + intros i j x y _. unfold unequal. apply bool_decide_ext. naive_solver.
    + intros i j (? & ? & ?). done.
    + intros i j (Hi & Hj & _). split; [by apply (Hreg' i) | by apply (Hreg' j)].
  - intros i j Hi Hj Hne. rewrite Ht', decide_True by done.
    destruct (proj2 (pairs_to_filter_is_Some c i j)) as [base ->]; [|by eexists].
    right. split; [by apply (Hreg' i) | by apply (Hreg' j)].
Qed.
End Building_facts.

(** ** The queries *)

Section Query_facts.
Context {V : Type} `{EqDecision V}.
Implicit Types (c : CSP V) (a : assignment V).

Lemma dict_get_Some_in {A} (d : dict A) k v : dict_get k d = Some v → (k, v) ∈ d.
Proof.
  induction d as [|[k' v'] d IH]; simpl; [done|].
  case_decide; intros ?; simplify_eq; [left | right; auto].
Qed.

(** X9.  [get_all_arcs()] lists the ordered pairs that have a table, and
    each of them once. *)
Theorem get_all_arcs_each_table_once c :
  is_dict (constraints c) → Forall (λ e, is_dict e.2) (constraints c) →
  NoDup (get_all_arcs c) ∧ ∀ i j, (i, j) ∈ get_all_arcs c ↔ is_Some (table c i j).
Proof.
  intros Hdict Hrows. split; [|intros i j; by rewrite table_is_Some].
  unfold get_all_arcs. apply NoDup_bind; [| |done].
  - intros i1 i2 [i j] _ _ Hin1 Hin2.
    apply list_elem_of_bind in Hin1 as (? & ?%list_elem_of_singleton & _).
    apply list_elem_of_bind in Hin2 as (? & ?%list_elem_of_singleton & _).
    congruence.
  - intros i [row Hrow]%dict_get_is_Some. rewrite Hrow. simpl.
    rewrite Forall_forall in Hrows.
    pose proof (Hrows _ (dict_get_Some_in _ _ _ Hrow)) as Hnd. simpl in Hnd.
    apply NoDup_bind; [| |done].
    + intros j1 j2 [i' j] _ _ ?%list_elem_of_singleton ?%list_elem_of_singleton.
      congruence.
    + intros j _. apply NoDup_singleton.
Qed.

(** [py_min] returns the first element of least key. *)
Lemma py_min_first (key : name → nat) best (l : list name) :
  ∃ l1 l2,
    best :: l = l1 ++ py_min key best l :: l2
    ∧ Forall (λ x, key (py_min key best l) < key x) l1
    ∧ Forall (λ x, key (py_min key best l) ≤ key x) l2.
Proof.
  revert best. induction l as [|x l IH]; intros best; simpl.
  { exists [], []. by split_and!. }
  case_decide as Hlt.
  - destruct (IH x) as (l1 & l2 & Heq & H1 & H2).
    remember (py_min key x l) as r. exists (best :: l1), l2.
    split_and!; [simpl; by rewrite <-Heq | | done]. constructor; [|done].
    destruct l1 as [|y l1]; injection Heq as Hx Hl.
    + rewrite <-Hx. done.
    + apply Forall_cons in H1 as [? _]. subst y. lia.
  - destruct (IH best) as (l1 & l2 & Heq & H1 & H2).
    remember (py_min key best l) as r.
    destruct l1 as [|y l1]; injection Heq as Hx Hl.
    + exists [], (x :: l2). subst l2. rewrite <-Hx in *. split_and!; [done|done|].
      constructor; [lia|done].
    + apply Forall_cons in H1 as [? H1]. subst y l. exists (best :: x :: l1), l2.
      split_and!; [done| |done]. repeat constructor; [done|lia|done].
Qed.

(** Where an entry that [filter] keeps sits in the list. *)
Lemma filter_fst_split {A} (P : name * A → Prop) `{∀ e, Decision (P e)}
    (d : dict A) l1 v l2 :
  (filter P d).*1 = l1 ++ v :: l2 →
  ∃ pre x post,
    d = pre ++ (v, x) :: post ∧ P (v, x)
    ∧ (filter P pre).*1 = l1 ∧ (filter P post).*1 = l2.
Proof.
  revert l1. induction d as [|[k x] d IH]; intros l1; [by destruct l1|].
  rewrite filter_cons. case_decide as HP; csimpl.
  - destruct l1 as [|k' l1]; csimpl; intros ?; simplify_eq.
    + by exists [], x, d.
    + destruct (IH l1) as (pre & x' & post & -> & ? & ? & ?); [done|].
      exists ((k', x) :: pre), x', post. rewrite filter_cons, decide_True by done.
      csimpl. split_and!; congruence.
  - intros Heq. destruct (IH l1 Heq) as (pre & x' & post & -> & ? & ? & ?).
    exists ((k, x) :: pre), x', post. rewrite filter_cons, decide_False by done.
    by split_and!.
Qed.

(** X10.  [select_unassigned_variable] follows the minimum-remaining-values
    rule: it answers [None] when no variable has more than one value left;
    otherwise it answers a variable with more than one value left, every
    undecided variable before it in the dictionary having strictly more
    values left, and every undecided variable after it at least as many:
    the first of the least. *)
Theorem select_unassigned_variable_mrv a :
  is_dict a →
  match select_unassigned_variable a with
  | None => Forall (λ e, length e.2 ≤ 1) a
  | Some v =>
      ∃ pre l post,
        a = pre ++ (v, l) :: post
        ∧ 1 < length l
        ∧ Forall (λ e, 1 < length e.2 → length l < length e.2) pre
        ∧ Forall (λ e, 1 < length e.2 → length l ≤ length e.2) post
  end.
Proof.
  intros Hdict.
  destruct (select_unassigned_variable a) as [v|] eqn:Hsel; [|by apply select_None].
  unfold select_unassigned_variable in Hsel.
  destruct ((filter _ a).*1) as [|x l] eqn:Hf; [done|]. simplify_eq.
  set (key := λ k : name, length (default [] (dict_get k a))) in *.
  destruct (py_min_first key x l) as (l1 & l2 & Heq & H1 & H2).
  rewrite Heq in Hf.
  apply filter_fst_split in Hf as (pre & vals & post & Ha & Hlen & Hpre & Hpost).
  simpl in Hlen.
  assert (∀ e, e ∈ a → key e.1 = length e.2) as Hkey.
  { intros [k vs] Hin. unfold key. simpl. by rewrite (dict_get_elem a k vs Hdict Hin). }
  assert (key (py_min key x l) = length vals) as Hmin.
  { apply (Hkey (_, vals)). rewrite Ha. apply elem_of_app. right. by left. }
  exists pre, vals, post. split_and!; [done|done| |].
  - apply Forall_forall. intros e He Hlong.
    assert (e.1 ∈ l1) as Hin.
    { rewrite <-Hpre. apply list_elem_of_fmap. exists e. split; [done|].
      by apply list_elem_of_filter. }
    rewrite Forall_forall in H1. specialize (H1 _ Hin).
    rewrite Hmin, (Hkey e) in H1; [done|]. rewrite Ha. apply elem_of_app. by left.
  - apply Forall_forall. intros e He Hlong.
    assert (e.1 ∈ l2) as Hin.
    { rewrite <-Hpost. apply list_elem_of_fmap. exists e. split; [done|].
      by apply list_elem_of_filter. }
    rewrite Forall_forall in H2. specialize (H2 _ Hin).
    rewrite Hmin, (Hkey e) in H2; [done|]. rewrite Ha. apply elem_of_app. right. by right.
Qed.
End Query_facts.

(** ** The counters *)

Section Counter_facts.
Context {V : Type} `{EqDecision V}.
Implicit Types (c : CSP V) (a : assignment V) (t : list (call V)).
Implicit Types (rec : CSP V → assignment V → run V (option (assignment V))).

Lemma backtrack_calls_app t1 t2 :
  backtrack_calls (t1 ++ t2) = (backtrack_calls t1 + backtrack_calls t2)%Z.
Proof. unfold backtrack_calls. rewrite List.filter_app, length_app. lia. Qed.

Lemma backtrack_calls_nonneg t : (0 ≤ backtrack_calls t)%Z.
Proof. unfold backtrack_calls. lia. Qed.

Lemma inference_loop_backtrack_calls fuel c a queue :
  backtrack_calls (inference_loop fuel c a queue).2 = 0%Z.
Proof.
  revert a queue. induction fuel as [|n IH]; intros a [|[x_i x_j] queue]; simpl; try done.
  destruct (revise c a x_i x_j) as [[[] a']| |]; try done.
  - destruct (subscript (domains c) x_i) as [[|??]| |]; try done.
    destruct (get_all_neighboring_arcs c x_i) as [arcs| |]; try done.
    specialize (IH a' (enqueue_neighbours arcs x_i x_j queue)).
    by destruct (inference_loop n c a' _) as [r t].
  - specialize (IH a' queue). by destruct (inference_loop n c a' _) as [r t].
Qed.

Lemma inference_backtrack_calls c a queue : backtrack_calls (inference c a queue).2 = 0%Z.
Proof.
  unfold inference.
  pose proof (inference_loop_backtrack_calls (inference_fuel c a queue) c a queue) as Hz.
  by destruct (inference_loop _ _ _ _) as [r t].
Qed.

(** The loop of [backtrack]: it counts a failure of its own only when it
    runs out of values. *)
Lemma for_value_tallied rec a variable values c :
  (∀ c' a', (rec c' a').1.1 ≠ OutOfFuel →
            tallied c' (rec c' a').1.1 (rec c' a').1.2 (rec c' a').2) →
  (for_value rec a variable values c).1.1 ≠ OutOfFuel →
  (backtrack_count (for_value rec a variable values c).1.2
   = backtrack_count c + backtrack_calls (for_value rec a variable values c).2
   ∧ backtrack_failure_count c ≤ backtrack_failure_count (for_value rec a variable values c).1.2
   ∧ ((for_value rec a variable values c).1.1 = Ret None →
        backtrack_failure_count c < backtrack_failure_count (for_value rec a variable values c).1.2
        ∧ backtrack_failure_count (for_value rec a variable values c).1.2
          ≤ backtrack_failure_count c + backtrack_calls (for_value rec a variable values c).2 + 1)
   ∧ ((for_value rec a variable values c).1.1 ≠ Ret None →
        backtrack_failure_count (for_value rec a variable values c).1.2
        ≤ backtrack_failure_count c + backtrack_calls (for_value rec a variable values c).2))%Z.
Proof.
  intros Hrec. revert c. induction values as [|value values IH]; intros c; simpl.
  { intros _. unfold backtrack_calls. simpl. split_and!; try lia; done. }
  destruct (get_all_neighboring_arcs c variable) as [neighbours| |]; simpl;
    [|intros _; unfold backtrack_calls; simpl; split_and!; try lia; done|done].
  pose proof (inference_backtrack_calls c (dict_set variable [value] a) neighbours) as Hz.
  destruct (inference c _ _) as [[[[] copy]| |] t1]; simpl in *;
    [| |intros _; rewrite Hz; split_and!; try lia; done|done].
  - specialize (Hrec c copy).
    destruct (rec c copy) as [[[[[|e l]|]| |] c'] t2]; simpl in *.
    + specialize (IH c').
      destruct (for_value rec a variable values c') as [[r c''] t3]; simpl in *.
      intros Hr. destruct (IH Hr) as (? & ? & ? & ?).
      destruct Hrec as (? & ? & ? & ? & ?); [done|].
      rewrite !backtrack_calls_app, Hz. split_and!; try lia.
      * intros ?. destruct H1; [done|]. lia.
      * intros ?. specialize (H2 ltac:(done)). lia.
    + intros _. destruct Hrec as (? & ? & ? & ? & ?); [done|].
      rewrite !backtrack_calls_app, Hz. split_and!; try lia; try done.
    + specialize (IH c').
      destruct (for_value rec a variable values c') as [[r c''] t3]; simpl in *.
      intros Hr. destruct (IH Hr) as (? & ? & ? & ?).
      destruct Hrec as (? & ? & ? & ? & ?); [done|].
      rewrite !backtrack_calls_app, Hz. split_and!; try lia.
      * intros ?. destruct H1; [done|]. lia.
      * intros ?. specialize (H2 ltac:(done)). lia.
    + intros _. destruct Hrec as (? & ? & ? & ? & ?); [done|].
      rewrite !backtrack_calls_app, Hz. split_and!; try lia; try done.
    + done.
  - specialize (IH c).
    destruct (for_value rec a variable values c) as [[r c''] t3]; simpl in *.
    intros Hr. destruct (IH Hr) as (? & ? & ? & ?).
    rewrite !backtrack_calls_app, Hz. split_and!; try lia.
    + intros ?. destruct H1; [done|]. lia.
    + intros ?. specialize (H2 ltac:(done)). lia.
Qed.

Lemma backtrack_tallied fuel c a :
  (backtrack fuel c a).1.1 ≠ OutOfFuel →
  tallied c (backtrack fuel c a).1.1 (backtrack fuel c a).1.2 (backtrack fuel c a).2.
Proof.
  revert c a. induction fuel as [|n IH]; intros c a; simpl; [done|].
  destruct (truthy_variable _) as [variable|].
  - destruct (subscript a variable) as [values| |]; simpl;
      [|intros _; unfold tallied, backtrack_calls; simpl; split_and!; try lia; done|done].
    pose proof (for_value_tallied (backtrack n) a variable values (incr_backtrack_count c)
                  (λ c' a', IH c' a')) as Hfor.
    destruct (for_value _ _ _ _ _) as [[r c'] t]; simpl in *.
    intros Hr. destruct (Hfor Hr) as (Hcount & Hle & Hnone & Hsome).
    unfold tallied.
    change (backtrack_calls (CallBacktrack a :: t)) with (backtrack_calls ([CallBacktrack a] ++ t)).
    rewrite backtrack_calls_app. change (backtrack_calls [CallBacktrack a]) with 1%Z.
    split_and!; try lia.
    + assert (r = Ret None ∨ r ≠ Ret None) as [->|Hn]
        by (destruct r as [[?|]| |]; [right|left|right|right]; done).
      * destruct Hnone; [done|lia].
      * specialize (Hsome Hn). lia.
    + intros ->. destruct Hnone; [done|lia].
    + intros s ->. specialize (Hsome ltac:(done)). lia.
  - destruct (existsb _ _); simpl; intros _; unfold tallied, backtrack_calls; simpl;
      split_and!; try lia; done.
Qed.

(** X11.  The two counters tally the search: a solve adds to
    [backtrack_count] one for every call of [backtrack] it makes, at least
    one when the first [inference] does not raise, and to
    [backtrack_failure_count] at most one for every such call; it adds at
    least one failure when it returns the failure value and fewer failures
    than calls when it returns an assignment. *)
Theorem counters_tally_the_search c :
  is_dict (domains c) →
  tallied c (backtracking_search c).1.1 (backtracking_search c).1.2 (backtracking_search c).2
  ∧ (∀ r, (backtracking_search c).1.1 = Ret r →
       (1 ≤ backtrack_calls (backtracking_search c).2)%Z).
Proof.
  intros Hdict. unfold backtracking_search.
  pose proof (inference_backtrack_calls c (domains c) (get_all_arcs c)) as Hz.
  destruct (inference_shrinks c (domains c) (get_all_arcs c)) as [_ Hshr].
  destruct (inference _ _ _) as [[[b a']| |] t1]; cbn [fst snd] in *.
  - pose proof (backtrack_tallied (backtrack_fuel a') c a') as Htally.
    pose proof (backtrack_terminates (backtrack_fuel a') c a') as Hterm.
    assert (1 ≤ backtrack_calls (backtrack (backtrack_fuel a') c a').2)%Z as Hone.
    { unfold backtrack_fuel. simpl. destruct (truthy_variable _).
      - destruct (subscript a' _); try done.
        destruct (for_value _ _ _ _ _) as [[? ?] t]. simpl.
        change (backtrack_calls (CallBacktrack a' :: t))
          with (backtrack_calls ([CallBacktrack a'] ++ t)).
        rewrite backtrack_calls_app. pose proof (backtrack_calls_nonneg t).
        change (backtrack_calls [CallBacktrack a']) with 1%Z. lia.
      - by destruct (existsb _ _). }
    destruct (backtrack _ _ _) as [[r c'] t2]; cbn [fst snd] in *.
    unfold tallied in *. rewrite !backtrack_calls_app, !Hz, !Z.add_0_l.
    split; [|intros; lia].
    apply Htally, Hterm; [by eapply shrinks_is_dict | unfold backtrack_fuel; lia].
  - split; [|done]. unfold tallied. rewrite Hz. split_and!; try lia; done.
  - split; [|done]. unfold tallied. rewrite Hz. split_and!; try lia; done.
Qed.
End Counter_facts.

(** ** Arc revision *)

Section Revision_facts.
Context {V : Type} `{EqDecision V}.
Implicit Types (c : CSP V) (a : assignment V) (l : list V) (tbl : list (V * V)).

(** X12.  What a call of [revise] comes to.  Without a table for [(i, j)],
    or with [i] or [j] missing from the assignment, it raises [KeyError];
    otherwise it returns, and its flag tells the truth: false exactly when
    the assignment is left as it was, true exactly when values were lost. *)
Theorem revise_outcome c a i j :
  match table c i j, dict_get i a, dict_get j a with
  | Some _, Some _, Some _ =>
      ∃ revised a', revise c a i j = Ret (revised, a')
        ∧ (revised = false ↔ a' = a)
        ∧ (revised = true ↔ total_size a' < total_size a)
  | Some _, Some _, None => revise c a i j = Raise (KeyError j)
  | Some _, None, _ => revise c a i j = Raise (KeyError i)
  | None, _, _ =>
      revise c a i j
      = Raise (KeyError (if dict_get i (constraints c) is Some _ then j else i))
  end.
Proof.
  destruct (table c i j) as [tbl|] eqn:Htbl.
  - destruct (dict_get i a) as [li|] eqn:Hi.
    + destruct (dict_get j a) as [lj|] eqn:Hj.
      * destruct (revise_no_raise c a i j) as (b & a' & Hrev);
          [by apply table_is_Some | apply dict_get_is_Some; eauto..|].
        exists b, a'. split; [done|]. destruct b.
        -- pose proof (revise_true _ _ _ _ _ Hrev) as Hlt.
           split; [split; [done | intros ->; lia] | by split].
        -- pose proof (revise_false _ _ _ _ _ Hrev) as ->.
           split; [done | split; [done | lia]].
      * unfold revise, table, subscript in *.
        destruct (dict_get i (constraints c)) as [row|]; simpl in *; [|done].
        rewrite Htbl, Hi, Hj. done.
    + unfold revise, table, subscript in *.
      destruct (dict_get i (constraints c)) as [row|]; simpl in *; [|done].
      rewrite Htbl, Hi. done.
  - unfold revise, table, subscript in *.
    destruct (dict_get i (constraints c)) as [row|]; simpl in *; [|done].
    by rewrite Htbl.
Qed.

Lemma py_remove_app_fresh x (pre rest : list V) :
  x ∉ pre → py_remove x (pre ++ x :: rest) = pre ++ rest.
Proof.
  induction pre as [|y pre IH]; simpl; [by rewrite decide_True|].
  intros [? ?]%not_elem_of_cons. rewrite decide_False by done. by rewrite IH.
Qed.

Lemma spaced_tail keep x l : spaced keep (x :: l) → spaced keep l.
Proof. destruct l; [done|]. by intros [_ ?]. Qed.

Lemma revise_loop_end n tbl same other idx l revised :
  length l ≤ idx → revise_loop n tbl same other idx l revised = Some (revised, l).
Proof. intros. destruct n; cbn [revise_loop]; by rewrite lookup_ge_None_2. Qed.

(** The loop of [revise] on a list whose rejected values never come two in
    a row, against the list of another variable: nothing rejected is left,
    nothing kept is lost. *)
Lemma revise_loop_spaced n tbl other pre suf revised :
  Forall (λ x, supported tbl x other = true) pre →
  spaced (λ x, supported tbl x other) suf →
  length suf ≤ n →
  revise_loop n tbl false other (length pre) (pre ++ suf) revised
  = Some (revised || negb (forallb (λ x, supported tbl x other) suf),
          pre ++ List.filter (λ x, supported tbl x other) suf).
Proof.
  revert pre suf revised. induction n as [|n IH]; intros pre suf revised Hpre Hsp Hn.
  { destruct suf; [|simpl in Hn; lia]. cbn [List.filter forallb negb].
    rewrite app_nil_r, orb_false_r. by apply revise_loop_end. }
  destruct suf as [|x suf].
  { cbn [List.filter forallb negb]. rewrite app_nil_r, orb_false_r.
    by apply revise_loop_end. }
  cbn [revise_loop]. rewrite list_lookup_middle by done. cbn [List.filter forallb].
  assert (S (length pre) = length (pre ++ [x])) as Hlen by (rewrite length_app; simpl; lia).
  destruct (supported tbl x other) eqn:Hx.
  - rewrite Hlen, (cons_middle x pre suf), app_assoc.
    rewrite IH; [|apply Forall_app; split; [done|by constructor]
                 |by eapply spaced_tail|simpl in Hn; lia].
    by rewrite <-app_assoc.
  - assert (x ∉ pre) as Hfresh.
    { intros Hin. rewrite Forall_forall in Hpre. specialize (Hpre _ Hin). congruence. }
    rewrite py_remove_app_fresh by done. rewrite orb_true_r.
    destruct suf as [|y suf].
    + rewrite app_nil_r. destruct pre as [|z pre]; [done|].
      cbn [List.filter]. rewrite app_nil_r. apply revise_loop_end. lia.
    + destruct Hsp as [[?|Hy] Hsp]; [congruence|].
      destruct (pre ++ y :: suf) as [|z l0] eqn:Hl; [by destruct pre|]. rewrite <-Hl.
      assert (S (length pre) = length (pre ++ [y])) as Hlen'
        by (rewrite length_app; simpl; lia).
      rewrite Hlen', (cons_middle y pre suf), app_assoc.
      rewrite IH; [|apply Forall_app; split; [done|by constructor]
                   |by eapply spaced_tail|simpl in Hn; lia].
      cbn [List.filter]. rewrite Hy, <-app_assoc. done.
Qed.

(** [revise] on an arc between two variables, when the values of [i]
    without a partner never come two in a row. *)
Lemma revise_spaced c a i j tbl li lj :
  i ≠ j → table c i j = Some tbl → dict_get i a = Some li → dict_get j a = Some lj →
  spaced (λ x, supported tbl x lj) li →
  revise c a i j
  = Ret (negb (forallb (λ x, supported tbl x lj) li),
         dict_set i (List.filter (λ x, supported tbl x lj) li) a).
Proof.
  intros Hne Htbl Hi Hj Hsp. unfold revise, table, subscript in *.
  destruct (dict_get i (constraints c)) as [row|]; simpl in *; [|done].
  rewrite Htbl, Hi, Hj. simpl. rewrite bool_decide_eq_false_2 by done.
  pose proof (revise_loop_spaced (length li) tbl lj [] li false) as Hloop.
  simpl in Hloop. by rewrite Hloop.
Qed.

Lemma forallb_false {A} (f : A → bool) (l : list A) :
  forallb f l = false ↔ ∃ x, x ∈ l ∧ f x = false.
Proof.
  induction l as [|x l IH]; simpl.
  - split; [intros ?; discriminate | intros (? & Hin & _); by apply elem_of_nil in Hin].
  - rewrite andb_false_iff, IH. split.
    + intros [?|(y & ? & ?)].
      * exists x. split; [by left | done].
      * exists y. split; [by right | done].
    + intros (y & Hin & ?). apply elem_of_cons in Hin as [->|?]; [by left | right; eauto].
Qed.

(** X13.  Where [revise] does what its docstring says.  On an arc between
    two different variables, when the values of [i] without a partner in the
    working domain of [j] never come two in a row in the working domain of
    [i], [revise] leaves to [i] exactly its values that have a partner, in
    their order, and answers whether there was a value without one.  (Two
    such values in a row are what the loop mishandles: it removes the first
    and steps over the second.) *)
Theorem revise_exact_when_spaced c a i j tbl li lj :
  i ≠ j → table c i j = Some tbl → dict_get i a = Some li → dict_get j a = Some lj →
  spaced (λ x, supported tbl x lj) li →
  ∃ revised li',
    revise c a i j = Ret (revised, dict_set i li' a)
    ∧ li' = List.filter (λ x, supported tbl x lj) li
    ∧ (∀ x, x ∈ li' ↔ x ∈ li ∧ ∃ y, y ∈ lj ∧ (x, y) ∈ tbl)
    ∧ (revised = true ↔ ∃ x, x ∈ li ∧ ∀ y, y ∈ lj → (x, y) ∉ tbl).
Proof.
  intros Hne Htbl Hi Hj Hsp.
  exists (negb (forallb (λ x, supported tbl x lj) li)),
         (List.filter (λ x, supported tbl x lj) li).
  split_and!; [by apply revise_spaced | done | |].
  - intros x. by rewrite list_elem_of_In, filter_In, <-list_elem_of_In, supported_true.
  - rewrite negb_true_iff, forallb_false. by setoid_rewrite supported_false.
Qed.

Lemma revise_loop_all_supported n tbl (same : bool) other idx l revised :
  Forall (λ x, supported tbl x (if same then l else other) = true) l →
  revise_loop n tbl same other idx l revised = Some (revised, l) ∨ n < length l - idx.
Proof.
  intros Hall. revert idx. induction n as [|n IH]; intros idx; cbn [revise_loop].
  - destruct (l !! idx) eqn:Hx; [right | by left]. apply lookup_lt_Some in Hx. lia.
  - destruct (l !! idx) as [x|] eqn:Hx; [|by left].
    rewrite Forall_forall in Hall. rewrite (Hall x) by (by eapply list_elem_of_lookup_2).
    destruct (IH (S idx)) as [->|?]; [by left | right; lia].
Qed.

(** On a consistent arc [revise] removes nothing. *)
Lemma revise_consistent c a i j :
  is_Some (table c i j) → i ∈ dict_keys a → j ∈ dict_keys a →
  consistent_arc c a i j → revise c a i j = Ret (false, a).
Proof.
  intros [tbl Htbl] [li Hi]%dict_get_is_Some [lj Hj]%dict_get_is_Some Hcons.
  apply revise_Ret. exists tbl, li, lj, li. split_and!; try done.
  - destruct (revise_loop_all_supported (length li) tbl (bool_decide (i = j)) lj 0 li false)
      as [?|?]; [|done|lia].
    apply Forall_forall. intros x Hx. case_bool_decide; [|by eapply Hcons].
    subst j. eapply Hcons; eauto. congruence.
  - symmetry. by apply dict_set_get.
Qed.

Lemma inference_loop_consistent fuel c a queue :
  Forall (λ ij, is_Some (table c ij.1 ij.2) ∧ ij.1 ∈ dict_keys a ∧ ij.2 ∈ dict_keys a
                ∧ consistent_arc c a ij.1 ij.2) queue →
  length queue ≤ fuel →
  (inference_loop fuel c a queue).1 = Ret (true, a).
Proof.
  revert queue. induction fuel as [|n IH]; intros [|[i j] queue] Hq Hn; simpl in *;
    try done; [lia|].
  apply Forall_cons in Hq as [(? & ? & ? & ?) Hq]. simpl in *.
  rewrite revise_consistent by done.
  specialize (IH queue Hq ltac:(lia)). by destruct (inference_loop n c a queue).
Qed.

(** X14.  When every arc of the queue is consistent in the assignment,
    [inference] returns true and leaves the assignment as it is. *)
Theorem inference_keeps_consistent_assignment c a queue :
  Forall (λ ij, is_Some (table c ij.1 ij.2) ∧ ij.1 ∈ dict_keys a ∧ ij.2 ∈ dict_keys a
                ∧ consistent_arc c a ij.1 ij.2) queue →
  (inference c a queue).1 = Ret (true, a)
  ∧ Forall (λ e, call_assignment e = a) (inference c a queue).2.
Proof.
  intros Hq. unfold inference.
  pose proof (inference_loop_consistent (inference_fuel c a queue) c a queue Hq) as Hr.
  assert (∀ fuel, Forall (λ e, call_assignment e = a) (inference_loop fuel c a queue).2)
    as Ht.
  { clear Hr. induction queue as [|[i j] queue IH]; intros [|n]; simpl; try by constructor.
    apply Forall_cons in Hq as [(? & ? & ? & ?) Hq]. simpl in *.
    rewrite revise_consistent by done. specialize (IH Hq n).
    destruct (inference_loop n c a queue). simpl in *. by constructor. }
  specialize (Ht (inference_fuel c a queue)).
  destruct (inference_loop _ _ _ _) as [r t]. simpl in *.
  split; [apply Hr; unfold inference_fuel; lia | by constructor].
Qed.
End Revision_facts.

(** ** The search on gentle graphs *)

Section Gentle_facts.
Context {V : Type} `{EqDecision V}.
Implicit Types (c : CSP V) (a : assignment V) (queue : list arc).
Implicit Types (rec : CSP V → assignment V → run V (option (assignment V))).

Ltac inference_turn n c a x_i x_j Hrev :=
  destruct (revise c a x_i x_j) as [[[] ?a]| |] eqn:Hrev; simpl;
  [ destruct (subscript (domains c) x_i) as [[|??]| |] eqn:?Hdom; simpl;
    [ | destruct (get_all_neighboring_arcs c x_i) as [?arcs| |] eqn:?Harcs; simpl;
        [ destruct (inference_loop n c _ _) as [?r ?t] eqn:?Hloop; simpl | .. ]
      | .. ]
  | destruct (inference_loop n c _ _) as [?r ?t] eqn:?Hloop; simpl
  | .. ].

Ltac for_value_turn rec variable value a c :=
  destruct (get_all_neighboring_arcs c variable) as [?neighbours| |] eqn:?Hn; simpl;
  [ destruct (inference c (dict_set variable [value] a) _)
      as [[[[] ?copy]| |] ?t1] eqn:?Hinf; simpl;
    [ destruct (rec c _) as [[[[[|??]|]| |] ?c] ?t2] eqn:?Hrec; simpl | .. ]
  | .. ].

Lemma shrinks_lookup a' a k l :
  shrinks a' a → dict_get k a = Some l → ∃ l', dict_get k a' = Some l' ∧ l' `sublist_of` l.
Proof.
  induction 1 as [|[k1 l1] [k2 l2] ?? [??]]; simpl in *; [done|]. subst.
  case_decide; [|done]. intros ?; simplify_eq. eauto.
Qed.

Lemma dead_shrinks a' a : dead a → shrinks a' a → dead a'.
Proof.
  intros [v Hv] Hshr. destruct (shrinks_lookup a' a v [] Hshr Hv) as (l' & Hl' & Hsub).
  apply sublist_nil_r in Hsub as ->. by exists v.
Qed.

Lemma enqueue_neighbours_old arcs x_i x_j queue ij :
  ij ∈ queue → ij ∈ enqueue_neighbours arcs x_i x_j queue.
Proof.
  revert queue. induction arcs as [|[x_k ?] arcs IH]; intros queue Hin; simpl; [done|].
  repeat case_decide; apply IH; try done. apply elem_of_app. by left.
Qed.

Lemma enqueue_neighbours_new arcs x_i x_j queue x_k v :
  (x_k, v) ∈ arcs → x_k ≠ x_j → (x_k, x_i) ∈ enqueue_neighbours arcs x_i x_j queue.
Proof.
  revert queue. induction arcs as [|[k ?] arcs IH]; intros queue Hin Hne;
    [by apply elem_of_nil in Hin|].
  simpl. apply elem_of_cons in Hin as [?|Hin]; simplify_eq.
  - rewrite decide_False by done. case_decide; apply enqueue_neighbours_old; [done|].
    apply elem_of_app. right. by left.
  - repeat case_decide; by apply IH.
Qed.

(** One turn of the loop of [inference] keeps the arcs propagated. *)
Lemma revise_propagates c a i j queue b a' :
  two_way c → mirrored c → gentle c → shrinks a (domains c) →
  propagated c a ((i, j) :: queue) →
  revise c a i j = Ret (b, a') →
  (b = false → propagated c a' queue)
  ∧ (b = true →
       (∃ x d, dict_get i (domains c) = Some (x :: d))
       ∧ ∀ queue', (∀ ij, ij ∈ queue → ij ∈ queue') →
           (∀ k, is_Some (table c k i) → k ≠ j → (k, i) ∈ queue') →
           propagated c a' queue').
Proof.
  intros Htwo Hm Hgentle Hshr Hprop Hrev.
  pose proof (revise_shrinks _ _ _ _ _ _ Hrev) as Hshr'.
  pose proof Hrev as (tbl & li & lj & li' & Htbl & Hi & Hj & Hloop & _)%revise_Ret.
  assert (∃ d_i d_j, dict_get i (domains c) = Some d_i ∧ dict_get j (domains c) = Some d_j
                     ∧ li `sublist_of` d_i ∧ lj `sublist_of` d_j)
    as (d_i & d_j & Hdi & Hdj & Hsi & Hsj).
  { assert (is_Some (dict_get i (domains c))) as [d_i Hdi].
    { apply dict_get_is_Some. rewrite <-(shrinks_keys _ _ Hshr). apply dict_get_is_Some. eauto. }
    assert (is_Some (dict_get j (domains c))) as [d_j Hdj].
    { apply dict_get_is_Some. rewrite <-(shrinks_keys _ _ Hshr). apply dict_get_is_Some. eauto. }
    destruct (shrinks_lookup _ _ _ _ Hshr Hdi) as (? & ? & ?).
    destruct (shrinks_lookup _ _ _ _ Hshr Hdj) as (? & ? & ?).
    simplify_eq. eauto 10. }
  destruct (Hgentle i j tbl d_i d_j Htbl Hdi Hdj) as [Hne Hspaced].
  assert (b = true → ∃ x d, dict_get i (domains c) = Some (x :: d)) as Hstatic.
  { intros ->. destruct d_i as [|x d]; [|eauto]. apply sublist_nil_r in Hsi as ->.
    rewrite revise_loop_end in Hloop by done. by simplify_eq. }
  clear Hloop.
  destruct Hprop as [Hdead|Hall].
  { split; [intros _ | intros Hb; split; [auto|intros ? _ _]]; left; by eapply dead_shrinks. }
  destruct lj as [|y0 lj0] eqn:Hlj.
  { assert (dead a') by (eapply dead_shrinks; [by exists j | done]).
    split; [intros _ | intros Hb; split; [auto|intros ? _ _]]; by left. }
  rewrite <-Hlj in *.
  pose proof (revise_spaced c a i j tbl li lj Hne Htbl Hi Hj
                (Hspaced li lj Hsi Hsj ltac:(by rewrite Hlj))) as Hexact.
  rewrite Hrev in Hexact. injection Hexact as Hb Ha'.
  assert (∀ x, x ∈ li → supported tbl x lj = true → ∃ l', dict_get i a' = Some l' ∧ x ∈ l')
    as Hkept.
  { intros x Hx Hsup. rewrite Ha', dict_get_set, decide_True by done.
    eexists. split; [done|]. by apply list_elem_of_In, filter_In; split; [apply list_elem_of_In|]. }
  assert (∀ k, k ≠ i → dict_get k a' = dict_get k a) as Hother.
  { intros k Hk. by rewrite Ha', dict_get_set, decide_False. }
  assert (consistent_arc c a' i j) as Hij.
  { intros tbl0 l1 l2 ? Hl1 Hl2 x Hx. rewrite Hother in Hl2 by done.
    rewrite Ha', dict_get_set, decide_True in Hl1 by done. simplify_eq.
    by apply list_elem_of_In, filter_In in Hx as [_ ?]. }
  assert (∀ u v, consistent_arc c a u v → v ≠ i → consistent_arc c a' u v) as Hfar.
  { intros u v Huv Hv tbl0 l1 l2 Ht Hl1 Hl2 x Hx. rewrite Hother in Hl2 by done.
    destruct (decide (u = i)) as [->|Hu].
    - rewrite Ha', dict_get_set, decide_True in Hl1 by done. simplify_eq.
      apply list_elem_of_In, filter_In in Hx as [Hx%list_elem_of_In _]. by eapply Huv.
    - rewrite Hother in Hl1 by done. by eapply Huv. }
  assert (consistent_arc c a j i → consistent_arc c a' j i) as Hback.
  { intros Hji tbl0 l1 l2 Ht Hl1 Hl2 y Hy. rewrite Hother in Hl1 by done.
    simplify_eq. specialize (Hji tbl0 _ li Ht Hj Hi y Hy).
    apply supported_true in Hji as (x & Hx & Hyx). apply supported_true.
    destruct (Hm j i tbl0 Ht) as (tbl' & Htbl' & Hswap). simplify_eq.
    destruct (Hkept x Hx) as (l' & Hl' & Hxl').
    { apply supported_true. exists y. split; [done|]. by apply Hswap. }
    exists x. split; [|done]. congruence. }
  split.
  - intros ->. right. intros u v Huv. symmetry in Hb. apply negb_false_iff in Hb.
    assert (a' = a) as -> by (by eapply revise_false).
    destruct (Hall u v Huv) as [[?|?]%elem_of_cons|?]; [|by left|by right].
    simplify_eq. right. done.
  - intros ->. split; [auto|]. intros queue' Hold Hnew. right. intros u v Huv.
    destruct (decide ((u, v) = (i, j))) as [?|Hn]; [simplify_eq; by right|].
    destruct (Hall u v Huv) as [[?|?]%elem_of_cons|Hcons]; [done|left; auto|].
    destruct (decide (v = i)) as [->|Hv]; [|right; by apply Hfar].
    destruct (decide (u = j)) as [->|Hu]; [right; by apply Hback|].
    left. by apply Hnew.
Qed.

Lemma inference_loop_propagates fuel c a queue :
  two_way c → mirrored c → gentle c → shrinks a (domains c) → propagated c a queue →
  match (inference_loop fuel c a queue).1 with
  | Ret (b, a') => b = true ∧ propagated c a' []
  | _ => True
  end.
Proof.
  intros Htwo Hm Hgentle. revert a queue.
  induction fuel as [|n IH]; intros a [|[x_i x_j] queue] Hshr Hprop; simpl; try done.
  inference_turn n c a x_i x_j Hrev; try done.
  - destruct (revise_propagates c a x_i x_j queue true _ Htwo Hm Hgentle Hshr Hprop Hrev)
      as [_ [(x & d & Hd) _]]; [done|].
    unfold subscript in Hdom. by rewrite Hd in Hdom.
  - destruct (revise_propagates c a x_i x_j queue true _ Htwo Hm Hgentle Hshr Hprop Hrev)
      as [_ [_ Hnext]]; [done|].
    apply revise_shrinks in Hrev.
    match goal with H : inference_loop _ _ ?a' ?q = _ |- _ =>
      specialize (IH a' q); rewrite H in IH end.
    apply IH; [by etrans|]. apply Hnext.
    + intros ij. apply enqueue_neighbours_old.
    + intros k Hk Hne. apply two_way_alt in Htwo as [_ Htwo].
      destruct (Htwo k x_i Hk) as (_ & _ & [tbl Htbl]).
      unfold table in Htbl. destruct (dict_get x_i (constraints c)) as [row|] eqn:Hrow; [|done].
      destruct (neighbouring_arcs_out_of c x_i row Hrow) as [Heq Hout].
      rewrite Heq in Harcs. injection Harcs as <-.
      apply (enqueue_neighbours_new _ _ _ _ _ x_i); [|done].
      apply Hout. split; [done|]. unfold table. rewrite Hrow. simpl in *. eauto.
  - destruct (revise_propagates c a x_i x_j queue false _ Htwo Hm Hgentle Hshr Hprop Hrev)
      as [Hnext _].
    apply revise_shrinks in Hrev.
    match goal with H : inference_loop _ _ ?a' ?q = _ |- _ =>
      specialize (IH a' q); rewrite H in IH end.
    apply IH; [by etrans|by apply Hnext].
Qed.

Lemma inference_propagates c a queue b a' :
  two_way c → mirrored c → gentle c → shrinks a (domains c) → propagated c a queue →
  (inference c a queue).1 = Ret (b, a') →
  b = true ∧ propagated c a' [] ∧ shrinks a' (domains c).
Proof.
  intros Htwo Hm Hgentle Hshr Hprop Hinf.
  destruct (inference_shrinks c a queue) as [_ Hres]. rewrite Hinf in Hres.
  pose proof (inference_loop_propagates (inference_fuel c a queue) c a queue
                Htwo Hm Hgentle Hshr Hprop) as Hloop.
  unfold inference in Hinf. destruct (inference_loop _ _ _ _) as [r t]. simpl in *. subst r.
  destruct Hloop. split_and!; [done..|by etrans].
Qed.

Lemma revise_keeps_part c a i j b a' a0 :
  (∀ i j, is_Some (table c i j) → i ≠ j) →
  part_of a0 a → (∀ i j, consistent_arc c a0 i j) →
  revise c a i j = Ret (b, a') → part_of a0 a'.
Proof.
  intros Hself [Hkeys Hpart] Hcons Hrev.
  pose proof (revise_shrinks _ _ _ _ _ _ Hrev) as Hkeys'%shrinks_keys.
  apply revise_Ret in Hrev as (tbl & li & lj & li' & Htbl & Hi & Hj & Hloop & ->).
  split; [congruence|]. intros v l0 x Hv Hx. rewrite dict_get_set.
  destruct (decide (v = i)) as [->|]; [|by eapply Hpart].
  destruct (Hpart i l0 x Hv Hx) as (l & Hl & Hxl). simplify_eq.
  eexists. split; [done|]. eapply revise_loop_keeps; [done..|].
  rewrite bool_decide_eq_false_2 by (apply Hself; by rewrite Htbl).
  assert (is_Some (dict_get j a0)) as [l0j Hl0j].
  { apply dict_get_is_Some. rewrite Hkeys. apply dict_get_is_Some. eauto. }
  pose proof (Hcons i j tbl l0 l0j Htbl Hv Hl0j x Hx) as (y & Hy & Hxy)%supported_true.
  destruct (Hpart j l0j y Hl0j Hy) as (? & ? & ?). simplify_eq.
  apply supported_true. eauto.
Qed.

Lemma inference_loop_keeps_part fuel c a queue a0 :
  (∀ i j, is_Some (table c i j) → i ≠ j) →
  part_of a0 a → (∀ i j, consistent_arc c a0 i j) →
  match (inference_loop fuel c a queue).1 with
  | Ret (_, a') => part_of a0 a'
  | _ => True
  end.
Proof.
  intros Hself. revert a queue.
  induction fuel as [|n IH]; intros a [|[x_i x_j] queue] Hpart Hcons; simpl; try done.
  inference_turn n c a x_i x_j Hrev; try done.
  - by eapply revise_keeps_part.
  - match goal with H : inference_loop _ _ ?a' ?q = _ |- _ =>
      specialize (IH a' q); rewrite H in IH end.
    apply IH; [by eapply revise_keeps_part|done].
  - match goal with H : inference_loop _ _ ?a' ?q = _ |- _ =>
      specialize (IH a' q); rewrite H in IH end.
    apply IH; [by eapply revise_keeps_part|done].
Qed.

(** X26.  What AC-3 keeps, skipped values or not.  On a graph without a
    table from a variable to itself, [inference] never removes a value of
    an arc-consistent part of the assignment: if [a0] has the variables of
    the assignment, holds only values the assignment holds, and every value
    it holds has a partner in it under every table, then the assignment
    that [inference] leaves still holds every value of [a0], whatever the
    queue and its order. *)
Theorem inference_keeps_arc_consistent_part c a queue a0 :
  (∀ i j, is_Some (table c i j) → i ≠ j) →
  part_of a0 a → (∀ i j, consistent_arc c a0 i j) →
  match (inference c a queue).1 with
  | Ret (_, a') => part_of a0 a'
  | _ => True
  end.
Proof.
  intros Hself Hpart Hcons.
  pose proof (inference_loop_keeps_part (inference_fuel c a queue) c a queue a0
                Hself Hpart Hcons) as Hloop.
  unfold inference. by destruct (inference_loop _ _ _ _) as [r t].
Qed.

(** X25.  AC-3 on a graph on which [revise] never meets two values in a
    row without a partner.  Run on an assignment below the static domains,
    with a queue of arcs of the graph that holds every arc not yet
    consistent, [inference] returns [True] and an assignment below the one
    it got in which some variable has no value left or every value of every
    variable has a partner under every table; this assignment holds every
    arc-consistent part of the one it got, so it is the largest such part,
    whatever the order of the queue; and it loses no value of an assignment
    that satisfies the graph. *)
Theorem inference_arc_consistent_on_gentle_graph c a queue :
  two_way c → mirrored c → gentle c → shrinks a (domains c) →
  Forall (.∈ get_all_arcs c) queue →
  (∀ i j, is_Some (table c i j) → (i, j) ∈ queue ∨ consistent_arc c a i j) →
  ∃ a', (inference c a queue).1 = Ret (true, a')
        ∧ shrinks a' a
        ∧ (dead a' ∨ arc_consistent c a')
        ∧ (∀ a0, part_of a0 a → (∀ i j, consistent_arc c a0 i j) → part_of a0 a')
        ∧ ∀ sol, satisfies c sol → contains a sol → contains a' sol.
Proof.
  intros Htwo Hm Hgentle Hshr Hqueue Hprop.
  pose proof (shrinks_keys _ _ Hshr) as Hkeys.
  destruct (inference_returns c a queue Htwo Hkeys Hqueue) as (b & a' & Hinf & Hshr').
  destruct (inference_propagates c a queue b a' Htwo Hm Hgentle Hshr) as (-> & Ha' & _);
    [by right|done|].
  exists a'. split_and!; [done|done| | |].
  - destruct Ha' as [?|Hall]; [by left|right].
    intros i j tbl li lj x Htbl Hi Hj Hx. apply supported_true.
    destruct (Hall i j) as [[]%elem_of_nil|Hcons]; [by rewrite Htbl|]. by eapply Hcons.
  - intros a0 Hpart Hcons.
    assert (∀ i j, is_Some (table c i j) → i ≠ j) as Hself.
    { intros i j [tbl Htbl]. pose proof Htwo as [_ Harcs]%two_way_alt.
      destruct (Harcs i j) as ([d_i Hi]%dict_get_is_Some & [d_j Hj]%dict_get_is_Some & _);
        [by rewrite Htbl|].
      by destruct (Hgentle i j tbl d_i d_j Htbl Hi Hj). }
    pose proof (inference_loop_keeps_part (inference_fuel c a queue) c a queue a0
                  Hself Hpart Hcons) as Hloop.
    unfold inference in Hinf. destruct (inference_loop _ _ _ _) as [r t].
    simpl in *. by subst r.
  - intros sol Hsol Hcont. by eapply (inference_keeps c a queue sol true a').
Qed.

(** Giving a variable one of its values leaves only the arcs into it to
    look at. *)
Lemma propagated_assign c a variable l value arcs :
  two_way c → propagated c a [] → dict_get variable a = Some l → value ∈ l →
  get_all_neighboring_arcs c variable = Ret arcs →
  propagated c (dict_set variable [value] a) arcs.
Proof.
  intros Htwo [[v Hv]|Hall] Hl Hvalue Harcs.
  - left. exists v. rewrite dict_get_set. case_decide; [|done].
    simplify_eq. by apply elem_of_nil in Hvalue.
  - right. intros u v Huv. destruct (decide (v = variable)) as [->|Hne].
    + left. apply two_way_alt in Htwo as [_ Htwo].
      destruct (Htwo u variable Huv) as (_ & _ & [tbl Htbl]).
      unfold table in Htbl.
      destruct (dict_get variable (constraints c)) as [row|] eqn:Hrow; [|done].
      destruct (neighbouring_arcs_out_of c variable row Hrow) as [Heq Hout].
      rewrite Heq in Harcs. injection Harcs as <-.
      apply Hout. split; [done|]. unfold table. rewrite Hrow. simpl in *. eauto.
    + right. destruct (Hall u v Huv) as [[]%elem_of_nil|Hcons].
      intros tbl l1 l2 Ht Hl1 Hl2 x Hx. rewrite dict_get_set in Hl1, Hl2.
      rewrite decide_False in Hl2 by done. case_decide; simplify_eq.
      * apply list_elem_of_singleton in Hx as ->. by eapply Hcons.
      * by eapply Hcons.
Qed.

Lemma revise_true_static c a i j a' :
  shrinks a (domains c) → revise c a i j = Ret (true, a') →
  ∃ x d, dict_get i (domains c) = Some (x :: d).
Proof.
  intros Hshr (tbl & li & lj & li' & _ & Hi & _ & Hloop & _)%revise_Ret.
  assert (is_Some (dict_get i (domains c))) as [d Hd].
  { apply dict_get_is_Some. rewrite <-(shrinks_keys _ _ Hshr). apply dict_get_is_Some. eauto. }
  destruct (shrinks_lookup _ _ _ _ Hshr Hd) as (? & ? & Hsub). simplify_eq.
  destruct d as [|x d]; [|eauto]. apply sublist_nil_r in Hsub as ->.
  rewrite revise_loop_end in Hloop by done. by simplify_eq.
Qed.

Lemma inference_loop_flag fuel c a queue :
  shrinks a (domains c) →
  match (inference_loop fuel c a queue).1 with
  | Ret (b, _) => b = true
  | _ => True
  end.
Proof.
  revert a queue. induction fuel as [|n IH]; intros a [|[x_i x_j] queue] Hshr; simpl; try done.
  inference_turn n c a x_i x_j Hrev; try done.
  - destruct (revise_true_static _ _ _ _ _ Hshr Hrev) as (x & d & Hd).
    unfold subscript in Hdom. by rewrite Hd in Hdom.
  - apply revise_shrinks in Hrev.
    match goal with H : inference_loop _ _ ?a' ?q = _ |- _ =>
      specialize (IH a' q); rewrite H in IH end.
    apply IH. by etrans.
  - apply revise_shrinks in Hrev.
    match goal with H : inference_loop _ _ ?a' ?q = _ |- _ =>
      specialize (IH a' q); rewrite H in IH end.
    apply IH. by etrans.
Qed.

(** X15.  [inference] never answers [False] on an assignment that holds,
    for every variable, values of its static domain only, as every
    assignment of a search does: the test reads the static domain of the
    revised variable, and [revise] revises nothing when that is empty.  A
    branch that leaves a variable without a value is given up only by the
    [backtrack] call that follows. *)
Theorem inference_never_false_below_static_domains c a queue :
  shrinks a (domains c) →
  match (inference c a queue).1 with
  | Ret (flag, _) => flag = true
  | _ => True
  end.
Proof.
  intros Hshr.
  pose proof (inference_loop_flag (inference_fuel c a queue) c a queue Hshr) as Hloop.
  unfold inference. by destruct (inference_loop _ _ _ _) as [r t].
Qed.

Lemma two_way_same c c' : same_graph c c' → two_way c' → two_way c.
Proof. intros Hs%same_graph_bump H. rewrite Hs in H. exact H. Qed.

Lemma mirrored_same c c' : same_graph c c' → mirrored c → mirrored c'.
Proof. intros Hs%same_graph_bump H. rewrite Hs. exact H. Qed.

Lemma gentle_same c c' : same_graph c c' → gentle c → gentle c'.
Proof. intros Hs%same_graph_bump H. rewrite Hs. exact H. Qed.

Lemma propagated_same c c' a queue :
  same_graph c c' → propagated c a queue → propagated c' a queue.
Proof. intros Hs%same_graph_bump H. rewrite Hs. exact H. Qed.

Lemma settled_same c c' s : same_graph c c' → settled c' s → settled c s.
Proof. intros Hs%same_graph_bump H. rewrite Hs in H. exact H. Qed.

Lemma for_value_settled rec a variable values c l :
  (∀ c' a', advanced c' (rec c' a').1.2) →
  (∀ c' a', two_way c' → mirrored c' → gentle c' →
            shrinks a' (domains c') → propagated c' a' [] →
            ∀ s, (rec c' a').1.1 = Ret (Some s) → settled c' s) →
  two_way c → mirrored c → gentle c →
  shrinks a (domains c) → propagated c a [] →
  dict_get variable a = Some l → Forall (.∈ l) values →
  ∀ s, (for_value rec a variable values c).1.1 = Ret (Some s) → settled c s.
Proof.
  intros Hadv Hrec. revert c.
  induction values as [|value values IH];
    intros c Htwo Hm Hgentle Hshr Hprop Hl Hvalues s; simpl; [done|].
  apply Forall_cons in Hvalues as [Hvalue Hvalues].
  assert (∀ c', advanced c c' →
            ∀ s, (for_value rec a variable values c').1.1 = Ret (Some s) → settled c s)
    as Hnext.
  { intros c' Hc'%advanced_same_graph s' Hs'. apply (settled_same c c'); [done|].
    apply IH; try done.
    - by eapply two_way_same_graph.
    - by eapply mirrored_same.
    - by eapply gentle_same.
    - destruct Hc' as (_ & -> & _). done.
    - by eapply propagated_same. }
  assert (variable ∈ dict_keys a) as Hvar by (apply dict_get_is_Some; eauto).
  for_value_turn rec variable value a c; try done.
  all: try match goal with H : inference ?c0 ?a0 ?q = (Ret (?b, ?a1), _) |- _ =>
         destruct (inference_propagates c0 a0 q b a1) as (Hb & Hcopy & Hshr');
           [done|done|done
           |etrans; [|done]; by eapply shrinks_dict_set, singleton_sublist
           |by eapply propagated_assign
           |by rewrite H
           |] end.
  all: try discriminate.
  all: specialize (Hadv c copy); specialize (Hrec c copy Htwo Hm Hgentle Hshr' Hcopy).
  all: rewrite Hrec0 in Hadv, Hrec; cbn [fst snd] in *.
  - intros ?; simplify_eq. specialize (Hnext _ Hadv s).
    destruct (for_value rec a variable values c0) as [[r c''] t3]. by apply Hnext.
  - intros ?; simplify_eq. by apply Hrec.
  - intros ?; simplify_eq. specialize (Hnext _ Hadv s).
    destruct (for_value rec a variable values c0) as [[r c''] t3]. by apply Hnext.
Qed.

Lemma settled_advanced c a :
  settled (incr_backtrack_count c) a → settled c a.
Proof. done. Qed.

Lemma backtrack_settled fuel c a :
  two_way c → mirrored c → gentle c →
  shrinks a (domains c) → propagated c a [] →
  ∀ s, (backtrack fuel c a).1.1 = Ret (Some s) → settled c s.
Proof.
  revert c a. induction fuel as [|n IH];
    intros c a Htwo Hm Hgentle Hshr Hprop s; simpl; [done|].
  destruct (truthy_variable _) as [variable|] eqn:Hsel.
  - apply truthy_variable_Some in Hsel as [(l & Hin & Hlen)%select_Some _].
    assert (variable ∈ dict_keys a) as Hk
      by (apply list_elem_of_fmap; by exists (variable, l)).
    pose proof Hk as [values Hvalues]%dict_get_is_Some.
    unfold subscript. rewrite Hvalues. simpl.
    pose proof (for_value_settled (backtrack n) a variable values (incr_backtrack_count c)
                  values (λ c' a', backtrack_advanced n c' a') IH) as Hfor.
    destruct (for_value _ _ _ _ _) as [[r c'] t]. simpl. intros ->.
    apply settled_advanced, Hfor; try done. by apply Forall_forall.
  - destruct (existsb _ _) eqn:Hempty; [done|]. simpl. intros ?; simplify_eq.
    assert (¬ dead s) as Halive.
    { intros [v Hv]. apply not_true_iff_false in Hempty. apply Hempty.
      apply existsb_exists. exists []. split; [|done].
      apply list_elem_of_In, list_elem_of_fmap. exists (v, []).
      split; [done|]. by apply dict_get_Some_in. }
    split_and!; [done|done|]. intros i j.
    destruct Hprop as [?|Hall]; [done|].
    destruct (table c i j) as [tbl|] eqn:Htbl.
    + destruct (Hall i j) as [[]%elem_of_nil|?]; [by rewrite Htbl|done].
    + intros ? ? ? ?. congruence.
Qed.

Lemma search_settled c s :
  two_way c → mirrored c → gentle c →
  (backtracking_search c).1.1 = Ret (Some s) → settled c s.
Proof.
  intros Htwo Hm Hgentle. unfold backtracking_search.
  destruct (inference c (domains c) (get_all_arcs c)) as [[[b a']| |] t1] eqn:Hinf;
    [|done..].
  destruct (inference_propagates c (domains c) (get_all_arcs c) b a')
    as (_ & Hprop & Hshr); [done..| | by rewrite Hinf |].
  { right. intros i j Hij. left. by apply table_is_Some. }
  pose proof (backtrack_settled (backtrack_fuel a') c a' Htwo Hm Hgentle Hshr Hprop s).
  destruct (backtrack _ _ _) as [[r c'] t2]. cbn [fst snd] in *. done.
Qed.

Lemma shrinks_lookup_inv a' a k l' :
  shrinks a' a → dict_get k a' = Some l' → ∃ l, dict_get k a = Some l ∧ l' `sublist_of` l.
Proof.
  induction 1 as [|[k1 l1] [k2 l2] ?? [??]]; simpl in *; [done|]. subst.
  case_decide; [|done]. intros ?; simplify_eq. eauto.
Qed.

Lemma chosen_keys (s : assignment V) : solved s → dict_keys (chosen s) = dict_keys s.
Proof.
  unfold solved, chosen, dict_keys.
  induction 1 as [|[k [|x [|??]]] s Hlen _ IH]; simpl in *; try done. by f_equal.
Qed.

Lemma chosen_lookup (s : assignment V) v x :
  solved s → dict_get v (chosen s) = Some x → dict_get v s = Some [x].
Proof.
  unfold solved, chosen.
  induction 1 as [|[k [|y [|??]]] s Hlen _ IH]; simpl in *; try done.
  case_decide; [by intros ?; simplify_eq | done].
Qed.

(** A settled assignment with one value for every variable satisfies the
    graph. *)
Lemma settled_satisfies c s : solved s → settled c s → satisfies c (chosen s).
Proof.
  intros Hsolved (Hshr & _ & Hcons). split_and!.
  - rewrite chosen_keys by done. by apply shrinks_keys.
  - intros v x Hx%chosen_lookup; [|done].
    destruct (shrinks_lookup_inv _ _ _ _ Hshr Hx) as (d & Hd & Hsub).
    exists d. split; [done|]. eapply elem_of_sublist; [|done]. by left.
  - intros i j tbl x y Htbl Hx%chosen_lookup Hy%chosen_lookup; [|done..].
    specialize (Hcons i j tbl [x] [y] Htbl Hx Hy x ltac:(by left)).
    apply supported_true in Hcons as (y' & ->%list_elem_of_singleton & ?). done.
Qed.

(** The search on a well-built gentle graph. *)
Lemma search_decides_gentle c :
  well_built c → gentle c →
  match (backtracking_search c).1.1 with
  | Ret (Some s) => solved s ∧ satisfies c (chosen s)
  | Ret None => ∀ sol, ¬ satisfies c sol
  | _ => False
  end.
Proof.
  intros (Hdict & Hnames & Htwo & Hm) Hgentle.
  pose proof (search_settled c) as Hsettled.
  pose proof (λ sol H, search_finds_a_result_when_solvable c sol H Hdict) as Hfinds.
  assert (fine (backtracking_search c).1 ∧ (backtracking_search c).1.1 ≠ OutOfFuel)
    as [Hfine Hterm].
  { unfold backtracking_search.
    destruct (inference_returns c (domains c) (get_all_arcs c) Htwo eq_refl)
      as (b & a' & Hinf & Hshr); [by apply Forall_forall|].
    destruct (inference _ _ _) as [r1 t1]; cbn [fst snd] in *; subst r1.
    pose proof (shrinks_keys _ _ Hshr) as Hkeys.
    pose proof (backtrack_fine (backtrack_fuel a') c a' Htwo Hnames Hkeys) as Hfine.
    pose proof (backtrack_terminates (backtrack_fuel a') c a') as Hterm.
    destruct (backtrack _ _ _) as [[r c'] t2]; cbn [fst snd] in *.
    split; [done|]. apply Hterm; [by eapply shrinks_is_dict | unfold backtrack_fuel; lia]. }
  unfold fine in Hfine.
  destruct ((backtracking_search c).1.1) as [[s|]|e|]; [|..|done|done].
  - split; [done|]. apply settled_satisfies; auto.
  - intros sol Hsol. by destruct (Hfinds sol) as [r Hr].
Qed.

(** X16.  On a well-built graph on which [revise] never meets two values
    in a row without a partner, [backtracking_search()] decides the problem:
    it returns, and what it returns is either an assignment with one value
    for every variable, the values taken from the static domains and every
    stored table holding the pair of values of its two variables, or the
    failure value, and this only when no assignment satisfies the tables. *)
Theorem search_decides_gentle_graph c :
  well_built c → gentle c →
  match (backtracking_search c).1.1 with
  | Ret (Some s) => solved s ∧ satisfies c (chosen s)
  | Ret None => ∀ sol, ¬ satisfies c sol
  | _ => False
  end.
Proof. apply search_decides_gentle. Qed.

(** All-different tables leave at most one value without a partner. *)
Lemma difference_gentle c : difference_graph c → gentle c.
Proof.
  intros [Hnodup Htables] i j tbl d_i d_j Htbl Hi Hj.
  destruct (Htables i j tbl Htbl) as (Hne & ? & ? & ? & ? & Hpairs). simplify_eq.
  split; [done|]. intros li lj Hli Hlj Hnonempty.
  assert (NoDup li) as Hli_nodup.
  { eapply sublist_NoDup; [|exact Hli]. rewrite Forall_forall in Hnodup.
    by apply (Hnodup (i, d_i)), dict_get_Some_in. }
  destruct lj as [|z lj]; [done|]. clear Hnonempty.
  assert (∀ x, x ∈ li → supported tbl x (z :: lj) = false → x = z) as Hsame.
  { intros x Hx Hsup. destruct (decide (x = z)) as [|Hxz]; [done|].
    rewrite supported_false in Hsup. destruct (Hsup z); [by left|].
    apply Hpairs. split_and!; [|by eapply elem_of_sublist; [left|]|done].
    by eapply elem_of_sublist. }
  clear Hli. induction li as [|x [|y li] IH]; [done..|].
  apply NoDup_cons in Hli_nodup as [Hx Hrest]. split.
  - destruct (supported tbl x (z :: lj)) eqn:Hkx; [by left|].
    destruct (supported tbl y (z :: lj)) eqn:Hky; [by right|].
    destruct Hx. rewrite (Hsame x), (Hsame y); [by left|by right; left|done|by left|done].
  - apply IH; [done|]. intros ???. apply Hsame; [by right|done].
Qed.

(** X17.  A graph of all-different constraints over static domains without
    repeated values is one on which [revise] never meets two values in a
    row without a partner: with a value left to the other variable, at most
    one value of a domain has no different value to go with. *)
Theorem difference_graph_gentle c : difference_graph c → gentle c.
Proof. apply difference_gentle. Qed.

Lemma dict_set_fresh {A} (d : dict A) k v : k ∉ dict_keys d → dict_set k v d = d ++ [(k, v)].
Proof.
  unfold dict_keys. induction d as [|[k' v'] d IH]; csimpl; [done|].
  intros [? ?]%not_elem_of_cons. rewrite decide_False by done. by rewrite IH.
Qed.

Lemma add_variable_difference c n (d : list V) :
  difference_graph c → n ∉ dict_keys (domains c) → NoDup d →
  difference_graph (add_variable c n d).
Proof.
  intros [Hnodup Htables] Hfresh Hd. split.
  - simpl. rewrite dict_set_fresh by done. apply Forall_app. split; [done|].
    by apply Forall_singleton.
  - intros i j tbl. rewrite table_add_variable. case_decide; [done|].
    intros (Hne & d_i & d_j & Hi & Hj & Hpairs)%Htables. split; [done|].
    exists d_i, d_j. simpl. rewrite !dict_get_set. split_and!; [| |done].
    + by rewrite decide_False.
    + rewrite decide_False; [done|]. intros ->. apply Hfresh, dict_get_is_Some. eauto.
Qed.

(** Tables filtered again by the test for different values, out of a graph
    of all-different constraints. *)
Lemma refiltered_difference c c' (touched : name → name → Prop)
    `{∀ i j, Decision (touched i j)} :
  (∀ i j, touched i j → i ≠ j) →
  domains c' = domains c →
  (∀ i j, table c' i j
          = if decide (touched i j)
            then List.filter (λ p, unequal p.1 p.2) <$> pairs_to_filter c i j
            else table c i j) →
  difference_graph c → difference_graph c'.
Proof.
  intros Hne Hd Htbl [Hnodup Htables]. split; [by rewrite Hd|].
  intros i j tbl. rewrite Htbl, Hd. case_decide as Ht; [|by apply Htables].
  unfold pairs_to_filter. destruct (table c i j) as [base|] eqn:Hbase; simpl.
  - intros ?; simplify_eq.
    destruct (Htables i j base Hbase) as (? & d_i & d_j & ? & ? & Hpairs).
    split; [done|]. exists d_i, d_j. split_and!; [done..|]. intros x y.
    rewrite elem_of_filter_pairs, Hpairs. unfold unequal. rewrite bool_decide_eq_true.
    tauto.
  - destruct (dict_get i (domains c)) as [d_i|]; simpl; [|done].
    destruct (dict_get j (domains c)) as [d_j|]; simpl; [|done].
    intros ?; simplify_eq. split; [by apply Hne|]. exists d_i, d_j.
    split_and!; [done..|]. intros x y.
    rewrite elem_of_filter_pairs, elem_of_get_all_possible_pairs. unfold unequal.
    rewrite bool_decide_eq_true. tauto.
Qed.

Lemma add_different_one_way_difference c i j c' :
  i ≠ j → difference_graph c →
  add_constraint_one_way c i j (λ x y, bool_decide (x ≠ y)) = Ret c' →
  difference_graph c'.
Proof.
  intros Hne Hc (_ & Hd & _ & Ht)%add_constraint_one_way_tables.
  apply (refiltered_difference c c' (λ i' j', (i', j') = (i, j))
           (H := λ i' j', decide ((i', j') = (i, j)))); [|done| |done].
  - intros ???; by simplify_eq.
  - intros i' j'. rewrite Ht. destruct (decide ((i', j') = (i, j))); [|done].
    by simplify_eq.
Qed.

Lemma all_different_difference c vars c' :
  difference_graph c → Forall (registered c) vars →
  add_all_different_constraint c vars = Ret c' →
  difference_graph c'.
Proof.
  intros Hc Hreg Hret. rewrite Forall_forall in Hreg.
  unfold add_all_different_constraint in Hret.
  destruct (all_different_loop (get_all_possible_pairs vars vars) c)
    as (c0 & Hfold & Hv & Hd & Hk & Ht).
  { intros i j [Hi Hj]%elem_of_get_all_possible_pairs _. auto. }
  rewrite Hfold in Hret. simplify_eq.
  apply (refiltered_difference c c'
           (λ i j, (i, j) ∈ get_all_possible_pairs vars vars ∧ i ≠ j)
           (H := λ i j, decide ((i, j) ∈ get_all_possible_pairs vars vars ∧ i ≠ j)));
    try done.
  by intros ?? [_ ?].
Qed.

(** X18.  The builders keep a graph one of all-different constraints:
    [add_variable] of a new name with a domain without repeated values,
    [add_constraint_one_way] between two different variables with the test
    for different values, and [add_all_different_constraint] over
    registered variables. *)
Theorem builders_keep_difference_graph c :
  difference_graph c →
  (∀ n d, n ∉ dict_keys (domains c) → NoDup d → difference_graph (add_variable c n d))
  ∧ (∀ i j c', i ≠ j →
       add_constraint_one_way c i j (λ x y, bool_decide (x ≠ y)) = Ret c' →
       difference_graph c')
  ∧ (∀ vars c', Forall (registered c) vars →
       add_all_different_constraint c vars = Ret c' → difference_graph c').
Proof.
  intros Hc. split_and!.
  - intros. by apply add_variable_difference.
  - intros. by eapply add_different_one_way_difference.
  - intros. by eapply all_different_difference.
Qed.
End Gentle_facts.

(** ** Graphs of all-different constraints, as the instance builders make them *)

Section Instance_facts.
Context {V : Type} `{EqDecision V}.
Implicit Types (c : CSP V) (linked : name → name → bool).

Lemma empty_csp_built :
  well_built (empty_csp : CSP V) ∧ difference_graph (empty_csp : CSP V)
  ∧ linked_by (empty_csp : CSP V) (λ _ _, false).
Proof.
  split_and!; [split_and!|split|]; try done; try by constructor.
Qed.

Lemma registered_add_variable c n (d : list V) v :
  registered c v → registered (add_variable c n d) v.
Proof.
  unfold registered. rewrite <-!dict_get_is_Some. simpl. rewrite !dict_get_set.
  intros [? ?]. split; by case_decide.
Qed.

(** Variables added one after the other, with new names. *)
Lemma add_variables_built (l : list (name * list V)) c :
  well_built c → difference_graph c →
  NoDup l.*1 →
  Forall (λ e, (e.1 ∉ dict_keys (domains c)) ∧ truthy e.1 = true ∧ NoDup e.2) l →
  well_built (foldl (λ c e, add_variable c e.1 e.2) c l)
  ∧ difference_graph (foldl (λ c e, add_variable c e.1 e.2) c l)
  ∧ variables (foldl (λ c e, add_variable c e.1 e.2) c l) = variables c ++ l.*1
  ∧ domains (foldl (λ c e, add_variable c e.1 e.2) c l) = domains c ++ l
  ∧ (∀ i j, table (foldl (λ c e, add_variable c e.1 e.2) c l) i j = table c i j)
  ∧ Forall (registered (foldl (λ c e, add_variable c e.1 e.2) c l)) l.*1
  ∧ (∀ v, registered c v → registered (foldl (λ c e, add_variable c e.1 e.2) c l) v).
Proof.
  revert c. induction l as [|[n d] l IH]; intros c Hc Hdiff Hnames Hl; simpl.
  { rewrite !app_nil_r. split_and!; try done. }
  apply NoDup_cons in Hnames as [Hn Hnames].
  apply Forall_cons in Hl as [(Hfresh & Htruthy & Hd) Hl]. simpl in *.
  destruct (add_variable_built c n d Hc Hfresh Htruthy) as (Hc1 & Ht1 & Hr1).
  pose proof (add_variable_difference c n d Hdiff Hfresh Hd) as Hdiff1.
  assert (domains (add_variable c n d) = domains c ++ [(n, d)]) as Hd1
    by (by apply dict_set_fresh).
  destruct (IH (add_variable c n d)) as (? & ? & Hv & Hdom & Ht & Hreg & Hkeep);
    [done..| |].
  { rewrite Forall_forall in Hl |- *. intros [n' d'] Hin.
    destruct (Hl _ Hin) as (? & ? & ?). split_and!; [|done..]. simpl in *.
    rewrite Hd1. unfold dict_keys. rewrite fmap_app. simpl.
    intros [?| ->%list_elem_of_singleton]%elem_of_app; [done|].
    apply Hn. apply list_elem_of_fmap. by exists (n, d'). }
  split_and!; try done.
  - rewrite Hv. simpl. by rewrite <-app_assoc.
  - rewrite Hdom, Hd1. by rewrite <-app_assoc.
  - intros i j. by rewrite Ht, Ht1.
  - constructor; [by apply Hkeep|done].
  - intros v Hv'. by apply Hkeep, registered_add_variable.
Qed.

Lemma full_table_same c c' i j : domains c' = domains c → full_table c' i j = full_table c i j.
Proof. unfold full_table. by intros ->. Qed.

Lemma filter_unequal_twice (l : list (V * V)) :
  List.filter (λ p, unequal p.1 p.2) (List.filter (λ p, bool_decide (p.1 ≠ p.2)) l)
  = List.filter (λ p, bool_decide (p.1 ≠ p.2)) l.
Proof.
  rewrite filter_filter_and. apply filter_ext. intros [x y]. unfold unequal. simpl.
  by destruct (bool_decide (x ≠ y)).
Qed.

(** What a call filters in a graph of all-different constraints. *)
Lemma refiltered_full_table c linked i j :
  linked_by c linked → registered c i → registered c j →
  List.filter (λ p, unequal p.1 p.2) <$> pairs_to_filter c i j = full_table c i j.
Proof.
  intros Hlinked [Hi _] [Hj _]. unfold pairs_to_filter. rewrite Hlinked.
  apply dict_get_is_Some in Hi as [d_i Hi]. apply dict_get_is_Some in Hj as [d_j Hj].
  unfold full_table. rewrite Hi, Hj. simpl.
  destruct (linked i j); simpl; [by rewrite filter_unequal_twice | done].
Qed.

(** One all-different constraint in a graph of all-different constraints. *)
Lemma all_different_built c linked vars :
  well_built c → difference_graph c → linked_by c linked →
  Forall (registered c) vars →
  ∃ c', add_all_different_constraint c vars = Ret c'
    ∧ well_built c' ∧ difference_graph c'
    ∧ linked_by c' (λ i j, linked i j || bool_decide (i ∈ vars ∧ j ∈ vars ∧ i ≠ j))
    ∧ variables c' = variables c ∧ domains c' = domains c
    ∧ dict_keys (constraints c') = dict_keys (constraints c).
Proof.
  intros Hc Hdiff Hlinked Hreg. pose proof Hreg as Hreg'. rewrite Forall_forall in Hreg'.
  unfold add_all_different_constraint.
  destruct (all_different_loop (get_all_possible_pairs vars vars) c)
    as (c' & Hfold & Hv & Hd & Hk & Ht).
  { intros i j [Hi Hj]%elem_of_get_all_possible_pairs _. auto. }
  exists c'. split; [done|].
  assert (∀ i j, table c' i j
                 = if decide (i ∈ vars ∧ j ∈ vars ∧ i ≠ j)
                   then List.filter (λ p, unequal p.1 p.2) <$> pairs_to_filter c i j
                   else table c i j) as Ht'.
  { intros i j. rewrite Ht.
    destruct (decide (i ∈ vars ∧ j ∈ vars ∧ i ≠ j)) as [(? & ? & ?)|Hno].
    - rewrite decide_True; [done|]. by rewrite elem_of_get_all_possible_pairs.
    - rewrite decide_False; [done|]. rewrite elem_of_get_all_possible_pairs.
      intros [[? ?] ?]. by apply Hno. }
  split_and!; try done.
  - apply (refiltered_well_built c c' (λ i j, i ∈ vars ∧ j ∈ vars ∧ i ≠ j)
             (λ _ _, unequal) (H := λ i j, decide (i ∈ vars ∧ j ∈ vars ∧ i ≠ j))); try done.
    + intros i j x y _. unfold unequal. apply bool_decide_ext. naive_solver.
    + intros i j (? & ? & ?). done.
    + intros i j (Hi & Hj & _). split; [by apply (Hreg' i) | by apply (Hreg' j)].
  - apply (refiltered_difference c c' (λ i j, i ∈ vars ∧ j ∈ vars ∧ i ≠ j)
             (H := λ i j, decide (i ∈ vars ∧ j ∈ vars ∧ i ≠ j))); try done.
    by intros ?? (_ & _ & ?).
  - intros i j. rewrite Ht', (full_table_same c c') by done.
    destruct (decide (i ∈ vars ∧ j ∈ vars ∧ i ≠ j)) as [(Hi & Hj & Hne)|Hno].
    + rewrite bool_decide_eq_true_2, orb_true_r by done.
      apply (refiltered_full_table c linked); auto.
    + rewrite bool_decide_eq_false_2, orb_false_r by done. apply Hlinked.
Qed.

Lemma share_group_cons vars groups i j :
  share_group (vars :: groups) i j
  = bool_decide (i ∈ vars ∧ j ∈ vars ∧ i ≠ j) || share_group groups i j.
Proof.
  unfold share_group. apply eq_true_iff_eq.
  rewrite orb_true_iff, !bool_decide_eq_true, Exists_cons. tauto.
Qed.

(** One all-different constraint after the other. *)
Lemma all_different_groups (groups : list (list name)) c linked :
  well_built c → difference_graph c → linked_by c linked →
  Forall (Forall (registered c)) groups →
  ∃ c', foldl (λ (r : outcome (CSP V)) vars, c ← r; add_all_different_constraint c vars)
          (Ret c) groups = Ret c'
    ∧ well_built c' ∧ difference_graph c'
    ∧ linked_by c' (λ i j, linked i j || share_group groups i j)
    ∧ variables c' = variables c ∧ domains c' = domains c.
Proof.
  revert c linked.
  induction groups as [|vars groups IH]; intros c linked Hc Hdiff Hlinked Hreg; simpl.
  { exists c. split_and!; try done. intros i j. rewrite Hlinked.
    unfold share_group. rewrite bool_decide_eq_false_2, orb_false_r; [done|].
    by intros [_ ?%Exists_nil]. }
  apply Forall_cons in Hreg as [Hvars Hreg].
  destruct (all_different_built c linked vars) as (c1 & -> & Hc1 & Hdiff1 & Hl1 & Hv1 & Hd1 & Hk1);
    [done..|].
  destruct (IH c1 _ Hc1 Hdiff1 Hl1) as (c' & Hfold & ? & ? & Hl & Hv & Hd).
  { eapply Forall_impl; [done|]. intros g Hg. eapply Forall_impl; [done|].
    intros v. by rewrite (registered_same c c1). }
  exists c'. split_and!; try done; try congruence.
  intros i j. rewrite Hl, share_group_cons. by rewrite orb_assoc.
Qed.

(** One constraint of different values, added both ways. *)
Lemma different_both_ways_built c linked i j :
  well_built c → difference_graph c → linked_by c linked →
  registered c i → registered c j → i ≠ j →
  ∃ c2, (c1 ← add_constraint_one_way c i j (λ x y, bool_decide (x ≠ y));
         add_constraint_one_way c1 j i (λ x y, bool_decide (x ≠ y))) = Ret c2
    ∧ well_built c2 ∧ difference_graph c2
    ∧ linked_by c2 (λ a b, linked a b || bool_decide ((a, b) = (i, j) ∨ (a, b) = (j, i)))
    ∧ variables c2 = variables c ∧ domains c2 = domains c
    ∧ dict_keys (constraints c2) = dict_keys (constraints c).
Proof.
  intros Hc Hdiff Hlinked Hi Hj Hne.
  destruct (add_constraint_one_way_registered c i j (λ x y, bool_decide (x ≠ y)) Hi Hj)
    as [c1 Hc1].
  rewrite Hc1. simpl.
  apply add_constraint_one_way_tables in Hc1 as (Hv1 & Hd1 & Hk1 & Ht1).
  destruct (add_constraint_one_way_registered c1 j i (λ x y, bool_decide (x ≠ y)))
    as [c2 Hc2]; [by apply (registered_same c c1)..|].
  rewrite Hc2. exists c2. split; [done|].
  apply add_constraint_one_way_tables in Hc2 as (Hv2 & Hd2 & Hk2 & Ht2).
  assert (∀ a b, table c2 a b
                 = if decide ((a, b) = (i, j) ∨ (a, b) = (j, i))
                   then List.filter (λ p, unequal p.1 p.2) <$> pairs_to_filter c a b
                   else table c a b) as Ht.
  { intros a b. rewrite Ht2. destruct (decide ((a, b) = (j, i))) as [?|Hn2]; simplify_eq.
    - rewrite decide_True by auto. unfold pairs_to_filter.
      by rewrite Ht1, decide_False, Hd1 by congruence.
    - rewrite Ht1. destruct (decide ((a, b) = (i, j))) as [?|Hn1]; simplify_eq.
      + by rewrite decide_True by auto.
      + by rewrite decide_False by (by intros [?|?]). }
  split_and!; try congruence.
  - apply (refiltered_well_built c c2 (λ a b, (a, b) = (i, j) ∨ (a, b) = (j, i))
             (λ _ _, unequal) (H := λ a b, decide ((a, b) = (i, j) ∨ (a, b) = (j, i))));
      try done; try congruence.
    + intros a b x y _. unfold unequal. apply bool_decide_ext. naive_solver.
    + intros a b [?|?]; simplify_eq; auto.
    + intros a b [?|?]; simplify_eq; split; by (apply Hi || apply Hj).
  - apply (refiltered_difference c c2 (λ a b, (a, b) = (i, j) ∨ (a, b) = (j, i))
             (H := λ a b, decide ((a, b) = (i, j) ∨ (a, b) = (j, i))));
      try done; try congruence.
    intros a b [?|?]; by simplify_eq.
  - intros a b. rewrite Ht, (full_table_same c c2) by congruence.
    destruct (decide ((a, b) = (i, j) ∨ (a, b) = (j, i))) as [Hab|Hno].
    + rewrite bool_decide_eq_true_2, orb_true_r by done.
      apply (refiltered_full_table c linked); [done|..]; destruct Hab; by simplify_eq.
    + rewrite bool_decide_eq_false_2, orb_false_r by done. apply Hlinked.
Qed.

(** One such constraint after the other. *)
Lemma different_edges_built (ps : list (name * name)) c linked :
  well_built c → difference_graph c → linked_by c linked →
  Forall (λ p, registered c p.1 ∧ registered c p.2 ∧ p.1 ≠ p.2) ps →
  ∃ c', foldl (λ (r : outcome (CSP V)) p,
                 c ← r;
                 c ← add_constraint_one_way c p.1 p.2 (λ x y, bool_decide (x ≠ y));
                 add_constraint_one_way c p.2 p.1 (λ x y, bool_decide (x ≠ y)))
          (Ret c) ps = Ret c'
    ∧ well_built c' ∧ difference_graph c'
    ∧ linked_by c' (λ a b, linked a b
                           || bool_decide (Exists (λ p, (a, b) = p ∨ (b, a) = p) ps))
    ∧ variables c' = variables c ∧ domains c' = domains c.
Proof.
  revert c linked.
  induction ps as [|[i j] ps IH]; intros c linked Hc Hdiff Hlinked Hps; simpl.
  { exists c. split_and!; try done. intros a b. rewrite Hlinked.
    by rewrite orb_false_r. }
  apply Forall_cons in Hps as [(Hi & Hj & Hne) Hps]. simpl in *.
  destruct (different_both_ways_built c linked i j) as (c1 & -> & Hc1 & Hdiff1 & Hl1 & Hv1 & Hd1 & Hk1);
    [done..|].
  destruct (IH c1 _ Hc1 Hdiff1 Hl1) as (c' & Hfold & ? & ? & Hl & Hv & Hd).
  { eapply Forall_impl; [done|]. intros p. by rewrite !(registered_same c c1). }
  exists c'. split_and!; try done; try congruence.
  intros a b. rewrite Hl.
  assert (bool_decide (Exists (λ p, (a, b) = p ∨ (b, a) = p) ((i, j) :: ps))
          = bool_decide ((a, b) = (i, j) ∨ (a, b) = (j, i))
            || bool_decide (Exists (λ p, (a, b) = p ∨ (b, a) = p) ps)) as ->.
  { apply eq_true_iff_eq. rewrite orb_true_iff, !bool_decide_eq_true, Exists_cons.
    naive_solver. }
  by rewrite orb_assoc.
Qed.
End Instance_facts.

(** ** The sudoku builder *)

Section Sudoku_facts.
Import Sudoku.
Local Open Scope string_scope.
Local Open Scope nat_scope.

Lemma get_is_Some (s : string) n : is_Some (String.get n s) ↔ n < String.length s.
Proof.
  revert n. induction s as [|ch s IH]; intros [|n]; simpl.
  - split; [by intros [??]|lia].
  - split; [by intros [??]|lia].
  - split; [lia|eauto].
  - rewrite IH. lia.
Qed.

Lemma elem_of_cells row col : (row, col) ∈ cells ↔ row < 9 ∧ col < 9.
Proof.
  unfold cells. rewrite list_elem_of_bind. setoid_rewrite list_elem_of_bind.
  setoid_rewrite list_elem_of_singleton. setoid_rewrite elem_of_seq. split.
  - intros (r & (c' & ? & ?) & ?). simplify_eq. lia.
  - intros [??]. exists row. split; [|lia]. exists col. split; [done|lia].
Qed.

Lemma board_at_readable board row col :
  readable board → (row, col) ∈ cells → ∃ ch, board_at board row col = inr ch.
Proof.
  intros [Hlen Hlines] [Hrow Hcol]%elem_of_cells. unfold board_at.
  destruct (lookup_lt_is_Some_2 board row) as [line Hline]; [lia|]. rewrite Hline.
  rewrite Forall_forall in Hlines.
  assert (9 ≤ String.length line) as Hline_len.
  { apply Hlines, elem_of_take. exists row. by split. }
  destruct (proj2 (get_is_Some line col)) as [ch ->]; [lia|]. eauto.
Qed.

Lemma board_at_unreadable board :
  ¬ readable board →
  Exists (λ rc, board_at board rc.1 rc.2 = inl IndexError) cells.
Proof.
  intros Hno. apply Exists_exists. unfold board_at.
  destruct (decide (9 ≤ length board)) as [Hlen|Hlen].
  - destruct (decide (Forall (λ line, 9 ≤ String.length line) (take 9 board)))
      as [Hall|Hsome]; [by destruct Hno|].
    apply not_Forall_Exists in Hsome; [|apply _].
    apply Exists_exists in Hsome as (line & (row & Hline & Hrow)%elem_of_take & Hshort).
    exists (row, 8). split; [apply elem_of_cells; lia|]. simpl. rewrite Hline.
    destruct (String.get 8 line) eqn:Hget; [|done].
    assert (8 < String.length line) by (apply get_is_Some; eauto). simpl in *. lia.
  - exists (8, 0). split; [apply elem_of_cells; lia|]. simpl.
    by rewrite lookup_ge_None_2 by lia.
Qed.

Lemma nested_foldl {A B C} (f : A → B → C → A) (l1 : list B) (l2 : list C) a :
  foldl (λ r x, foldl (λ r y, f r x y) r l2) a l1
  = foldl (λ r xy, f r xy.1 xy.2) a (x ← l1; y ← l2; [(x, y)]).
Proof.
  revert a. induction l1 as [|x l1 IH]; intros a; [done|]. csimpl.
  rewrite foldl_app, <-IH. f_equal. clear IH. revert a.
  induction l2 as [|y l2 IH]; intros a; [done|]. csimpl. apply IH.
Qed.

Lemma add_cells_failed board (l : list (nat * nat)) e :
  foldl (λ r rc, add_cell board r rc.1 rc.2) (inl e) l = inl e.
Proof. induction l as [|rc l IH]; [done|]. simpl. apply IH. Qed.

Lemma add_cells_read board (l : list (nat * nat)) c :
  Forall (λ rc, ∃ ch, board_at board rc.1 rc.2 = inr ch) l →
  foldl (λ r rc, add_cell board r rc.1 rc.2) (inr c) l
  = inr (foldl (λ c e, add_variable c e.1 e.2) c
           ((λ rc, (cell_name rc.1 rc.2, cell_domain board rc.1 rc.2)) <$> l)).
Proof.
  revert c. induction l as [|[row col] l IH]; intros c Hl; [done|].
  apply Forall_cons in Hl as [[ch Hch] Hl]. csimpl in *.
  unfold cell_domain. rewrite Hch. by apply IH.
Qed.

Lemma add_cells_unread board (l : list (nat * nat)) r :
  Exists (λ rc, board_at board rc.1 rc.2 = inl IndexError) l →
  foldl (λ r rc, add_cell board r rc.1 rc.2) r l = inl IndexError.
Proof.
  intros Hl. revert r. induction Hl as [[row col] l Hrc|rc l _ IH]; intros r; simpl in *.
  - destruct r as [[]|c]; simpl; [apply add_cells_failed|].
    rewrite Hrc. apply add_cells_failed.
  - apply IH.
Qed.

Lemma digits_NoDup : NoDup digits.
Proof. apply (bool_decide_unpack _). by vm_compute. Qed.

Lemma cell_names_NoDup : NoDup ((λ rc, cell_name rc.1 rc.2) <$> cells).
Proof. apply (bool_decide_unpack _). by vm_compute. Qed.

Lemma cell_names_truthy : Forall (λ rc, truthy (cell_name rc.1 rc.2) = true) cells.
Proof. apply (bool_decide_unpack _). by vm_compute. Qed.

Lemma groups_of_cells :
  Forall (Forall (.∈ (λ rc, cell_name rc.1 rc.2) <$> cells)) groups.
Proof. apply (bool_decide_unpack _). by vm_compute. Qed.

Lemma cell_domain_NoDup board row col : NoDup (cell_domain board row col).
Proof.
  unfold cell_domain. destruct (board_at board row col) as [|ch]; [constructor|].
  case_decide; [apply digits_NoDup | apply NoDup_singleton].
Qed.

Lemma sudoku_entries_names board :
  ((λ rc, (cell_name rc.1 rc.2, cell_domain board rc.1 rc.2)) <$> cells).*1
  = (λ rc, cell_name rc.1 rc.2) <$> cells.
Proof. by rewrite <-list_fmap_compose. Qed.

(** The graph of a readable board. *)
Lemma sudoku_built board :
  readable board →
  ∃ c, create_sudoku_csp board = inr (Ret c)
    ∧ well_built c ∧ difference_graph c ∧ linked_by c (share_group groups)
    ∧ variables c = (λ rc, cell_name rc.1 rc.2) <$> cells
    ∧ domains c = (λ rc, (cell_name rc.1 rc.2, cell_domain board rc.1 rc.2)) <$> cells.
Proof.
  intros Hboard. unfold create_sudoku_csp.
  rewrite (nested_foldl (add_cell board)). fold cells.
  rewrite add_cells_read.
  2:{ apply Forall_forall. intros [row col] Hin. by apply board_at_readable. }
  destruct (empty_csp_built (V := string)) as (Hc0 & Hdiff0 & Hl0).
  destruct (add_variables_built
              ((λ rc, (cell_name rc.1 rc.2, cell_domain board rc.1 rc.2)) <$> cells)
              empty_csp Hc0 Hdiff0) as (Hc1 & Hdiff1 & Hv1 & Hd1 & Ht1 & Hreg1 & _).
  { rewrite sudoku_entries_names. apply cell_names_NoDup. }
  { apply Forall_fmap, Forall_forall. intros [row col] Hin. simpl. split_and!.
    - apply not_elem_of_nil.
    - pose proof cell_names_truthy as Ht. rewrite Forall_forall in Ht. by apply (Ht (row, col)).
    - apply cell_domain_NoDup. }
  set (c1 := foldl (λ c e, add_variable c e.1 e.2) empty_csp _) in *.
  rewrite sudoku_entries_names in Hreg1, Hv1.
  destruct (all_different_groups groups c1 (λ _ _, false)) as (c & Hfold & ? & ? & Hl & Hv & Hd);
    [done|done| | |].
  { intros i j. by rewrite Ht1. }
  { pose proof groups_of_cells as Hg. eapply Forall_impl; [exact Hg|].
    intros g Hin. eapply Forall_impl; [exact Hin|]. intros v Hv.
    rewrite Forall_forall in Hreg1. by apply Hreg1. }
  exists c. split; [rewrite <-Hfold; reflexivity|].
  split_and!; [done|done|exact Hl|by rewrite Hv, Hv1|by rewrite Hd, Hd1].
Qed.

(** On the graph of a readable board, the assignments that satisfy the
    tables are those that fill the board. *)
Lemma sudoku_satisfies board c sol :
  well_built c → linked_by c (share_group groups) →
  domains c = (λ rc, (cell_name rc.1 rc.2, cell_domain board rc.1 rc.2)) <$> cells →
  satisfies c sol ↔ fills board sol.
Proof.
  intros (Hdict & _) Hlinked Hd.
  assert (dict_keys (domains c) = (λ rc, cell_name rc.1 rc.2) <$> cells) as Hkeys
    by (rewrite Hd; apply sudoku_entries_names).
  assert (∀ row col, (row, col) ∈ cells →
            dict_get (cell_name row col) (domains c) = Some (cell_domain board row col))
    as Hdom.
  { intros row col Hin. apply dict_get_elem; [done|]. rewrite Hd.
    apply list_elem_of_fmap. by exists (row, col). }
  split.
  - intros (Hk & Hvals & Htables). split_and!.
    + by rewrite Hk.
    + intros row col x Hin Hx. destruct (Hvals _ _ Hx) as (d & Hd' & ?).
      rewrite Hdom in Hd' by done. by simplify_eq.
    + intros i j x y Hij Hx Hy.
      destruct (Hvals _ _ Hx) as (d_i & Hi & ?), (Hvals _ _ Hy) as (d_j & Hj & ?).
      pose proof (Hlinked i j) as Ht. rewrite Hij in Ht. unfold full_table in Ht.
      rewrite Hi, Hj in Ht. simpl in Ht.
      specialize (Htables i j _ x y Ht Hx Hy).
      apply list_elem_of_In, filter_In in Htables as [_ ?%bool_decide_eq_true]. done.
  - intros (Hk & Hvals & Hgroups).
    assert (∀ v x, dict_get v sol = Some x →
              ∃ d, dict_get v (domains c) = Some d ∧ x ∈ d) as Hvals'.
    { intros v x Hx.
      assert (v ∈ dict_keys sol) as Hv by (apply dict_get_is_Some; eauto).
      rewrite Hk in Hv. apply list_elem_of_fmap in Hv as ([row col] & -> & Hin).
      exists (cell_domain board row col). split; [by apply Hdom|]. by eapply Hvals. }
    split_and!; [congruence|done|].
    intros i j tbl x y Ht Hx Hy. rewrite Hlinked in Ht.
    destruct (share_group groups i j) eqn:Hij; [|done].
    destruct (Hvals' _ _ Hx) as (d_i & Hi & ?), (Hvals' _ _ Hy) as (d_j & Hj & ?).
    unfold full_table in Ht. rewrite Hi, Hj in Ht. simpl in Ht. simplify_eq.
    apply list_elem_of_In, filter_In.
    split; [by apply list_elem_of_In, elem_of_get_all_possible_pairs|].
    apply bool_decide_eq_true. by eapply Hgroups.
Qed.

(** X19.  On a board of nine lines of nine characters or more,
    [create_sudoku_csp] returns a graph with the couples [row-col] as its
    variables, row by row; a cell holding ['0'] has the nine digits as its
    static domain and any other cell the character it holds; a table is
    stored exactly for the ordered pairs of different cells of one row,
    column or box, and it holds the pairs of different values of the two
    domains.  The graph is well built. *)
Theorem create_sudoku_csp_builds board :
  readable board →
  ∃ c, create_sudoku_csp board = inr (Ret c)
    ∧ variables c = (λ rc, cell_name rc.1 rc.2) <$> cells
    ∧ domains c = (λ rc, (cell_name rc.1 rc.2, cell_domain board rc.1 rc.2)) <$> cells
    ∧ (∀ i j, table c i j = if share_group groups i j then full_table c i j else None)
    ∧ well_built c.
Proof.
  intros Hboard.
  destruct (sudoku_built board Hboard) as (c & Hc & ? & ? & ? & ? & ?).
  exists c. by split_and!.
Qed.

(** X20.  [create_sudoku_csp] raises [IndexError] exactly on the boards
    with fewer than nine lines or with one of the first nine lines shorter
    than nine characters; it never raises [KeyError]. *)
Theorem create_sudoku_csp_raises board :
  (create_sudoku_csp board = inl IndexError ↔ ¬ readable board)
  ∧ ∀ e, create_sudoku_csp board ≠ inr (Raise e).
Proof.
  assert (readable board ∨ ¬ readable board) as [Hyes|Hno].
  { unfold readable. destruct (decide (9 ≤ length board));
      [|right; by intros [? _]].
    destruct (decide (Forall (λ line, 9 ≤ String.length line) (take 9 board)));
      [by left | right; by intros [_ ?]]. }
  - destruct (sudoku_built board Hyes) as (c & -> & _). split; [|done].
    split; [done|]. intros []. done.
  - assert (create_sudoku_csp board = inl IndexError) as ->.
    { unfold create_sudoku_csp. rewrite (nested_foldl (add_cell board)). fold cells.
      by rewrite add_cells_unread by (by apply board_at_unreadable). }
    split; [|done]. done.
Qed.

(** X21.  The solver decides every readable board: the search on the graph
    of [create_sudoku_csp] returns, and what it returns is either one value
    for every cell, the values filling the board (a digit for a ['0'], the
    given character otherwise, different in two cells of one row, column or
    box), or the failure value, and this only when nothing fills the
    board. *)
Theorem sudoku_search_decides board :
  readable board →
  ∃ c, create_sudoku_csp board = inr (Ret c)
    ∧ match (backtracking_search c).1.1 with
      | Ret (Some s) => solved s ∧ fills board (chosen s)
      | Ret None => ∀ sol, ¬ fills board sol
      | _ => False
      end.
Proof.
  intros Hboard.
  destruct (sudoku_built board Hboard) as (c & Hc & Hbuilt & Hdiff & Hl & _ & Hd).
  exists c. split; [done|].
  pose proof (λ sol, sudoku_satisfies board c sol Hbuilt Hl Hd) as Hfills.
  pose proof (search_decides_gentle c Hbuilt (difference_gentle c Hdiff)) as Hsearch.
  destruct ((backtracking_search c).1.1) as [[s|]|e|]; [|..|done|done].
  - destruct Hsearch. split; [done|]. by apply Hfills.
  - intros sol ?%Hfills. by eapply Hsearch.
Qed.
End Sudoku_facts.

(** ** The map of Australia *)

Section Map_coloring_facts.
Import Map_coloring.
Local Open Scope string_scope.

Lemma adjacent_edges a b :
  bool_decide (Exists (λ p, (a, b) = p ∨ (b, a) = p)
                 (e ← edges; other_state ← e.2; [(e.1, other_state)]))
  = adjacent a b.
Proof.
  unfold adjacent, edges. apply eq_true_iff_eq. rewrite !bool_decide_eq_true. csimpl.
  rewrite !Exists_cons, !Exists_nil. simpl. rewrite !elem_of_cons.
  setoid_rewrite elem_of_nil. naive_solver.
Qed.

Lemma nested_foldl_items {A B C} (f : A → B → C → A) (l : list (B * list C)) a :
  foldl (λ r '(x, ys), foldl (λ r y, f r x y) r ys) a l
  = foldl (λ r p, f r p.1 p.2) a (e ← l; y ← e.2; [(e.1, y)]).
Proof.
  revert a. induction l as [|[x ys] l IH]; intros a; [done|]. csimpl.
  rewrite foldl_app, <-IH. f_equal. clear IH. revert a.
  induction ys as [|y ys IH]; intros a; [done|]. csimpl. apply IH.
Qed.

(** X22.  [create_map_coloring_csp()] returns a well-built graph of the
    seven states, each with the three colours, with a table exactly for
    every ordered pair of neighbouring states, holding the pairs of
    different colours; the search on it returns one colour for every state,
    different for neighbouring states: red for WA, Q, V and T, green for NT
    and NSW, blue for SA. *)
Theorem create_map_coloring_csp_solved :
  ∃ c s, create_map_coloring_csp = Ret c
    ∧ variables c = states
    ∧ domains c = (λ state, (state, colors)) <$> states
    ∧ (∀ i j, table c i j = if adjacent i j then full_table c i j else None)
    ∧ well_built c
    ∧ (backtracking_search c).1.1 = Ret (Some s)
    ∧ solved s ∧ satisfies c (chosen s)
    ∧ chosen s = [("WA", "red"); ("NT", "green"); ("Q", "red"); ("NSW", "green");
                  ("V", "red"); ("SA", "blue"); ("T", "red")].
Proof.
  destruct (empty_csp_built (V := string)) as (Hc0 & Hdiff0 & Hl0).
  destruct (add_variables_built ((λ state, (state, colors)) <$> states)
              empty_csp Hc0 Hdiff0) as (Hc1 & Hdiff1 & Hv1 & Hd1 & Ht1 & Hreg1 & _).
  { apply (bool_decide_unpack _). by vm_compute. }
  { repeat constructor; simpl; try done; try apply not_elem_of_nil;
      apply (bool_decide_unpack _); by vm_compute. }
  set (c1 := foldl (λ c e, add_variable c e.1 e.2) empty_csp _) in *.
  destruct (different_edges_built (e ← edges; other_state ← e.2; [(e.1, other_state)])
              c1 (λ _ _, false)) as (c & Hfold & Hbuilt & Hdiff & Hl & Hv & Hd);
    [done|done| | |].
  { intros i j. by rewrite Ht1. }
  { rewrite Forall_forall in Hreg1.
    repeat constructor; simpl; try done; apply Hreg1; apply (bool_decide_unpack _);
      by vm_compute. }
  assert (create_map_coloring_csp = Ret c) as Hc.
  { unfold create_map_coloring_csp.
    rewrite (nested_foldl_items
               (λ (r : outcome (CSP string)) state other_state,
                  csp ← r;
                  csp ← add_constraint_one_way csp state other_state
                          (λ i j, bool_decide (i ≠ j));
                  add_constraint_one_way csp other_state state
                    (λ i j, bool_decide (i ≠ j)))).
    unfold c1 in Hfold. rewrite foldl_fmap in Hfold. exact Hfold. }
  pose proof (search_decides_gentle c Hbuilt (difference_gentle c Hdiff)) as Hsearch.
  assert (∃ s, (backtracking_search c).1.1 = Ret (Some s)
               ∧ chosen s = [("WA", "red"); ("NT", "green"); ("Q", "red");
                             ("NSW", "green"); ("V", "red"); ("SA", "blue");
                             ("T", "red")]) as (s & Hs & Hchosen).
  { clear -Hc. vm_compute in Hc. injection Hc as <-. eexists. split; by vm_compute. }
  rewrite Hs in Hsearch. destruct Hsearch as [Hsolved Hsat].
  exists c, s. split; [exact Hc|]. split; [rewrite Hv, Hv1; reflexivity|].
  split; [rewrite Hd, Hd1; reflexivity|].
  split; [|by split_and!].
  intros i j. rewrite Hl, orb_false_l, adjacent_edges. reflexivity.
Qed.
End Map_coloring_facts.

(** ** Printing a board *)

Section Printing_facts.
Import Sudoku Printing.
Local Open Scope string_scope.
Local Open Scope nat_scope.
#[local] Arguments cell_name : simpl never.
#[local] Arguments format_line : simpl never.




(** The line of a row whose cells all hold one character. *)
Lemma format_line_layout board row :
  (∀ col, col < 9 →
     ∃ ch, item_at board (cell_name row col) = inr (String ch EmptyString)) →
  ∃ line,
    format_line board row = inr line ∧ String.length line = 22
    ∧ ∀ col, col < 9 →
        ∃ ch, item_at board (cell_name row col) = inr (String ch EmptyString)
              ∧ String.get (2 * col + 2 * (col / 3)) line = Some ch.
Proof.
  intros H.
  destruct (H 0) as [c0 H0]; [lia|]. destruct (H 1) as [c1 H1]; [lia|].
  destruct (H 2) as [c2 H2]; [lia|]. destruct (H 3) as [c3 H3]; [lia|].
  destruct (H 4) as [c4 H4]; [lia|]. destruct (H 5) as [c5 H5]; [lia|].
  destruct (H 6) as [c6 H6]; [lia|]. destruct (H 7) as [c7 H7]; [lia|].
  destruct (H 8) as [c8 H8]; [lia|].
  unfold format_line. simpl. rewrite H0, H1, H2, H3, H4, H5, H6, H7, H8. simpl.
  eexists. split; [reflexivity|]. split; [reflexivity|].
  intros col Hcol.
  do 9 (destruct col as [|col]; [eexists; split; [eassumption|reflexivity]|]). lia.
Qed.

(** The lines of a board, from the lines of its rows. *)
Lemma format_board_lines board (line : nat → string) :
  (∀ row, row < 9 → format_line board row = inr (line row)) →
  format_board board
  = inr [line 0; line 1; line 2; "------+-------+------";
         line 3; line 4; line 5; "------+-------+------";
         line 6; line 7; line 8].
Proof.
  intros H. unfold format_board. simpl.
  by rewrite !H by lia.
Qed.

(** The rows of a board that holds one character for every cell. *)
Lemma format_board_rows board :
  (∀ row col, row < 9 → col < 9 →
     ∃ ch, item_at board (cell_name row col) = inr (String ch EmptyString)) →
  ∃ line : nat → string,
    format_board board
    = inr [line 0; line 1; line 2; "------+-------+------";
           line 3; line 4; line 5; "------+-------+------";
           line 6; line 7; line 8]
    ∧ ∀ row, row < 9 →
        String.length (line row) = 22
        ∧ ∀ col, col < 9 →
            ∃ ch, item_at board (cell_name row col) = inr (String ch EmptyString)
                  ∧ String.get (2 * col + 2 * (col / 3)) (line row) = Some ch.
Proof.
  intros H.
  destruct (format_line_layout board 0) as (l0 & H0 & Hl0 & Hc0); [intros; apply H; lia|].
  destruct (format_line_layout board 1) as (l1 & H1 & Hl1 & Hc1); [intros; apply H; lia|].
  destruct (format_line_layout board 2) as (l2 & H2 & Hl2 & Hc2); [intros; apply H; lia|].
  destruct (format_line_layout board 3) as (l3 & H3 & Hl3 & Hc3); [intros; apply H; lia|].
  destruct (format_line_layout board 4) as (l4 & H4 & Hl4 & Hc4); [intros; apply H; lia|].
  destruct (format_line_layout board 5) as (l5 & H5 & Hl5 & Hc5); [intros; apply H; lia|].
  destruct (format_line_layout board 6) as (l6 & H6 & Hl6 & Hc6); [intros; apply H; lia|].
  destruct (format_line_layout board 7) as (l7 & H7 & Hl7 & Hc7); [intros; apply H; lia|].
  destruct (format_line_layout board 8) as (l8 & H8 & Hl8 & Hc8); [intros; apply H; lia|].
  set (line := λ row : nat, match row with
                            | 0 => l0 | 1 => l1 | 2 => l2 | 3 => l3 | 4 => l4
                            | 5 => l5 | 6 => l6 | 7 => l7 | _ => l8
                            end).
  exists line. split.
  - apply (format_board_lines board line). intros row Hrow.
    do 9 (destruct row as [|row]; [done|]). lia.
  - intros row Hrow. do 9 (destruct row as [|row]; [by split|]). lia.
Qed.

(** X23.  On a board that holds one character for each of the 81 cells,
    [format_board] returns eleven lines: the fourth and the eighth are the
    separator, the others are the rows in order, 22 characters each, and
    the character of the cell [(row, col)] stands at position
    [2 * col + 2 * (col / 3)] of the line [row + row / 3], so that the board
    can be read back from the lines. *)
Theorem format_board_layout board :
  (∀ row col, row < 9 → col < 9 →
     ∃ ch, item_at board (cell_name row col) = inr (String ch EmptyString)) →
  ∃ lines,
    format_board board = inr lines ∧ length lines = 11
    ∧ lines !! 3 = Some "------+-------+------"
    ∧ lines !! 7 = Some "------+-------+------"
    ∧ ∀ row col, row < 9 → col < 9 →
        ∃ line ch,
          lines !! (row + row / 3) = Some line ∧ String.length line = 22
          ∧ item_at board (cell_name row col) = inr (String ch EmptyString)
          ∧ String.get (2 * col + 2 * (col / 3)) line = Some ch.
Proof.
  intros H. destruct (format_board_rows board H) as (line & -> & Hrows).
  eexists. split; [reflexivity|]. split_and!; [done..|].
  intros row col Hrow Hcol. destruct (Hrows row Hrow) as [Hlen Hcols].
  destruct (Hcols col Hcol) as (ch & ? & ?). exists (line row), ch.
  split_and!; [|done..].
  do 9 (destruct row as [|row]; [done|]). lia.
Qed.







End Printing_facts.

(** ** The further properties on small graphs and on a board *)

Section On_instances.
Import Graphs Sudoku Printing.
Local Open Scope string_scope.
Local Open Scope Z_scope.

Lemma two_variables_built (d_a d_b : list Z) :
  NoDup d_a → NoDup d_b →
  well_built (two_variables d_a d_b) ∧ difference_graph (two_variables d_a d_b)
  ∧ linked_by (two_variables d_a d_b) (λ _ _, false)
  ∧ Forall (registered (two_variables d_a d_b)) ["a"; "b"].
Proof.
  intros Ha Hb. destruct (empty_csp_built (V := Z)) as (Hc0 & Hdiff0 & Hl0).
  destruct (add_variables_built [("a", d_a); ("b", d_b)] empty_csp Hc0 Hdiff0)
    as (? & ? & _ & _ & Ht & ? & _).
  - apply (bool_decide_unpack _). by vm_compute.
  - repeat constructor; simpl; try done; try apply not_elem_of_nil.
  - by split_and!.
Qed.

Lemma different_built : well_built different ∧ difference_graph different.
Proof.
  destruct (two_variables_built [1; 2; 3] [1; 2]) as (Hc & Hdiff & Hl & Hreg).
  { apply (bool_decide_unpack _). by vm_compute. }
  { apply (bool_decide_unpack _). by vm_compute. }
  destruct (all_different_built _ _ ["a"; "b"] Hc Hdiff Hl Hreg) as (c & Hret & ? & ? & _).
  assert (c = different) as ->.
  { vm_compute in Hret. injection Hret as <-. reflexivity. }
  done.
Qed.

Lemma add_constraint_one_way_effect_witness :
  ∃ base,
    pairs_to_filter (two_variables [1; 2] [1]) "a" "b" = Some base
    ∧ table one_way "a" "b" = Some (List.filter (λ p, differ p.1 p.2) base)
    ∧ (∀ tbl x y, table one_way "a" "b" = Some tbl →
         (x, y) ∈ tbl ↔ (x, y) ∈ base ∧ differ x y = true)
    ∧ (∀ i' j', (i', j') ≠ ("a", "b") →
         table one_way i' j' = table (two_variables [1; 2] [1]) i' j')
    ∧ variables one_way = variables (two_variables [1; 2] [1])
    ∧ domains one_way = domains (two_variables [1; 2] [1])
    ∧ dict_keys (constraints one_way) = dict_keys (constraints (two_variables [1; 2] [1]))
    ∧ backtrack_count one_way = backtrack_count (two_variables [1; 2] [1])
    ∧ backtrack_failure_count one_way
      = backtrack_failure_count (two_variables [1; 2] [1]).
Proof.
  apply (add_constraint_one_way_effect (two_variables [1; 2] [1]) "a" "b" differ one_way).
  reflexivity.
Defined.

Lemma constraint_both_ways_well_built_witness :
  well_built different
  ∧ table different "a" "b"
    = List.filter (λ p, differ p.1 p.2)
        <$> pairs_to_filter (two_variables [1; 2; 3] [1; 2]) "a" "b"
  ∧ table different "b" "a"
    = List.filter (λ p, differ p.2 p.1)
        <$> pairs_to_filter (two_variables [1; 2; 3] [1; 2]) "b" "a"
  ∧ is_Some (table different "a" "b") ∧ is_Some (table different "b" "a").
Proof.
  apply (constraint_both_ways_well_built (two_variables [1; 2; 3] [1; 2]) "a" "b" differ
           (mkCSP ["a"; "b"] [("a", [1; 2; 3]); ("b", [1; 2])]
              [("a", [("b", [(1, 2); (2, 1); (3, 1); (3, 2)])]); ("b", [])] 0 0)).
  - done.
  - apply two_variables_built; apply (bool_decide_unpack _); by vm_compute.
  - reflexivity.
  - reflexivity.
Defined.

Lemma add_variable_well_built_witness :
  well_built (add_variable empty_csp "a" [1; 2])
  ∧ (∀ i j, table (add_variable empty_csp "a" [1; 2]) i j = table empty_csp i j)
  ∧ registered (add_variable empty_csp "a" [1; 2]) "a".
Proof.
  apply (add_variable_well_built empty_csp "a" [1; 2]).
  - apply empty_csp_built.
  - apply not_elem_of_nil.
  - reflexivity.
Defined.

Lemma add_all_different_constraint_effect_witness :
  ∃ c',
    add_all_different_constraint (two_variables [1; 2; 3] [1; 2]) ["a"; "b"] = Ret c'
    ∧ variables c' = variables (two_variables [1; 2; 3] [1; 2])
    ∧ domains c' = domains (two_variables [1; 2; 3] [1; 2])
    ∧ dict_keys (constraints c')
      = dict_keys (constraints (two_variables [1; 2; 3] [1; 2]))
    ∧ ∀ i j, table c' i j
             = if decide (i ∈ ["a"; "b"] ∧ j ∈ ["a"; "b"] ∧ i ≠ j)
               then List.filter (λ p, unequal p.1 p.2)
                      <$> pairs_to_filter (two_variables [1; 2; 3] [1; 2]) i j
               else table (two_variables [1; 2; 3] [1; 2]) i j.
Proof.
  apply (add_all_different_constraint_effect (two_variables [1; 2; 3] [1; 2]) ["a"; "b"]).
  left. unfold registered. apply (bool_decide_unpack _). by vm_compute.
Defined.

Lemma add_all_different_constraint_well_built_witness :
  well_built different
  ∧ ∀ i j, i ∈ ["a"; "b"] → j ∈ ["a"; "b"] → i ≠ j → is_Some (table different i j).
Proof.
  apply (add_all_different_constraint_well_built (two_variables [1; 2; 3] [1; 2])
           ["a"; "b"] different).
  - apply two_variables_built; apply (bool_decide_unpack _); by vm_compute.
  - unfold registered. apply (bool_decide_unpack _). by vm_compute.
  - reflexivity.
Defined.

Lemma get_all_arcs_each_table_once_witness :
  NoDup (get_all_arcs different)
  ∧ ∀ i j, (i, j) ∈ get_all_arcs different ↔ is_Some (table different i j).
Proof.
  apply (get_all_arcs_each_table_once different).
  - unfold is_dict. apply (bool_decide_unpack _). by vm_compute.
  - unfold is_dict. apply (bool_decide_unpack _). by vm_compute.
Defined.

Lemma select_unassigned_variable_mrv_witness :
  match select_unassigned_variable (domains different) with
  | None => Forall (λ e, (length e.2 ≤ 1)%nat) (domains different)
  | Some v =>
      ∃ pre l post,
        domains different = (pre ++ (v, l) :: post)%list
        ∧ (1 < length l)%nat
        ∧ Forall (λ e, (1 < length e.2)%nat → (length l < length e.2)%nat) pre
        ∧ Forall (λ e, (1 < length e.2)%nat → (length l ≤ length e.2)%nat) post
  end.
Proof.
  apply (select_unassigned_variable_mrv (domains different)).
  unfold is_dict. apply (bool_decide_unpack _). by vm_compute.
Defined.

Lemma counters_tally_the_search_witness :
  tallied different (backtracking_search different).1.1 (backtracking_search different).1.2
    (backtracking_search different).2
  ∧ (∀ r, (backtracking_search different).1.1 = Ret r →
       1 ≤ backtrack_calls (backtracking_search different).2).
Proof.
  apply (counters_tally_the_search different).
  unfold is_dict. apply (bool_decide_unpack _). by vm_compute.
Defined.

Lemma revise_exact_when_spaced_witness :
  ∃ revised li',
    revise different [("a", [1; 2; 3]); ("b", [1])] "a" "b"
    = Ret (revised, dict_set "a" li' [("a", [1; 2; 3]); ("b", [1])])
    ∧ li' = List.filter (λ x, supported [(1, 2); (2, 1); (3, 1); (3, 2)] x [1]) [1; 2; 3]
    ∧ (∀ x, x ∈ li' ↔
         x ∈ [1; 2; 3] ∧ ∃ y, y ∈ [1] ∧ (x, y) ∈ [(1, 2); (2, 1); (3, 1); (3, 2)])
    ∧ (revised = true ↔
         ∃ x, x ∈ [1; 2; 3] ∧ ∀ y, y ∈ [1] → (x, y) ∉ [(1, 2); (2, 1); (3, 1); (3, 2)]).
Proof.
  apply (revise_exact_when_spaced different [("a", [1; 2; 3]); ("b", [1])] "a" "b").
  - done.
  - reflexivity.
  - reflexivity.
  - reflexivity.
  - vm_compute. auto.
Defined.

Lemma inference_keeps_consistent_assignment_witness :
  (inference different (domains different) (get_all_arcs different)).1
  = Ret (true, domains different)
  ∧ Forall (λ e, call_assignment e = domains different)
      (inference different (domains different) (get_all_arcs different)).2.
Proof.
  apply (inference_keeps_consistent_assignment different).
  repeat constructor; simpl; try (by eexists);
    try (apply (bool_decide_unpack _); by vm_compute).
  - intros tbl li lj Ht Hi Hj x Hx. vm_compute in Ht, Hi, Hj. simplify_eq.
    repeat (apply elem_of_cons in Hx as [->|Hx]; [reflexivity|]).
    by apply elem_of_nil in Hx.
  - intros tbl li lj Ht Hi Hj x Hx. vm_compute in Ht, Hi, Hj. simplify_eq.
    repeat (apply elem_of_cons in Hx as [->|Hx]; [reflexivity|]).
    by apply elem_of_nil in Hx.
Defined.

Lemma inference_never_false_below_static_domains_witness :
  match (inference both_one (domains both_one) (get_all_arcs both_one)).1 with
  | Ret (flag, _) => flag = true
  | _ => True
  end.
Proof.
  apply (inference_never_false_below_static_domains both_one).
  unfold shrinks. by repeat constructor.
Defined.

Lemma inference_arc_consistent_on_gentle_graph_witness :
  ∃ a', (inference different (domains different) (get_all_arcs different)).1
        = Ret (true, a')
        ∧ shrinks a' (domains different)
        ∧ (dead a' ∨ arc_consistent different a')
        ∧ (∀ a0, part_of a0 (domains different) →
                 (∀ i j, consistent_arc different a0 i j) → part_of a0 a')
        ∧ ∀ sol, satisfies different sol → contains (domains different) sol →
                 contains a' sol.
Proof.
  apply (inference_arc_consistent_on_gentle_graph different).
  - apply different_built.
  - apply different_built.
  - apply difference_gentle, different_built.
  - unfold shrinks. by repeat constructor.
  - apply (bool_decide_unpack _). by vm_compute.
  - intros i j Hij. left. by apply table_is_Some.
Defined.

Lemma inference_keeps_arc_consistent_part_witness :
  match (inference equal_three (domains equal_three) (get_all_arcs equal_three)).1 with
  | Ret (_, a') => part_of [("a", [3]); ("b", [3])] a'
  | _ => True
  end.
Proof.
  apply (inference_keeps_arc_consistent_part equal_three).
  - intros i j Hij%table_is_Some.
    assert (Forall (λ ij, ij.1 ≠ ij.2) (get_all_arcs equal_three)) as Harcs
      by (apply (bool_decide_unpack _); by vm_compute).
    rewrite Forall_forall in Harcs. by apply (Harcs (i, j)).
  - split; [reflexivity|]. intros v l0 x Hv Hx. simpl in *.
    repeat (case_decide; simplify_eq);
      apply list_elem_of_singleton in Hx as ->; eexists; (split; [reflexivity|]);
      apply (bool_decide_unpack _); by vm_compute.
  - intros i j tbl li lj Ht Hi Hj x Hx. unfold table in Ht. simpl in *.
    repeat case_decide; simplify_eq; simpl in *; repeat case_decide; simplify_eq;
      apply list_elem_of_singleton in Hx as ->; reflexivity.
Defined.

Lemma search_decides_gentle_graph_witness :
  match (backtracking_search different).1.1 with
  | Ret (Some s) => solved s ∧ satisfies different (chosen s)
  | Ret None => ∀ sol, ¬ satisfies different sol
  | _ => False
  end.
Proof.
  apply (search_decides_gentle_graph different).
  - apply different_built.
  - apply difference_gentle, different_built.
Defined.

Lemma difference_graph_gentle_witness : gentle different.
Proof. apply (difference_graph_gentle different). apply different_built. Defined.

Lemma builders_keep_difference_graph_witness :
  (∀ n d, (n ∉ dict_keys (domains different)) → NoDup d →
     difference_graph (add_variable different n d))
  ∧ (∀ i j c', i ≠ j →
       add_constraint_one_way different i j (λ x y, bool_decide (x ≠ y)) = Ret c' →
       difference_graph c')
  ∧ (∀ vars c', Forall (registered different) vars →
       add_all_different_constraint different vars = Ret c' → difference_graph c').
Proof. apply (builders_keep_difference_graph different). apply different_built. Defined.

Lemma create_sudoku_csp_builds_witness :
  ∃ c, create_sudoku_csp puzzle = inr (Ret c)
    ∧ variables c = (λ rc, cell_name rc.1 rc.2) <$> cells
    ∧ domains c = (λ rc, (cell_name rc.1 rc.2, cell_domain puzzle rc.1 rc.2)) <$> cells
    ∧ (∀ i j, table c i j = if share_group groups i j then full_table c i j else None)
    ∧ well_built c.
Proof.
  apply (create_sudoku_csp_builds puzzle).
  split; [vm_compute; lia | apply (bool_decide_unpack _); by vm_compute].
Defined.

Lemma sudoku_search_decides_witness :
  ∃ c, create_sudoku_csp puzzle = inr (Ret c)
    ∧ match (backtracking_search c).1.1 with
      | Ret (Some s) => solved s ∧ fills puzzle (chosen s)
      | Ret None => ∀ sol, ¬ fills puzzle sol
      | _ => False
      end.
Proof.
  apply (sudoku_search_decides puzzle).
  split; [vm_compute; lia | apply (bool_decide_unpack _); by vm_compute].
Defined.

Lemma format_board_layout_witness :
  ∃ lines,
    format_board (Some ((λ rc, (cell_name rc.1 rc.2, base_entry puzzle rc.1 rc.2))
                          <$> cells)) = inr lines
    ∧ length lines = 11%nat
    ∧ lines !! 3%nat = Some "------+-------+------"
    ∧ lines !! 7%nat = Some "------+-------+------"
    ∧ ∀ row col, (row < 9)%nat → (col < 9)%nat →
        ∃ line ch,
          lines !! (row + row / 3)%nat = Some line ∧ String.length line = 22%nat
          ∧ item_at (Some ((λ rc, (cell_name rc.1 rc.2, base_entry puzzle rc.1 rc.2))
                             <$> cells)) (cell_name row col)
            = inr (String ch EmptyString)
          ∧ String.get (2 * col + 2 * (col / 3)) line = Some ch.
Proof.
  apply (format_board_layout
           (Some ((λ rc, (cell_name rc.1 rc.2, base_entry puzzle rc.1 rc.2)) <$> cells))).
  intros row col Hrow Hcol.
  do 9 (destruct row as [|row];
        [do 9 (destruct col as [|col]; [eexists; vm_compute; reflexivity|]); lia|]).
  lia.
Defined.

End On_instances.
